(** * Serpentine binning: a shallow embedding of [serpentine.py]

    The development follows [serpentin_iteration] and [serpentin_binning]
    statement by statement; the helpers [fromupdiag], [fltmatr] and
    [mad] come after them.  Matrix entries and thresholds are exact
    rationals ([Q]): the arithmetic of the number type of the input
    (the wrap-around of integer sums, the rounding of float sums) and
    the cast to [float32] before the means are written are left out,
    and the statements that depend on them say for which entries they
    hold.  The logarithm of the ratio matrix lives in the reals.  Python
    exceptions are values of [exn]: where a statement of the source can
    raise, the model returns [Raise].  Printing is left out, except for
    the division in [print_iteration], which can raise. *)

From Stdlib Require Import QArith Qabs Qround Qreals Reals Lia Lra Lqa.
From stdpp Require Import base list gmap sets.

Set Default Proof Using "Type".
#[local] Set Warnings "-clear-no-such-hyp".

(** ** Exceptions and the error monad *)

Inductive exn : Type :=
| ValueError_shape      (* "Matrices must have identical shape" *)
| ValueError_square     (* "Matrices must be square and have identical shape" *)
| ValueError_threshold  (* "Minimal threshold should be lower than maximal" *)
| ZeroDivisionError     (* 100 * float(tot) / start with start = 0 *)
| IndexError_choice     (* random.choice of an empty sequence *)
| IndexError_bounds     (* list or array index out of range *)
| KeyError              (* set.remove of an element that is not in the set *)
| NoneError.            (* None used where an array or a set is expected
                           (the TypeError, AttributeError or ValueError
                           of tuple(None), None.remove, np.concatenate) *)

Inductive result (A : Type) : Type :=
| Ok (a : A)
| Raise (e : exn).
Arguments Ok {A} a.
Arguments Raise {A} e.

Definition bind {A B : Type} (m : result A) (k : A → result B) : result B :=
  match m with
  | Ok a => k a
  | Raise e => Raise e
  end.

Notation "'let*' x ':=' m 'in' k" := (bind m (λ x, k))
  (at level 10, x name, m at level 100, k at level 200).
Notation "m ';;' k" := (bind m (λ _, k))
  (at level 100, k at level 200, right associativity).

(** A [for] loop whose body may raise: the state is threaded from left to
    right and the first exception leaves the loop. *)
Fixpoint for_each {S X : Type} (body : X → S → result S) (xs : list X) (s : S)
  : result S :=
  match xs with
  | [] => Ok s
  | x :: xs' => let* s' := body x s in for_each body xs' s'
  end.

(** ** Arrays *)

(** A numpy array: its shape and its entries in row-major order. *)
Record ndarray (X : Type) : Type := NdArray { shape : list nat; data : list X }.
Arguments NdArray {X} shape data.
Arguments shape {X} n.
Arguments data {X} n.

(** numpy keeps [len(data) = prod(shape)]. *)
Definition wf_ndarray {X : Type} (M : ndarray X) : Prop :=
  length (data M) = foldr Nat.mul 1 (shape M).

Definition range (n : nat) : list nat := seq 0 n.

(** [itertools.product]: the first component varies slowest. *)
Definition product {X Y : Type} (xs : list X) (ys : list Y) : list (X * Y) :=
  flat_map (λ x, map (pair x) ys) xs.

(** [l[i]] on a Python list or a one-dimensional array. *)
Definition getitem {X : Type} (l : list X) (i : nat) : result X :=
  match l !! i with
  | Some x => Ok x
  | None => Raise IndexError_bounds
  end.

(** [U[idx]] for an index array [idx]. *)
Fixpoint take_items {X : Type} (U : list X) (idx : list nat) : result (list X) :=
  match idx with
  | [] => Ok []
  | i :: idx' =>
      let* x := getitem U i in
      let* xs := take_items U idx' in
      Ok (x :: xs)
  end.

(** [U[idx] = m] for an index array [idx] whose entries are in range. *)
Definition put_items {X : Type} (U : list X) (idx : list nat) (m : X) : list X :=
  foldr (λ i W, <[i := m]> W) U idx.

(** [np.sum] in exact arithmetic. *)
Definition Qsum (xs : list Q) : Q := foldr Qplus 0%Q xs.

Definition Qltb (x y : Q) : bool := if Qlt_le_dec x y then true else false.

(** ** IEEE special values

    Quotients and logarithms follow the floating-point conventions for
    division by zero and for the logarithm of zero; rounding and the sign
    of zero are not modelled. *)

Inductive ieee (X : Type) : Type :=
| Fin (x : X)
| PosInf
| NegInf
| NaN.
Arguments Fin {X} x.
Arguments PosInf {X}.
Arguments NegInf {X}.
Arguments NaN {X}.

(** [v / u] on floats *)
Definition fdiv (v u : Q) : ieee Q :=
  if Qeq_bool u 0 then
    if Qeq_bool v 0 then NaN
    else if Qltb 0 v then PosInf else NegInf
  else Fin (v / u)%Q.

(** [np.log2] *)
Definition log2 (x : ieee Q) : ieee R :=
  match x with
  | Fin q =>
      if Qltb 0 q then Fin (ln (Q2R q) / ln 2)%R
      else if Qeq_bool q 0 then NegInf else NaN
  | PosInf => PosInf
  | NegInf => NaN
  | NaN => NaN
  end.

(** ** Validation of the inputs *)

Definition min_list (l : list nat) : nat :=
  match l with
  | [] => 0
  | x :: l' => foldr Nat.min x l'
  end.

(** The two [try: assert ... except AssertionError: raise ValueError]
    blocks on the shapes; on success the two dimensions are returned. *)
Definition check_shape (triangular : bool) (sa sb : list nat) : result (nat * nat) :=
  if triangular then
    if decide (sa = sb) then
      match sa with
      | [h; w] =>
          if decide (min_list sa = max_list sa) then Ok (h, w)
          else Raise ValueError_square
      | _ => Raise ValueError_square
      end
    else Raise ValueError_square
  else
    if decide (sa = sb) then
      match sa with
      | [h; w] => Ok (h, w)
      | _ => Raise ValueError_shape
      end
    else Raise ValueError_shape.

Definition check_threshold (threshold minthreshold : Q) : result unit :=
  if Qltb minthreshold threshold then Ok () else Raise ValueError_threshold.

(** ** Pixel adjacency *)

Definition pixel_neighs_triangular (i j size : nat) : list (nat * nat) :=
  (if decide (0 < i) then (if decide (j ≤ i - 1) then [(i - 1, j)] else []) else [])
  ++ (if decide (i < size - 1) then (if decide (j ≤ i + 1) then [(i + 1, j)] else []) else [])
  ++ (if decide (0 < j) then (if decide (j - 1 ≤ i) then [(i, j - 1)] else []) else [])
  ++ (if decide (j < size - 1) then (if decide (j + 1 ≤ i) then [(i, j + 1)] else []) else []).

Definition pixel_neighs (i j w h : nat) : list (nat * nat) :=
  (if decide (0 < i) then [(i - 1, j)] else [])
  ++ (if decide (i < w - 1) then [(i + 1, j)] else [])
  ++ (if decide (0 < j) then [(i, j - 1)] else [])
  ++ (if decide (j < h - 1) then [(i, j + 1)] else []).

(** ** The region graph *)

(** [pixels[k]] is the index array of region [k], or [None] once it has
    been merged into another one; [neighs[k]] is its set of neighbours.
    [merges] counts the merges done so far, which is also the number of
    calls of [random.choice]. *)
Record serpentines : Type := Serpentines {
  pixels : list (option (list nat));
  neighs : list (option (gset nat));
  merges : nat
}.

(** The index pairs of the lower triangle, diagonal included, in the
    order of the comprehension. *)
Definition lower_pairs (n : nat) : list (nat * nat) :=
  filter (λ p : nat * nat, p.2 ≤ p.1) (product (range n) (range n)).

(** [int(a * (a + 1) / 2) + b] *)
Definition triangular_id (a b : nat) : nat := a * (a + 1) / 2 + b.

Definition initial_pixels (triangular : bool) (size0 size1 : nat)
  : list (option (list nat)) :=
  if triangular then
    map (λ p : nat * nat, Some [p.1 * size0 + p.2]) (lower_pairs size0)
  else
    map (λ p : nat * nat, Some [p.1 * size1 + p.2])
        (product (range size0) (range size1)).

Definition initial_neighs (triangular : bool) (size0 size1 : nat)
  : list (option (gset nat)) :=
  if triangular then
    map (λ p : nat * nat,
           Some (list_to_set
                   (map (λ q : nat * nat, triangular_id q.1 q.2)
                        (pixel_neighs_triangular p.1 p.2 size0))))
        (lower_pairs size0)
  else
    map (λ p : nat * nat,
           Some (list_to_set
                   (map (λ q : nat * nat, q.1 * size1 + q.2)
                        (pixel_neighs p.1 p.2 size0 size1))))
        (product (range size0) (range size1)).

Definition initial_start (triangular : bool) (size0 size1 : nat) : nat :=
  if triangular then size0 * (size0 + 1) / 2 else size0 * size1.

Definition initial_state (triangular : bool) (size0 size1 : nat) : serpentines :=
  {| pixels := initial_pixels triangular size0 size1;
     neighs := initial_neighs triangular size0 size1;
     merges := 0 |}.

(** The regions that are not [None], in list order. *)
Definition existent (px : list (option (list nat))) : list (list nat) :=
  omap (λ p, p) px.

(** [sum((serp is not None for serp in pixels))] *)
Definition count_existent (px : list (option (list nat))) : nat :=
  length (existent px).

(** ** Random draws

    [permutation k] is the visiting order drawn by
    [np.random.permutation] for pass [k]; [randbelow k] is the number
    drawn by the [k]-th call of [random.choice], which returns the entry
    of that index (modulo the length) of its argument.  The tuple made
    of a set lists its elements in the order of [elements]; as every
    number can be drawn, every element can be chosen. *)
Record draws : Type := Draws {
  permutation : nat → list nat;
  randbelow : nat → nat
}.

(** [random.choice(t)] *)
Definition choice (r : nat) (t : list nat) : result nat :=
  match t !! (r mod length t) with
  | Some x => Ok x
  | None => Raise IndexError_choice
  end.

(** ** Set operations on one slot of [neighs] *)

Definition get_set (ns : list (option (gset nat))) (k : nat) : result (gset nat) :=
  let* o := getitem ns k in
  match o with
  | Some s => Ok s
  | None => Raise NoneError
  end.

(** [neighs[k].remove(x)] *)
Definition set_remove (ns : list (option (gset nat))) (k x : nat)
  : result (list (option (gset nat))) :=
  let* s := get_set ns k in
  if decide (x ∈ s) then Ok (<[k := Some (s ∖ {[x]})]> ns) else Raise KeyError.

(** [neighs[k].add(x)] *)
Definition set_add (ns : list (option (gset nat))) (k x : nat)
  : result (list (option (gset nat))) :=
  let* s := get_set ns k in
  Ok (<[k := Some (s ∪ {[x]})]> ns).

(** [neighs[k].update(neighs[j])] *)
Definition set_update (ns : list (option (gset nat))) (k j : nat)
  : result (list (option (gset nat))) :=
  let* s := get_set ns k in
  let* t := get_set ns j in
  Ok (<[k := Some (s ∪ t)]> ns).

(** The body of [for nneigh in neighs[min_neigh]:] *)
Definition relink (serp min_neigh : nat) (nneigh : nat)
    (ns : list (option (gset nat))) : result (list (option (gset nat))) :=
  let* ns := set_remove ns nneigh min_neigh in
  set_add ns nneigh serp.

(** ** One trial *)

Section Trial.

Variables U V : list Q.
Variables threshold minthreshold : Q.
Variable rnd : draws.
Variable start : nat.

(** The sum of [U] over a region, with the shortcut of the source for
    regions of one pixel. *)
Definition region_sum (W : list Q) (p : list nat) : result Q :=
  match p with
  | [x] => getitem W x
  | _ => let* xs := take_items W p in Ok (Qsum xs)
  end.

(** [thresh or minthresh] *)
Definition merge_predicate (a b : Q) : bool :=
  (Qltb a threshold && Qltb b threshold)
  || (Qltb a minthreshold || Qltb b minthreshold).

(** The body of [if thresh or minthresh:] once [min_neigh] is chosen.
    The loop over [neighs[min_neigh]] runs over the elements the set
    has when the loop starts; the slots it updates are other sets as
    long as no region is its own neighbour. *)
Definition merge (serp min_neigh : nat) (st : serpentines) : result serpentines :=
  let* ps := getitem (pixels st) serp in
  let* pn := getitem (pixels st) min_neigh in
  match ps, pn with
  | Some ps, Some pn =>
      let px := <[serp := Some (ps ++ pn)]> (pixels st) in
      let* ns := set_remove (neighs st) serp min_neigh in
      let* ns := set_remove ns min_neigh serp in
      let* ns := set_update ns serp min_neigh in
      let* m := get_set ns min_neigh in
      let* ns := for_each (relink serp min_neigh) (elements m) ns in
      Ok {| pixels := <[min_neigh := None]> px;
            neighs := <[min_neigh := None]> ns;
            merges := S (merges st) |}
  | _, _ => Raise NoneError
  end.

(** The body of [for serp in permutation].  The counter [tot] is only
    printed and is left out. *)
Definition visit (serp : nat) (st : serpentines) : result serpentines :=
  let* p := getitem (pixels st) serp in
  match p with
  | None => Ok st
  | Some ps =>
      let* a := region_sum U ps in
      let* b := region_sum V ps in
      if merge_predicate a b then
        let* s := get_set (neighs st) serp in
        let* min_neigh := choice (randbelow rnd (merges st)) (elements s) in
        merge serp min_neigh st
      else Ok st
  end.

(** One pass over all regions in the drawn order. *)
Definition pass (i : nat) (st : serpentines) : result serpentines :=
  for_each visit (permutation rnd i) st.

(** [percent = 100 * float(tot) / start] *)
Definition print_iteration : result unit :=
  if decide (start = 0) then Raise ZeroDivisionError else Ok ().

(** [while current_existent != previous_existent:], with fuel: [None]
    means that the fuel did not suffice. *)
Fixpoint merger (fuel i previous_existent current_existent : nat)
    (st : serpentines) : option (result serpentines) :=
  if decide (current_existent = previous_existent) then Some (Ok st)
  else
    match fuel with
    | 0 => None
    | S fuel' =>
        match (print_iteration;; pass i st) with
        | Raise e => Some (Raise e)
        | Ok st' =>
            merger fuel' (S i) current_existent
                   (count_existent (pixels st')) st'
        end
    end.

(** [U[serp] = np.sum(U[serp]) * 1. / len(serp)] *)
Definition fill (W : list Q) (serp : list nat) : result (list Q) :=
  let* xs := take_items W serp in
  Ok (put_items W serp (Qsum xs * 1 / inject_Z (Z.of_nat (length serp)))%Q).

(** [for serp in pix:] *)
Definition mean_fill (pix : list (list nat)) (UV : list Q * list Q)
  : result (list Q * list Q) :=
  for_each (λ serp UV,
              let* U' := fill UV.1 serp in
              let* V' := fill UV.2 serp in
              Ok (U', V'))
           pix UV.

End Trial.

(** ** Two-dimensional arrays *)

(** The array of shape [(h, w)] whose entry [(i, j)] is [f i j]. *)
Definition matrix_of {X : Type} (h w : nat) (f : nat → nat → X) : ndarray X :=
  NdArray [h; w] (map (λ p : nat * nat, f p.1 p.2) (product (range h) (range w))).

(** [M[i, j]], with [d] where the array has no such entry. *)
Definition item {X : Type} (d : X) (M : ndarray X) (i j : nat) : X :=
  match shape M with
  | [_; w] => default d (data M !! (i * w + j))
  | _ => d
  end.

(** [W.reshape((size0, size1))] *)
Definition reshape {X : Type} (size0 size1 : nat) (W : list X) : ndarray X :=
  NdArray [size0; size1] W.

(** [np.tril] *)
Definition tril (M : ndarray Q) : ndarray Q :=
  match shape M with
  | [h; w] => matrix_of h w (λ i j, if decide (j ≤ i) then item 0%Q M i j else 0%Q)
  | _ => M
  end.

(** [np.transpose] *)
Definition transpose (M : ndarray Q) : ndarray Q :=
  match shape M with
  | [h; w] => matrix_of w h (λ i j, item 0%Q M j i)
  | _ => M
  end.

(** [np.diag(np.diag(M))] *)
Definition diag_diag (M : ndarray Q) : ndarray Q :=
  match shape M with
  | [h; w] =>
      matrix_of (h `min` w) (h `min` w)
                (λ i j, if decide (i = j) then item 0%Q M i i else 0%Q)
  | _ => M
  end.

(** Entrywise [+] and [-] of arrays of one shape. *)
Definition madd (M N : ndarray Q) : ndarray Q :=
  NdArray (shape M) (zip_with Qplus (data M) (data N)).
Definition msub (M N : ndarray Q) : ndarray Q :=
  NdArray (shape M) (zip_with Qminus (data M) (data N)).

(** [tril(W) + transpose(tril(W)) - diag(diag(tril(W)))] *)
Definition symmetrize (W : ndarray Q) : ndarray Q :=
  msub (madd (tril W) (transpose (tril W))) (diag_diag (tril W)).

(** The ratio matrix of the triangular mode: zero, except on
    [np.tril_indices(n)] where it is [log2(V * 1. / U)]. *)
Definition log_ratio_triangular (Um Vm Bmod : ndarray Q) : ndarray (ieee R) :=
  let n := Nat.sqrt (length (data Bmod)) in
  match shape Bmod with
  | [h; w] =>
      matrix_of h w
        (λ i j, if decide (j ≤ i ∧ i < n)
                then log2 (fdiv (item 0%Q Vm i j * 1) (item 0%Q Um i j))
                else Fin 0%R)
  | _ => NdArray (shape Bmod) []
  end.

(** [np.log2(V * 1. / U)] *)
Definition log_ratio (Um Vm : ndarray Q) : ndarray (ieee R) :=
  NdArray (shape Vm) (zip_with (λ v u, log2 (fdiv (v * 1) u)) (data Vm) (data Um)).

Definition trial_output : Type := ndarray Q * ndarray Q * ndarray (ieee R).

(** The last lines of [serpentin_iteration], from the reshape on. *)
Definition outputs (triangular : bool) (size0 size1 : nat) (U V : list Q)
  : trial_output :=
  let Um := reshape size0 size1 U in
  let Vm := reshape size0 size1 V in
  if triangular then
    let Amod := symmetrize Um in
    let Bmod := symmetrize Vm in
    (Amod, Bmod, log_ratio_triangular Um Vm Bmod)
  else (Um, Vm, log_ratio Um Vm).

(** Validation at the head of both entry points. *)
Definition validate (A B : ndarray Q) (threshold minthreshold : Q)
    (triangular : bool) : result (nat * nat) :=
  let* size := check_shape triangular (shape A) (shape B) in
  check_threshold threshold minthreshold;;
  Ok size.

(** The number of passes is bounded by the number of regions plus two,
    which is the fuel given to the loop (see [merger_enough_fuel]). *)
Definition serpentin_iteration (A B : ndarray Q) (threshold minthreshold : Q)
    (triangular : bool) (rnd : draws) : option (result trial_output) :=
  match validate A B threshold minthreshold triangular with
  | Raise e => Some (Raise e)
  | Ok (size0, size1) =>
      let U := data A in
      let V := data B in
      let start := initial_start triangular size0 size1 in
      match merger U V threshold minthreshold rnd start (start + 2) 0 0 1
                   (initial_state triangular size0 size1) with
      | None => None
      | Some (Raise e) => Some (Raise e)
      | Some (Ok st) =>
          Some (print_iteration start;;
                let* UV := mean_fill (existent (pixels st)) (U, V) in
                Ok (outputs triangular size0 size1 UV.1 UV.2))
      end
  end.

(** ** The driver *)

(** [x + y] on floats *)
Definition fadd (x y : ieee R) : ieee R :=
  match x, y with
  | NaN, _ | _, NaN => NaN
  | PosInf, NegInf | NegInf, PosInf => NaN
  | PosInf, _ | _, PosInf => PosInf
  | NegInf, _ | _, NegInf => NegInf
  | Fin a, Fin b => Fin (a + b)%R
  end.

(** [x * 1. / n] for a float [x] and an integer [n] *)
Definition fdiv_int (x : ieee R) (n : Z) : ieee R :=
  match x with
  | Fin r =>
      if decide (n = 0%Z) then
        if Req_dec_T r 0 then NaN
        else if Rlt_dec 0 r then PosInf else NegInf
      else Fin (r * 1 / IZR n)%R
  | PosInf => if decide (0 ≤ n)%Z then PosInf else NegInf
  | NegInf => if decide (0 ≤ n)%Z then NegInf else PosInf
  | NaN => NaN
  end.

(** [np.zeros_like(A)] *)
Definition zeros_like {X Y : Type} (zero : Y) (A : ndarray X) : ndarray Y :=
  NdArray (shape A) (replicate (length (data A)) zero).

(** The accumulators [(sK, sA, sB)]. *)
Definition sums : Type := ndarray (ieee R) * ndarray Q * ndarray Q.

(** [sK = np.zeros_like(A); sA = np.zeros_like(A); sB = np.zeros_like(A)] *)
Definition zero_sums (A : ndarray Q) : sums :=
  (zeros_like (Fin 0%R) A, zeros_like 0%Q A, zeros_like 0%Q A).

(** [sK = sK + Kt; sA = sA + At; sB = sB + Bt] *)
Definition accumulate (s : sums) (r : trial_output) : sums :=
  let '(sK, sA, sB) := s in
  let '(At, Bt, Kt) := r in
  (NdArray (shape sK) (zip_with fadd (data sK) (data Kt)), madd sA At, madd sB Bt).

Definition run_output : Type := ndarray (ieee Q) * ndarray (ieee Q) * ndarray (ieee R).

Section Driver.

Variables A B : ndarray Q.
Variables threshold minthreshold : Q.
Variable triangular : bool.
(** The draws of the trials: trial [x] uses [rnds x]. *)
Variable rnds : nat → draws.

(** [p.map(_serpentin_iteration_mp, iterator)]: all trials are run,
    the results come back in order, and an exception of a trial is
    raised again by [map]. *)
Fixpoint pool_map (xs : list nat) : option (result (list trial_output)) :=
  match xs with
  | [] => Some (Ok [])
  | x :: xs' =>
      match serpentin_iteration A B threshold minthreshold triangular (rnds x) with
      | None => None
      | Some (Raise e) => Some (Raise e)
      | Some (Ok r) =>
          match pool_map xs' with
          | None => None
          | Some (Raise e) => Some (Raise e)
          | Some (Ok rs) => Some (Ok (r :: rs))
          end
      end
  end.

(** [for _ in range(iterations):] of the sequential branch *)
Fixpoint sequential (xs : list nat) (s : sums) : option (result sums) :=
  match xs with
  | [] => Some (Ok s)
  | x :: xs' =>
      match serpentin_iteration A B threshold minthreshold triangular (rnds x) with
      | None => None
      | Some (Raise e) => Some (Raise e)
      | Some (Ok r) => sequential xs' (accumulate s r)
      end
  end.

(** The three divisions by [iterations] *)
Definition average (s : sums) (iterations : Z) : run_output :=
  let '(sK, sA, sB) := s in
  (NdArray (shape sA) (map (λ x, fdiv (x * 1) (inject_Z iterations)) (data sA)),
   NdArray (shape sB) (map (λ x, fdiv (x * 1) (inject_Z iterations)) (data sB)),
   NdArray (shape sK) (map (λ x, fdiv_int x iterations) (data sK))).

(** [iterations] is the value of [int(iterations)]; [range(iterations)]
    is empty when it is not positive. *)
Definition serpentin_binning (iterations parallel : Z)
  : option (result run_output) :=
  match validate A B threshold minthreshold triangular with
  | Raise e => Some (Raise e)
  | Ok _ =>
      let s0 := zero_sums A in
      let xs := range (Z.to_nat iterations) in
      let summed :=
        if decide (1 < parallel)%Z then
          match pool_map xs with
          | None => None
          | Some (Raise e) => Some (Raise e)
          | Some (Ok res) => Some (Ok (foldl accumulate s0 res))
          end
        else sequential xs s0 in
      match summed with
      | None => None
      | Some (Raise e) => Some (Raise e)
      | Some (Ok s) => Some (Ok (average s iterations))
      end
  end.

End Driver.

(** ** Loading a matrix from a file

    [fromupdiag] reads the upper triangle, diagonal included, of a
    square matrix, one row per line, each line starting with a label.
    The file is given by the fields ([str.split]) of its first line and
    of each further line.  A field is a number, or text that the
    conversion to [float] rejects; the fields [nan] and [inf] are left
    out. *)

Inductive field : Type :=
| Number (q : Q)
| Text.

Inductive load_exn : Type :=
| IndexError_pop     (* pop from empty list *)
| IndexError_row     (* index is out of bounds for axis 0 *)
| ValueError_assign. (* could not convert string to float, or could not
                        broadcast input array *)

(** The values of the fields of a line, if all are numbers. *)
Fixpoint numbers (data : list field) : option (list Q) :=
  match data with
  | [] => Some []
  | Number q :: data' => cons q <$> numbers data'
  | Text :: _ => None
  end.

(** [result[count, count:total] = data] on the flattened
    [total x total] array: the row index is checked first; the values
    must be as many as the slice is long, or one value, which is then
    written to the whole slice. *)
Definition assign_row (total count : nat) (res : list Q) (data : list field)
  : load_exn + list Q :=
  if decide (total ≤ count) then inl IndexError_row
  else
    match numbers data with
    | None => inl ValueError_assign
    | Some vs =>
        if decide (length vs = total - count) then
          inr (list_inserts (count * total + count) vs res)
        else
          match vs with
          | [v] => inr (list_inserts (count * total + count)
                                     (replicate (total - count) v) res)
          | _ => inl ValueError_assign
          end
    end.

(** [for line in f:], with [data.pop(0)] and [count += 1] *)
Fixpoint read_rows (total count : nat) (res : list Q) (lines : list (list field))
  : load_exn + list Q :=
  match lines with
  | [] => inr res
  | line :: lines' =>
      match line with
      | [] => inl IndexError_pop
      | _ :: data =>
          match assign_row total count res data with
          | inl e => inl e
          | inr res' => read_rows total (S count) res' lines'
          end
      end
  end.

(** [M + np.transpose(M) - np.diag(np.diag(M))] *)
Definition mirror (M : ndarray Q) : ndarray Q :=
  msub (madd M (transpose M)) (diag_diag M).

Definition fromupdiag (header : list field) (lines : list (list field))
  : load_exn + ndarray Q :=
  match header with
  | [] => inl IndexError_pop
  | _ :: names =>
      let total := length names in
      match read_rows total 0 (replicate (total * total) 0%Q) lines with
      | inl e => inl e
      | inr res => inr (mirror (NdArray [total; total] res))
      end
  end.

(** ** Filtering a matrix

    The index [flt] of [fltmatr] is a boolean mask, as
    [outstanding_filter] returns it, or an array of integers, where a
    negative integer counts from the end of the axis. *)

Inductive index : Type :=
| Mask (m : list bool)
| Take (idx : list Z).

(** The positions of [True] in a mask, counted from [i]. *)
Fixpoint mask_positions (m : list bool) (i : nat) : list nat :=
  match m with
  | [] => []
  | b :: m' => (if b then [i] else []) ++ mask_positions m' (S i)
  end.

(** The position that an integer index selects on an axis of length
    [n]. *)
Definition take_position (n : nat) (z : Z) : result nat :=
  if decide (0 ≤ z < Z.of_nat n)%Z then Ok (Z.to_nat z)
  else if decide (- Z.of_nat n ≤ z < 0)%Z then Ok (Z.to_nat (z + Z.of_nat n))
  else Raise IndexError_bounds.

Fixpoint take_positions (n : nat) (idx : list Z) : result (list nat) :=
  match idx with
  | [] => Ok []
  | z :: idx' =>
      let* p := take_position n z in
      let* ps := take_positions n idx' in
      Ok (p :: ps)
  end.

(** The positions that [flt] selects on an axis of length [n]; a mask
    must have the length of the axis. *)
Definition positions (flt : index) (n : nat) : result (list nat) :=
  match flt with
  | Mask m =>
      if decide (length m = n) then Ok (mask_positions m 0)
      else Raise IndexError_bounds
  | Take idx => take_positions n idx
  end.

(** [X = X[flt, :]] followed by [X = X[:, flt]] on a copy of [X]: the
    first two axes are indexed, the entries along the further axes are
    kept in blocks.  An array of fewer than two dimensions has too many
    indices. *)
Definition fltmatr {X : Type} (M : ndarray X) (flt : index) : result (ndarray X) :=
  match shape M with
  | h :: w :: rest =>
      let block := foldr Nat.mul 1 rest in
      let* rows := positions flt h in
      let* cols := positions flt w in
      Ok (NdArray (length rows :: length cols :: rest)
            (flat_map (λ i,
               flat_map (λ j, take block (drop ((i * w + j) * block) (data M)))
                        cols)
               rows))
  | _ => Raise IndexError_bounds
  end.

(** ** Median absolute deviation

    [mad] is modelled for its default [axis=None], as all calls in the
    file use it: the data are the flattened array, here of finite
    values. *)

Fixpoint insert_sorted (x : Q) (l : list Q) : list Q :=
  match l with
  | [] => [x]
  | y :: l' => if Qle_bool x y then x :: l else y :: insert_sorted x l'
  end.

(** The values in ascending order. *)
Definition sorted (l : list Q) : list Q := foldr insert_sorted [] l.

(** [np.median]: the middle value of the sorted data, the mean of the
    two middle values when their number is even, and [nan] when there
    are none. *)
Definition median (l : list Q) : ieee Q :=
  let s := sorted l in
  let n := length l in
  if decide (n = 0) then NaN
  else if Nat.even n then
    Fin ((default 0 (s !! (n / 2 - 1)%nat) + default 0 (s !! (n / 2)%nat)) / 2)%Q
  else Fin (default 0%Q (s !! (n / 2))).

(** [np.median(np.absolute(data - np.median(data)))] *)
Definition mad (data : list Q) : ieee Q :=
  match median data with
  | Fin m => median (map (λ x, Qabs (x - m)) data)
  | _ => NaN
  end.

(** * Vocabulary of the statements *)

(** ** Regions and the graph *)

(** The pixels of a slot of [pixels], none for [None]. *)
Definition members (o : option (list nat)) : list nat := default [] o.

(** What a slot of [pixels] adds to the number of regions. *)
Definition exists01 (o : option (list nat)) : nat :=
  match o with Some _ => 1 | None => 0 end.

(** Region [k] exists and its pixels are [ps]. *)
Definition alive (st : serpentines) (k : nat) (ps : list nat) : Prop :=
  pixels st !! k = Some (Some ps).

(** The invariant of the graph: the two lists have one slot per region; a region is [None] in both
    or in neither; neighbours exist, differ from the region, and the
    relation is symmetric. *)
Record graph_inv (st : serpentines) : Prop := GraphInv {
  inv_length : length (neighs st) = length (pixels st);
  inv_exists : ∀ k, pixels st !! k = Some None ↔ neighs st !! k = Some None;
  inv_neigh : ∀ k s j,
    neighs st !! k = Some (Some s) → j ∈ s →
    j ≠ k ∧ ∃ t, neighs st !! j = Some (Some t) ∧ k ∈ t
}.

(** What a merge of [mn] into [serp] does to the graph. *)
Record merged (st : serpentines) (serp mn : nat) (ps pn : list nat)
    (s t : gset nat) (st' : serpentines) : Prop := Merged {
  mg_serp_pixels : pixels st !! serp = Some (Some ps);
  mg_mn_pixels : pixels st !! mn = Some (Some pn);
  mg_serp_neighs : neighs st !! serp = Some (Some s);
  mg_mn_neighs : neighs st !! mn = Some (Some t);
  mg_ne : mn ≠ serp;
  mg_mn_in : mn ∈ s;
  mg_serp_in : serp ∈ t;
  mg_pixels : pixels st' = <[mn := None]> (<[serp := Some (ps ++ pn)]> (pixels st));
  mg_merges : merges st' = S (merges st);
  mg_length : length (neighs st') = length (neighs st);
  mg_at_mn : neighs st' !! mn = Some None;
  mg_at_serp : neighs st' !! serp = Some (Some ((s ∖ {[mn]}) ∪ (t ∖ {[serp]})));
  mg_at_linked : ∀ k u,
    k ≠ serp → k ≠ mn → k ∈ t → neighs st !! k = Some (Some u) →
    neighs st' !! k = Some (Some (u ∖ {[mn]} ∪ {[serp]}));
  mg_at_other : ∀ k,
    k ≠ serp → k ≠ mn → k ∉ t → neighs st' !! k = neighs st !! k
}.

(** The graph of singleton regions over the cells [cells], in the order
    of the comprehension: [pix] is the pixel and [idx] the region index
    of a cell, [nb] gives the neighbours of a cell. *)
Definition graph_of_cells (cells : list (nat * nat)) (pix idx : nat * nat → nat)
    (nb : nat * nat → list (nat * nat)) : serpentines :=
  {| pixels := map (λ p, Some [pix p]) cells;
     neighs := map (λ p, Some (list_to_set (map idx (nb p)))) cells;
     merges := 0 |}.

(** ** The pixel universe and the states of a trial *)

(** The cells of the matrix that take part in the binning, and the
    index of a cell in the flattened matrices. *)
Definition in_universe (triangular : bool) (size0 size1 row col : nat) : Prop :=
  row < size0 ∧ if triangular then col ≤ row else col < size1.

Definition pixel_id (triangular : bool) (size0 size1 row col : nat) : nat :=
  if triangular then row * size0 + col else row * size1 + col.

(** The pixels of the universe, in the order of the regions. *)
Definition pixel_universe (triangular : bool) (size0 size1 : nat) : list nat :=
  if triangular then map (λ p : nat * nat, p.1 * size0 + p.2) (lower_pairs size0)
  else map (λ p : nat * nat, p.1 * size1 + p.2) (product (range size0) (range size1)).

(** The states a trial goes through: the initial graph, and the state
    after each visit of a region. *)
Inductive reachable (U V : list Q) (threshold minthreshold : Q) (rnd : draws)
    (triangular : bool) (size0 size1 : nat) : serpentines → Prop :=
| reachable_initial :
    reachable U V threshold minthreshold rnd triangular size0 size1
              (initial_state triangular size0 size1)
| reachable_visit (serp : nat) (st st' : serpentines) :
    reachable U V threshold minthreshold rnd triangular size0 size1 st →
    visit U V threshold minthreshold rnd serp st = Ok st' →
    reachable U V threshold minthreshold rnd triangular size0 size1 st'.

(** Every pixel of the universe is in exactly one existing region, all
    pixels of a region are in the universe, and none occurs twice. *)
Definition exact_cover (universe : list nat) (st : serpentines) : Prop :=
  (∀ p, p ∈ universe →
        ∃ k ps, alive st k ps ∧ p ∈ ps
                ∧ ∀ k' ps', alive st k' ps' → p ∈ ps' → k' = k)
  ∧ (∀ k ps p, alive st k ps → p ∈ ps → p ∈ universe)
  ∧ (∀ k ps, alive st k ps → NoDup ps).

(** What holds in every state of a trial: the graph invariant, the
    regions are a rearrangement of the universe, no slot is added or
    removed, and every merge has removed one region. *)
Record trial_inv (triangular : bool) (size0 size1 : nat) (st : serpentines)
  : Prop := TrialInv {
  ti_graph : graph_inv st;
  ti_partition :
    concat (existent (pixels st)) ≡ₚ pixel_universe triangular size0 size1;
  ti_length : length (pixels st) = initial_start triangular size0 size1;
  ti_merges :
    merges st + count_existent (pixels st) = initial_start triangular size0 size1
}.

(** ** Example inputs *)

(** The matrix of shape [(h, w)] with every entry [x]. *)
Definition constant_matrix (h w : nat) (x : Q) : ndarray Q :=
  NdArray [h; w] (replicate (h * w) x).

(** Draws that visit the regions in the order [order] in every pass and
    always choose the first neighbour. *)
Definition fixed_draws (order : list nat) : draws :=
  Draws (λ _, order) (λ _, 0).

(** The flattened 4 x 4 matrix of ones. *)
Definition ones16 : list Q := replicate 16 1%Q.

(** ** Sums and entries of matrices *)

(** The lower triangle of [W], zero above the diagonal. *)
Definition lower (n : nat) (W : list Q) (i j : nat) : Q :=
  if decide (j ≤ i) then item 0%Q (reshape n n W) i j else 0%Q.

(** The sum of the entries of [W] at the indices [idx]. *)
Definition sum_at (W : list Q) (idx : list nat) : Q :=
  Qsum (map (λ p, default 0%Q (W !! p)) idx).

(** The mean of a region, as [fill] computes it. *)
Definition region_mean (W : list Q) (serp : list nat) : Q :=
  (Qsum (map (λ p, default 0%Q (W !! p)) serp) * 1
   / inject_Z (Z.of_nat (length serp)))%Q.

(** The sum of a square matrix over the positions with [row >= col]. *)
Definition lower_sum (n : nat) (M : ndarray Q) : Q :=
  Qsum (map (λ p : nat * nat, item 0%Q M p.1 p.2) (lower_pairs n)).

(** [W'] has the entries of [W] at the indices [idx]. *)
Definition agree_on (idx : list nat) (W W' : list Q) : Prop :=
  ∀ p, p ∈ idx → W' !! p = W !! p.

(** ** Adjacent regions *)

(** Whenever a pixel of one existing region is adjacent to a pixel of
    another one, the second region is in the neighbour set of the
    first; and no existing region is empty. *)
Definition adj_complete (adj : nat → nat → Prop) (st : serpentines) : Prop :=
  (∀ k ps, alive st k ps → ps ≠ [])
  ∧ ∀ k k' ps ps' p q,
      alive st k ps → alive st k' ps' → k ≠ k' →
      p ∈ ps → q ∈ ps' → adj p q →
      ∃ s, neighs st !! k = Some (Some s) ∧ k' ∈ s.

(** Adjacency of pixels, read off the neighbour function of the cells. *)
Definition cells_adj (cells : list (nat * nat)) (pix : nat * nat → nat)
    (nb : nat * nat → list (nat * nat)) (p q : nat) : Prop :=
  ∃ c c', c ∈ cells ∧ c' ∈ cells ∧ p = pix c ∧ q = pix c' ∧ c' ∈ nb c.

(** Adjacency in the full grid of shape [(h, w)]. *)
Definition grid_adj (h w : nat) : nat → nat → Prop :=
  cells_adj (product (range h) (range w)) (λ c, c.1 * w + c.2)
            (λ c, pixel_neighs c.1 c.2 h w).

(** Consecutive entries of [l] are related by [R]. *)
Fixpoint chain (R : nat → nat → Prop) (l : list nat) : Prop :=
  match l with
  | x :: (y :: _) as l' => R x y ∧ chain R l'
  | _ => True
  end.

(** A path through the 4 x 4 grid, row by row, alternately left to
    right and right to left. *)
Definition snake_4x4 : list nat :=
  [0; 1; 2; 3; 7; 6; 5; 4; 8; 9; 10; 11; 15; 14; 13; 12].

(** What holds in every state of a trial on the full grid. *)
Definition safe_inv (h w : nat) (st : serpentines) : Prop :=
  trial_inv false h w st ∧ adj_complete (grid_adj h w) st.

(** ** Outcomes of a trial *)

(** The visited region [serp] of [st] satisfies the merge predicate and
    has no neighbour. *)
Definition stuck (U V : list Q) (threshold minthreshold : Q)
    (st : serpentines) (serp : nat) : Prop :=
  ∃ ps a b,
    alive st serp ps
    ∧ region_sum U ps = Ok a ∧ region_sum V ps = Ok b
    ∧ merge_predicate threshold minthreshold a b = true
    ∧ neighs st !! serp = Some (Some ∅).

(** Adjacency of the pixels that take part in the binning. *)
Definition universe_adj (triangular : bool) (size0 size1 : nat) : nat → nat → Prop :=
  if triangular then
    cells_adj (lower_pairs size0) (λ c, c.1 * size0 + c.2)
              (λ c, pixel_neighs_triangular c.1 c.2 size0)
  else grid_adj size0 size1.

(** Every neighbour of a region touches it. *)
Definition adj_sound (adj : nat → nat → Prop) (st : serpentines) : Prop :=
  ∀ k s j, neighs st !! k = Some (Some s) → j ∈ s →
    ∃ ps ps' p q, alive st k ps ∧ alive st j ps' ∧ p ∈ ps ∧ q ∈ ps' ∧ adj p q.

(** Any two pixels of [ps] are joined by a path of adjacent pixels
    that stays in [ps]. *)
Definition connected (adj : nat → nat → Prop) (ps : list nat) : Prop :=
  ∀ p q, p ∈ ps → q ∈ ps → rtc (λ x y, adj x y ∧ y ∈ ps) p q.

(** ** Sums over the trials of a run *)

(** The sum over the trial results [outs] of the entry [p] of the
    matrix selected by [sel]. *)
Definition trial_sum (sel : trial_output → ndarray Q) (outs : list trial_output)
    (p : nat) : Q :=
  Qsum (map (λ r, default 0%Q (data (sel r) !! p)) outs).

(** ** Validation *)

(** What the assertions on the shapes ask for. *)
Definition shapes_accepted (triangular : bool) (sa sb : list nat) : Prop :=
  sa = sb ∧ length sa = 2 ∧ (triangular = true → min_list sa = max_list sa).

(** ** Entries that every number type holds exactly

    The model adds and compares exact rationals.  The code computes in
    the number type of the input, where sums of integers wrap around or
    are rounded once they are large, and it casts to [float32] before
    the means are written.  The two predicates name inputs for which
    the code computes the same numbers as the model. *)

(** [q] is an integer. *)
Definition is_integer (q : Q) : bool := Qeq_bool q (inject_Z (Qfloor q)).

(** [q] is an integer of absolute value at most [2 ^ 24]: a number
    that [float32] holds exactly. *)
Definition float32_integer (q : Q) : bool :=
  is_integer q && (Z.abs (Qfloor q) <=? 2 ^ 24)%Z.

(** The entries of [W] at the pixels [idx] are integers whose absolute
    values add up to at most [2 ^ 11]: every sum of some of them is
    held exactly by every integer and float type, [float16] included. *)
Definition exact_sums (W : list Q) (idx : list nat) : bool :=
  forallb (λ p, is_integer (default 0%Q (W !! p))) idx
  && Qle_bool (Qsum (map (λ p, Qabs (default 0%Q (W !! p))) idx)) (2 ^ 11).

(** ** Files of upper triangles *)

(** The number at column [j] of row [i] of the file: the field
    [j - i] after the label of line [i]; zero when the file has no such
    line. *)
Definition file_entry (lines : list (list field)) (i j : nat) : Q :=
  match lines !! i with
  | Some (_ :: data) =>
      match data !! (j - i) with
      | Some (Number q) => q
      | _ => 0%Q
      end
  | _ => 0%Q
  end.

(** Line [i] of the file is a label followed by [total - i] numbers, and
    there are at most [total] lines. *)
Definition upper_triangle_file (total : nat) (lines : list (list field)) : Prop :=
  length lines ≤ total
  ∧ ∀ i line, lines !! i = Some line →
      ∃ label vs, line = label :: map Number vs ∧ length vs = total - i.

(** ** Values up to equality of rationals *)

(** Two floats are the same number, or the same special value. *)
Definition ieee_eq (x y : ieee Q) : Prop :=
  match x, y with
  | Fin a, Fin b => (a == b)%Q
  | PosInf, PosInf | NegInf, NegInf | NaN, NaN => True
  | _, _ => False
  end.

(** ** Results of the driver *)


(** * Verification *)

(** ** The error monad *)

Lemma bind_Ok {A B : Type} (m : result A) (k : A → result B) (b : B) :
  bind m k = Ok b → ∃ a, m = Ok a ∧ k a = Ok b.
Proof. destruct m as [a|e]; simpl; [eauto | discriminate]. Qed.

(** Splits a hypothesis [let* x := m in k = Ok b]. *)
Tactic Notation "inv_bind" hyp(H) "as" ident(a) ident(Ha) :=
  apply bind_Ok in H; destruct H as (a & Ha & H).

Lemma getitem_Ok {X : Type} (l : list X) (i : nat) (x : X) :
  getitem l i = Ok x ↔ l !! i = Some x.
Proof.
  unfold getitem. destruct (l !! i); split; intros H; congruence.
Qed.

Lemma get_set_Ok (ns : list (option (gset nat))) (k : nat) (s : gset nat) :
  get_set ns k = Ok s ↔ ns !! k = Some (Some s).
Proof.
  unfold get_set, getitem.
  destruct (ns !! k) as [[t|]|]; simpl; split; intros H; congruence.
Qed.

Lemma choice_Ok (r : nat) (t : list nat) (x : nat) :
  choice r t = Ok x → x ∈ t.
Proof.
  unfold choice. destruct (t !! (r mod length t)) as [y|] eqn:E; [|discriminate].
  intros [= <-]. eapply list_elem_of_lookup_2, E.
Qed.

Lemma choice_nil (r : nat) : choice r [] = Raise IndexError_choice.
Proof. unfold choice. by rewrite lookup_nil. Qed.

Lemma choice_nonempty (r : nat) (t : list nat) :
  t ≠ [] → ∃ x, choice r t = Ok x.
Proof.
  intros Ht. unfold choice.
  assert (Hlt : r mod length t < length t).
  { apply Nat.mod_upper_bound. destruct t; [done | simpl; lia]. }
  apply lookup_lt_is_Some_2 in Hlt as [x Hx]. rewrite Hx. eauto.
Qed.

Lemma for_each_app {S X : Type} (body : X → S → result S) (xs ys : list X) (s : S) :
  for_each body (xs ++ ys) s = (let* s' := for_each body xs s in for_each body ys s').
Proof.
  revert s. induction xs as [|x xs IH]; intros s; simpl; [done|].
  destruct (body x s); simpl; auto.
Qed.

(** ** Counting the regions that exist *)

Lemma existent_cons (o : option (list nat)) (px : list (option (list nat))) :
  existent (o :: px) = match o with Some p => p :: existent px | None => existent px end.
Proof. unfold existent. simpl. by destruct o. Qed.

Lemma concat_existent_cons (o : option (list nat)) (px : list (option (list nat))) :
  concat (existent (o :: px)) = members o ++ concat (existent px).
Proof. rewrite existent_cons. by destruct o. Qed.

Lemma count_existent_cons (o : option (list nat)) (px : list (option (list nat))) :
  count_existent (o :: px) = exists01 o + count_existent px.
Proof. unfold count_existent. rewrite existent_cons. by destruct o. Qed.

Lemma concat_existent_insert (px : list (option (list nat))) (k : nat)
    (x y : option (list nat)) :
  px !! k = Some x →
  concat (existent (<[k := y]> px)) ++ members x ≡ₚ concat (existent px) ++ members y.
Proof.
  revert k. induction px as [|o px IH]; intros k Hk; [done|].
  destruct k as [|k]; simpl in Hk.
  - injection Hk as ->. change (<[0 := y]> (x :: px)) with (y :: px).
    rewrite !concat_existent_cons.
    rewrite <-!(assoc_L (++)), (comm (++) (members x)).
    rewrite !(assoc_L (++)). f_equiv. apply Permutation_app_comm.
  - change (<[S k := y]> (o :: px)) with (o :: <[k := y]> px).
    rewrite !concat_existent_cons, <-!(assoc_L (++)). f_equiv. by apply IH.
Qed.

Lemma count_existent_insert (px : list (option (list nat))) (k : nat)
    (x y : option (list nat)) :
  px !! k = Some x →
  count_existent (<[k := y]> px) + exists01 x = count_existent px + exists01 y.
Proof.
  revert k. induction px as [|o px IH]; intros k Hk; [done|].
  destruct k as [|k]; simpl in Hk.
  - injection Hk as ->. change (<[0 := y]> (x :: px)) with (y :: px).
    rewrite !count_existent_cons. lia.
  - change (<[S k := y]> (o :: px)) with (o :: <[k := y]> px).
    rewrite !count_existent_cons. specialize (IH k Hk). lia.
Qed.

Lemma count_existent_le_length (px : list (option (list nat))) :
  count_existent px ≤ length px.
Proof.
  induction px as [|o px IH]; [done|].
  rewrite count_existent_cons. destruct o; simpl; lia.
Qed.

Lemma count_existent_pos (px : list (option (list nat))) (k : nat) (p : list nat) :
  px !! k = Some (Some p) → 0 < count_existent px.
Proof.
  revert k. induction px as [|o px IH]; intros k Hk; [done|].
  rewrite count_existent_cons. destruct k as [|k]; simpl in Hk.
  - injection Hk as ->. simpl. lia.
  - specialize (IH k Hk). lia.
Qed.

Lemma count_existent_two (px : list (option (list nat))) (k j : nat) (p q : list nat) :
  k ≠ j → px !! k = Some (Some p) → px !! j = Some (Some q) →
  2 ≤ count_existent px.
Proof.
  revert k j. induction px as [|o px IH]; intros k j Hne Hk Hj; [done|].
  rewrite count_existent_cons.
  destruct k as [|k], j as [|j]; simpl in Hk, Hj; try done.
  - injection Hk as ->. apply count_existent_pos in Hj. simpl. lia.
  - injection Hj as ->. apply count_existent_pos in Hk. simpl. lia.
  - assert (k ≠ j) by congruence. specialize (IH k j ltac:(done) Hk Hj). lia.
Qed.

(** ** The invariant of the region graph *)

Lemma graph_inv_pixels (st : serpentines) (k : nat) (s : gset nat) :
  graph_inv st → neighs st !! k = Some (Some s) →
  ∃ p, pixels st !! k = Some (Some p).
Proof.
  intros [Hlen Hex _] Hk.
  assert (Hlt : k < length (pixels st)).
  { rewrite <-Hlen. eapply lookup_lt_Some, Hk. }
  apply lookup_lt_is_Some_2 in Hlt as [[p|] Hp]; [eauto|].
  apply Hex in Hp. congruence.
Qed.

Lemma graph_inv_neighs (st : serpentines) (k : nat) (p : list nat) :
  graph_inv st → pixels st !! k = Some (Some p) →
  ∃ s, neighs st !! k = Some (Some s).
Proof.
  intros [Hlen Hex _] Hk.
  assert (Hlt : k < length (neighs st)).
  { rewrite Hlen. eapply lookup_lt_Some, Hk. }
  apply lookup_lt_is_Some_2 in Hlt as [[s|] Hs]; [eauto|].
  apply Hex in Hs. congruence.
Qed.

Lemma set_remove_eq (ns : list (option (gset nat))) (k x : nat) (s : gset nat) :
  ns !! k = Some (Some s) → x ∈ s →
  set_remove ns k x = Ok (<[k := Some (s ∖ {[x]})]> ns).
Proof.
  intros Hk Hx. unfold set_remove.
  apply get_set_Ok in Hk. rewrite Hk. simpl. by rewrite decide_True.
Qed.

Lemma set_add_eq (ns : list (option (gset nat))) (k x : nat) (s : gset nat) :
  ns !! k = Some (Some s) →
  set_add ns k x = Ok (<[k := Some (s ∪ {[x]})]> ns).
Proof.
  intros Hk. unfold set_add. apply get_set_Ok in Hk. by rewrite Hk.
Qed.

Lemma set_update_eq (ns : list (option (gset nat))) (k j : nat) (s t : gset nat) :
  ns !! k = Some (Some s) → ns !! j = Some (Some t) →
  set_update ns k j = Ok (<[k := Some (s ∪ t)]> ns).
Proof.
  intros Hk Hj. unfold set_update.
  apply get_set_Ok in Hk, Hj. by rewrite Hk, Hj.
Qed.

Lemma relink_spec (serp mn : nat) (l : list nat) (ns0 : list (option (gset nat))) :
  NoDup l →
  (∀ z, z ∈ l → ∃ u, ns0 !! z = Some (Some u) ∧ mn ∈ u) →
  ∃ ns',
    for_each (relink serp mn) l ns0 = Ok ns'
    ∧ length ns' = length ns0
    ∧ (∀ k, k ∉ l → ns' !! k = ns0 !! k)
    ∧ (∀ k u, k ∈ l → ns0 !! k = Some (Some u) →
               ns' !! k = Some (Some (u ∖ {[mn]} ∪ {[serp]}))).
Proof.
  intros Hnd. revert ns0.
  induction Hnd as [|z l Hz Hnd IH]; intros ns0 Hl.
  - exists ns0. split; [done|]. split; [done|].
    split; [done|]. intros k u Hk. set_solver.
  - destruct (Hl z) as (u & Hu & Hmn); [set_solver|].
    assert (Hlt : z < length ns0) by (eapply lookup_lt_Some, Hu).
    set (ns1 := <[z := Some (u ∖ {[mn]} ∪ {[serp]})]> ns0).
    assert (Hstep : relink serp mn z ns0 = Ok ns1).
    { unfold relink. rewrite (set_remove_eq _ _ _ u) by done. simpl.
      rewrite (set_add_eq _ _ _ (u ∖ {[mn]})).
      - unfold ns1. by rewrite list_insert_insert_eq.
      - by rewrite list_lookup_insert_eq. }
    destruct (IH ns1) as (ns' & Hrun & Hlen & Hout & Hin).
    { intros z' Hz'. destruct (Hl z') as (u' & Hu' & Hmn'); [set_solver|].
      exists u'. split; [|done]. unfold ns1.
      rewrite list_lookup_insert_ne; [done | set_solver]. }
    exists ns'. simpl. rewrite Hstep. simpl. split; [done|].
    split; [by rewrite Hlen; unfold ns1; rewrite length_insert|].
    split.
    + intros k Hk. rewrite Hout by set_solver.
      unfold ns1. rewrite list_lookup_insert_ne; [done | set_solver].
    + intros k u' Hk Hu'. destruct (decide (k = z)) as [->|Hne].
      * rewrite (Hout z Hz). unfold ns1.
        rewrite list_lookup_insert_eq by done. congruence.
      * apply Hin; [by apply elem_of_cons in Hk as [?|?] |]. unfold ns1.
        by rewrite list_lookup_insert_ne.
Qed.

Lemma merge_merged (st : serpentines) (serp mn : nat) (ps : list nat) (s : gset nat) :
  graph_inv st →
  pixels st !! serp = Some (Some ps) →
  neighs st !! serp = Some (Some s) →
  mn ∈ s →
  ∃ pn t st', merge serp mn st = Ok st' ∧ merged st serp mn ps pn s t st'.
Proof.
  intros Hinv Hps Hs Hmn.
  destruct (inv_neigh st Hinv serp s mn Hs Hmn) as (Hne & t & Ht & Hserp).
  destruct (graph_inv_pixels st mn t Hinv Ht) as (pn & Hpn).
  assert (Hlt_serp : serp < length (neighs st)) by (eapply lookup_lt_Some, Hs).
  assert (Hlt_mn : mn < length (neighs st)) by (eapply lookup_lt_Some, Ht).
  set (ns1 := <[serp := Some (s ∖ {[mn]})]> (neighs st)).
  set (ns2 := <[mn := Some (t ∖ {[serp]})]> ns1).
  set (ns3 := <[serp := Some ((s ∖ {[mn]}) ∪ (t ∖ {[serp]}))]> ns2).
  assert (H1 : set_remove (neighs st) serp mn = Ok ns1) by by apply set_remove_eq.
  assert (H2 : set_remove ns1 mn serp = Ok ns2).
  { apply set_remove_eq; [|done]. unfold ns1. by rewrite list_lookup_insert_ne. }
  assert (H3 : set_update ns2 serp mn = Ok ns3).
  { apply set_update_eq; unfold ns2, ns1.
    - rewrite list_lookup_insert_ne by done. by rewrite list_lookup_insert_eq.
    - rewrite list_lookup_insert_eq; [done | by rewrite length_insert]. }
  assert (H4 : get_set ns3 mn = Ok (t ∖ {[serp]})).
  { apply get_set_Ok. unfold ns3, ns2.
    rewrite list_lookup_insert_ne by done.
    rewrite list_lookup_insert_eq; [done | unfold ns1; by rewrite length_insert]. }
  assert (Hlinked : ∀ z, z ∈ t → z ≠ serp →
            z ≠ mn ∧ ∃ u, neighs st !! z = Some (Some u) ∧ mn ∈ u).
  { intros z Hz Hzs. destruct (inv_neigh st Hinv mn t z Ht Hz) as (? & u & ? & ?).
    eauto. }
  assert (Hns3 : ∀ z, z ≠ serp → z ≠ mn → ns3 !! z = neighs st !! z).
  { intros z ? ?. unfold ns3, ns2, ns1. by rewrite !list_lookup_insert_ne. }
  destruct (relink_spec serp mn (elements (t ∖ {[serp]})) ns3)
    as (ns4 & H5 & Hlen4 & Hout & Hin).
  { apply NoDup_elements. }
  { intros z Hz. apply elem_of_elements in Hz.
    destruct (Hlinked z) as (? & u & ? & ?); [set_solver.. |].
    exists u. split; [|done]. rewrite Hns3; [done | set_solver | done]. }
  exists pn, t.
  eexists. split.
  { unfold merge. apply getitem_Ok in Hps, Hpn. rewrite Hps, Hpn. simpl.
    apply getitem_Ok in Hps, Hpn.
    rewrite H1. simpl. rewrite H2. simpl. rewrite H3. simpl.
    rewrite H4. simpl. rewrite H5. simpl. reflexivity. }
  assert (Hlen3 : length ns3 = length (neighs st)).
  { unfold ns3, ns2, ns1. by rewrite !length_insert. }
  constructor; simpl; try done.
  - by rewrite length_insert, Hlen4.
  - rewrite list_lookup_insert_eq; [done | by rewrite Hlen4, Hlen3].
  - rewrite list_lookup_insert_ne by done.
    rewrite Hout by (rewrite elem_of_elements; set_solver).
    unfold ns3. rewrite list_lookup_insert_eq; [done|].
    unfold ns2, ns1. by rewrite !length_insert.
  - intros k u Hks Hkm Hkt Hu.
    rewrite list_lookup_insert_ne by done.
    apply Hin; [rewrite elem_of_elements; set_solver|].
    by rewrite Hns3.
  - intros k Hks Hkm Hkt.
    rewrite list_lookup_insert_ne by done.
    rewrite Hout by (rewrite elem_of_elements; set_solver).
    by apply Hns3.
Qed.

Lemma merged_graph_inv (st : serpentines) (serp mn : nat) (ps pn : list nat)
    (s t : gset nat) (st' : serpentines) :
  graph_inv st → merged st serp mn ps pn s t st' → graph_inv st'.
Proof.
  intros Hinv Hm.
  pose proof (inv_length st Hinv) as Hlen.
  assert (Hlt_serp : serp < length (pixels st)).
  { eapply lookup_lt_Some, (mg_serp_pixels _ _ _ _ _ _ _ _ Hm). }
  assert (Hlt_mn : mn < length (pixels st)).
  { eapply lookup_lt_Some, (mg_mn_pixels _ _ _ _ _ _ _ _ Hm). }
  destruct Hm as [Hps Hpn Hs Ht Hne Hmn Hserp Hpx _ Hlen' Hatmn Hatserp Hlinked Hother].
  (* the new neighbour set of a region other than the two merged ones *)
  assert (Hnew : ∀ k u, k ≠ serp → k ≠ mn → neighs st !! k = Some (Some u) →
            ∃ u', neighs st' !! k = Some (Some u')
                  ∧ (∀ j, j ≠ mn → j ∈ u → j ∈ u')
                  ∧ (∀ j, j ∈ u' → (j ∈ u ∧ j ≠ mn) ∨ (j = serp ∧ k ∈ t))
                  ∧ (k ∈ t → serp ∈ u')).
  { intros k u Hks Hkm Hu. destruct (decide (k ∈ t)) as [Hkt|Hkt].
    - exists (u ∖ {[mn]} ∪ {[serp]}). split; [by apply Hlinked|]. set_solver.
    - exists u. split; [by rewrite Hother|].
      assert (mn ∉ u).
      { intros Hin. destruct (inv_neigh st Hinv k u mn Hu Hin) as (_ & t' & Ht' & ?).
        congruence. }
      set_solver. }
  constructor.
  - rewrite Hlen', Hpx, !length_insert. done.
  - intros k. rewrite Hpx.
    destruct (decide (k = mn)) as [->|Hkm].
    { rewrite list_lookup_insert_eq by (by rewrite length_insert). by rewrite Hatmn. }
    rewrite list_lookup_insert_ne by done.
    destruct (decide (k = serp)) as [->|Hks].
    { rewrite list_lookup_insert_eq by done. rewrite Hatserp. split; congruence. }
    rewrite list_lookup_insert_ne by done.
    destruct (neighs st !! k) as [[u|]|] eqn:Hu.
    + destruct (Hnew k u Hks Hkm Hu) as (u' & -> & _).
      destruct (graph_inv_pixels st k u Hinv Hu) as (p & ->). split; congruence.
    + assert (Hkt : k ∉ t).
      { intros Hin. destruct (inv_neigh st Hinv mn t k Ht Hin) as (_ & t' & Ht' & ?).
        congruence. }
      rewrite Hother by done. apply (inv_exists st Hinv).
    + assert (Hge : length (neighs st) ≤ k) by by apply lookup_ge_None.
      rewrite (lookup_ge_None_2 (pixels st)) by lia.
      rewrite (lookup_ge_None_2 (neighs st')) by lia. done.
  - intros k s' j Hk Hj.
    destruct (decide (k = mn)) as [->|Hkm]; [congruence|].
    destruct (decide (k = serp)) as [->|Hks].
    + rewrite Hatserp in Hk. injection Hk as <-.
      assert (Hjs : j ≠ serp).
      { intros ->. apply elem_of_union in Hj as [Hj|Hj]; [|set_solver].
        apply elem_of_difference in Hj as [Hj _].
        by destruct (inv_neigh st Hinv serp s serp Hs Hj). }
      assert (Hjm : j ≠ mn).
      { intros ->. apply elem_of_union in Hj as [Hj|Hj]; [set_solver|].
        apply elem_of_difference in Hj as [Hj _].
        by destruct (inv_neigh st Hinv mn t mn Ht Hj). }
      split; [done|].
      apply elem_of_union in Hj as [Hj|Hj]; apply elem_of_difference in Hj as [Hj _].
      * destruct (inv_neigh st Hinv serp s j Hs Hj) as (_ & u & Hu & Hin).
        destruct (Hnew j u Hjs Hjm Hu) as (u' & Hu' & Hkeep & _).
        exists u'. split; [done|]. apply Hkeep; done.
      * destruct (inv_neigh st Hinv mn t j Ht Hj) as (_ & u & Hu & Hin).
        destruct (Hnew j u Hjs Hjm Hu) as (u' & Hu' & _ & _ & Hadd).
        exists u'. split; [done|]. by apply Hadd.
    + assert (Hlt : k < length (neighs st)).
      { rewrite <-Hlen'. eapply lookup_lt_Some, Hk. }
      apply lookup_lt_is_Some_2 in Hlt as [[u|] Hu].
      2:{ assert (Hkt : k ∉ t).
          { intros Hin. destruct (inv_neigh st Hinv mn t k Ht Hin) as (_ & t' & Ht' & ?).
            congruence. }
          rewrite Hother in Hk by done. congruence. }
      destruct (Hnew k u Hks Hkm Hu) as (u' & Hu' & Hkeep & Hfrom & Hadd).
      assert (u' = s') as -> by congruence.
      destruct (Hfrom j Hj) as [[Hju Hjm]|[-> Hkt]].
      * destruct (inv_neigh st Hinv k u j Hu Hju) as (Hjk & w & Hw & Hkw).
        split; [done|].
        destruct (decide (j = serp)) as [->|Hjs].
        -- exists ((s ∖ {[mn]}) ∪ (t ∖ {[serp]})). split; [done|].
           assert (w = s) as -> by congruence. set_solver.
        -- destruct (Hnew j w Hjs Hjm Hw) as (w' & Hw' & Hkeepw & _).
           exists w'. split; [done|]. by apply Hkeepw.
      * split; [done|].
        exists ((s ∖ {[mn]}) ∪ (t ∖ {[serp]})). split; [done|]. set_solver.
Qed.

(** ** One visit *)

Section Visit.

Variables U V : list Q.
Variables threshold minthreshold : Q.
Variable rnd : draws.

Abbreviation visit := (visit U V threshold minthreshold rnd).
Abbreviation merge_predicate := (merge_predicate threshold minthreshold).

(** Whatever the graph, a merge that returns has replaced two existing
    regions by one. *)
Lemma merge_Ok_pixels (serp mn : nat) (st st' : serpentines) :
  merge serp mn st = Ok st' →
  ∃ ps pn,
    pixels st !! serp = Some (Some ps)
    ∧ pixels st !! mn = Some (Some pn)
    ∧ pixels st' = <[mn := None]> (<[serp := Some (ps ++ pn)]> (pixels st))
    ∧ merges st' = S (merges st).
Proof.
  unfold merge. intros H.
  inv_bind H as ops Hps. apply getitem_Ok in Hps.
  inv_bind H as opn Hpn. apply getitem_Ok in Hpn.
  destruct ops as [ps|]; [|discriminate].
  destruct opn as [pn|]; [|discriminate].
  inv_bind H as ns1 H1. inv_bind H as ns2 H2. inv_bind H as ns3 H3.
  inv_bind H as m H4. inv_bind H as ns4 H5.
  injection H as <-. simpl. eauto 10.
Qed.

Lemma merge_Ok_count (serp mn : nat) (st st' : serpentines) :
  merge serp mn st = Ok st' →
  S (count_existent (pixels st')) = count_existent (pixels st)
  ∧ merges st' = S (merges st)
  ∧ length (pixels st') = length (pixels st)
  ∧ (∃ p, pixels st' !! serp = Some (Some p) ∨ serp = mn)
  ∧ (∀ k, pixels st !! k = Some None → pixels st' !! k = Some None).
Proof.
  intros H. apply merge_Ok_pixels in H as (ps & pn & Hps & Hpn & Hpx & Hm).
  assert (Hlt : serp < length (pixels st)) by (eapply lookup_lt_Some, Hps).
  assert (Hlt' : mn < length (pixels st)) by (eapply lookup_lt_Some, Hpn).
  pose proof (count_existent_insert (pixels st) serp _ (Some (ps ++ pn)) Hps) as H1.
  split; [|split; [done|split; [by rewrite Hpx, !length_insert|split]]].
  - destruct (decide (mn = serp)) as [->|Hne].
    + rewrite Hpx, list_insert_insert_eq.
      pose proof (count_existent_insert (pixels st) serp _ None Hps) as H2.
      simpl in *. lia.
    + assert (H2 : <[serp := Some (ps ++ pn)]> (pixels st) !! mn = Some (Some pn))
        by by rewrite list_lookup_insert_ne.
      apply (count_existent_insert _ _ _ None) in H2.
      rewrite Hpx. simpl in *. lia.
  - exists (ps ++ pn). destruct (decide (serp = mn)) as [->|Hne]; [by right|left].
    rewrite Hpx, list_lookup_insert_ne by done.
    by rewrite list_lookup_insert_eq.
  - intros k Hk. rewrite Hpx.
    assert (k ≠ serp) by congruence.
    destruct (decide (k = mn)) as [->|?].
    + rewrite list_lookup_insert_eq; [done | by rewrite length_insert].
    + by rewrite !list_lookup_insert_ne.
Qed.

(** A visit either leaves the state as it is or performs a merge. *)
Lemma visit_Ok (serp : nat) (st st' : serpentines) :
  visit serp st = Ok st' →
  st' = st
  ∨ ∃ ps a b s mn,
      pixels st !! serp = Some (Some ps)
      ∧ region_sum U ps = Ok a ∧ region_sum V ps = Ok b
      ∧ merge_predicate a b = true
      ∧ neighs st !! serp = Some (Some s)
      ∧ mn ∈ s
      ∧ merge serp mn st = Ok st'.
Proof.
  unfold visit. intros H.
  inv_bind H as ops Hps. apply getitem_Ok in Hps.
  destruct ops as [ps|]; [|left; congruence].
  inv_bind H as a Hsa. inv_bind H as b Hsb.
  destruct (merge_predicate a b) eqn:Hp; [|left; congruence].
  inv_bind H as s Hs. apply get_set_Ok in Hs.
  inv_bind H as mn Hmn. apply choice_Ok, elem_of_elements in Hmn.
  right. eauto 12.
Qed.

Lemma visit_graph_inv (serp : nat) (st st' : serpentines) :
  graph_inv st → visit serp st = Ok st' → graph_inv st'.
Proof.
  intros Hinv H. apply visit_Ok in H as [->|H]; [done|].
  destruct H as (ps & a & b & s & mn & Hps & _ & _ & _ & Hs & Hmn & Hm).
  destruct (merge_merged st serp mn ps s Hinv Hps Hs Hmn) as (pn & t & st2 & Hm2 & Hmg).
  assert (st2 = st') as -> by congruence.
  eapply merged_graph_inv; eauto.
Qed.

Lemma visit_count (serp : nat) (st st' : serpentines) :
  visit serp st = Ok st' →
  st' = st
  ∨ (S (count_existent (pixels st')) = count_existent (pixels st)
     ∧ merges st' = S (merges st)).
Proof.
  intros H. apply visit_Ok in H as [->|H]; [by left|right].
  destruct H as (ps & a & b & s & mn & _ & _ & _ & _ & _ & _ & Hm).
  apply merge_Ok_count in Hm. naive_solver.
Qed.

End Visit.

(** ** Lists built row by row *)

Lemma elem_of_flat_map {X Y : Type} (f : X → list Y) (l : list X) (y : Y) :
  y ∈ flat_map f l ↔ ∃ x, x ∈ l ∧ y ∈ f x.
Proof.
  rewrite list_elem_of_In, in_flat_map.
  split; intros (x & Hx & Hy); exists x; by rewrite ?list_elem_of_In in *.
Qed.

Lemma flat_map_ext_elem {X Y : Type} (f g : X → list Y) (l : list X) :
  (∀ x, x ∈ l → f x = g x) → flat_map f l = flat_map g l.
Proof.
  induction l as [|x l IH]; intros H; [done|]. simpl.
  rewrite H by apply list_elem_of_here. f_equal. apply IH.
  intros y Hy. apply H. by apply list_elem_of_further.
Qed.

Lemma filter_flat_map {X Y : Type} (P : Y → Prop) `{!∀ y, Decision (P y)}
    (f : X → list Y) (l : list X) :
  filter P (flat_map f l) = flat_map (λ x, filter P (f x)) l.
Proof.
  induction l as [|x l IH]; [done|]. simpl. by rewrite filter_app, IH.
Qed.

Lemma filter_all {X : Type} (P : X → Prop) `{!∀ x, Decision (P x)} (l : list X) :
  Forall P l → filter P l = l.
Proof.
  induction 1 as [|x l Hx _ IH]; [done|]. by rewrite filter_cons_True, IH.
Qed.

Lemma filter_none {X : Type} (P : X → Prop) `{!∀ x, Decision (P x)} (l : list X) :
  Forall (λ x, ¬ P x) l → filter P l = [].
Proof.
  induction 1 as [|x l Hx _ IH]; [done|]. by rewrite filter_cons_False, IH.
Qed.

Lemma NoDup_flat_map_pair (g : nat → list nat) (l : list nat) :
  NoDup l → (∀ x, NoDup (g x)) →
  NoDup (flat_map (λ x, map (pair x) (g x)) l).
Proof.
  intros Hl Hg. induction Hl as [|x l Hx Hl IH]; simpl; [constructor|].
  apply NoDup_app. split; [|split; [|done]].
  - apply (NoDup_fmap_2 _). apply Hg.
  - intros p Hp Hp'. apply list_elem_of_fmap in Hp as (b & -> & _).
    apply elem_of_flat_map in Hp' as (x' & Hx' & Hp').
    apply list_elem_of_fmap in Hp' as (b' & [= -> ->] & _). done.
Qed.

Section Rows.

Context {X : Type} (f : nat → list X) (off : nat → nat).
Hypothesis off_0 : off 0 = 0.
Hypothesis off_S : ∀ x, off (S x) = off x + length (f x).

Lemma length_rows (n : nat) : length (flat_map f (seq 0 n)) = off n.
Proof using off_0 off_S.
  induction n as [|n IH]; [done|].
  rewrite seq_S, flat_map_app, length_app, IH, off_S. simpl.
  by rewrite app_nil_r.
Qed.

Lemma off_mono (x y : nat) : x ≤ y → off x ≤ off y.
Proof using off_0 off_S.
  induction 1 as [|y _ IH]; [lia|]. rewrite off_S. lia.
Qed.

Lemma lookup_rows (n i j : nat) :
  i < n → j < length (f i) →
  flat_map f (seq 0 n) !! (off i + j) = f i !! j.
Proof using off_0 off_S.
  intros Hi Hj. induction n as [|n IH]; [lia|].
  rewrite seq_S, flat_map_app. simpl. rewrite app_nil_r.
  destruct (decide (i = n)) as [->|Hne].
  - rewrite lookup_app_r; rewrite length_rows; [|lia].
    f_equal. lia.
  - rewrite lookup_app_l; [apply IH; lia|].
    rewrite length_rows.
    assert (off (S i) ≤ off n) by (apply off_mono; lia).
    rewrite off_S in *. lia.
Qed.

End Rows.

(** *** The full grid *)

Lemma elem_of_product (h w : nat) (p : nat * nat) :
  p ∈ product (range h) (range w) ↔ p.1 < h ∧ p.2 < w.
Proof.
  unfold product, range. rewrite elem_of_flat_map. split.
  - intros (x & Hx & Hp). apply list_elem_of_fmap in Hp as (y & -> & Hy).
    apply elem_of_seq in Hx, Hy. simpl. lia.
  - intros [H1 H2]. exists p.1. split; [apply elem_of_seq; lia|].
    apply list_elem_of_fmap. exists p.2. split; [by destruct p|].
    apply elem_of_seq. lia.
Qed.

Lemma NoDup_product (h w : nat) : NoDup (product (range h) (range w)).
Proof.
  apply (NoDup_flat_map_pair (λ _, range w)); [apply NoDup_seq|].
  intros _. apply NoDup_seq.
Qed.

Lemma length_product (h w : nat) : length (product (range h) (range w)) = h * w.
Proof.
  unfold product, range.
  apply (length_rows (λ x, map (pair x) (seq 0 w)) (λ i, i * w)); [done|].
  intros x. rewrite length_map, length_seq. lia.
Qed.

Lemma lookup_product (h w i j : nat) :
  i < h → j < w → product (range h) (range w) !! (i * w + j) = Some (i, j).
Proof.
  intros Hi Hj. unfold product, range.
  rewrite (lookup_rows (λ x, map (pair x) (seq 0 w)) (λ i, i * w)); try done.
  - rewrite list_lookup_fmap, lookup_seq_lt by done. done.
  - intros x. rewrite length_map, length_seq. lia.
  - by rewrite length_map, length_seq.
Qed.

(** *** The lower triangle *)

Lemma triangular_id_S (a : nat) : triangular_id (S a) 0 = triangular_id a 0 + S a.
Proof.
  unfold triangular_id.
  replace (S a * (S a + 1)) with (a * (a + 1) + S a * 2) by lia.
  rewrite Nat.div_add by done. lia.
Qed.

Lemma triangular_id_plus (a b : nat) : triangular_id a b = triangular_id a 0 + b.
Proof. unfold triangular_id. lia. Qed.

Lemma lower_pairs_rows (n : nat) :
  lower_pairs n = flat_map (λ i, map (pair i) (range (S i))) (range n).
Proof.
  unfold lower_pairs, product. rewrite filter_flat_map.
  apply flat_map_ext_elem. intros i Hi. apply elem_of_seq in Hi.
  unfold range.
  replace n with (S i + (n - S i)) at 1 by lia.
  rewrite seq_app, map_app, filter_app.
  rewrite filter_all, filter_none; [by rewrite app_nil_r | |].
  - apply Forall_forall. intros p Hp.
    apply list_elem_of_fmap in Hp as (y & -> & Hy). apply elem_of_seq in Hy.
    simpl. lia.
  - apply Forall_forall. intros p Hp.
    apply list_elem_of_fmap in Hp as (y & -> & Hy). apply elem_of_seq in Hy.
    simpl. lia.
Qed.

Lemma elem_of_lower_pairs (n : nat) (p : nat * nat) :
  p ∈ lower_pairs n ↔ p.2 ≤ p.1 ∧ p.1 < n.
Proof.
  unfold lower_pairs. rewrite list_elem_of_filter, elem_of_product. lia.
Qed.

Lemma NoDup_lower_pairs (n : nat) : NoDup (lower_pairs n).
Proof. apply NoDup_filter, NoDup_product. Qed.

Lemma length_lower_pairs (n : nat) : length (lower_pairs n) = triangular_id n 0.
Proof.
  rewrite lower_pairs_rows. unfold range.
  apply (length_rows (λ x, map (pair x) (seq 0 (S x))) (λ i, triangular_id i 0)); [done|].
  intros x. rewrite length_map, length_seq. apply triangular_id_S.
Qed.

Lemma lookup_lower_pairs (n i j : nat) :
  j ≤ i → i < n → lower_pairs n !! triangular_id i j = Some (i, j).
Proof.
  intros Hj Hi. rewrite lower_pairs_rows, triangular_id_plus. unfold range.
  rewrite (lookup_rows (λ x, map (pair x) (seq 0 (S x))) (λ i, triangular_id i 0));
    try done.
  - rewrite list_lookup_fmap, lookup_seq_lt by lia. done.
  - intros x. rewrite length_map, length_seq. apply triangular_id_S.
  - rewrite length_map, length_seq. lia.
Qed.

(** ** The initial graph *)

Lemma pixel_neighs_spec (i j w h : nat) (q : nat * nat) :
  q ∈ pixel_neighs i j w h ↔
    (q = (i - 1, j) ∧ 0 < i) ∨ (q = (i + 1, j) ∧ i < w - 1)
    ∨ (q = (i, j - 1) ∧ 0 < j) ∨ (q = (i, j + 1) ∧ j < h - 1).
Proof.
  unfold pixel_neighs.
  repeat case_decide;
    rewrite ?elem_of_app, ?list_elem_of_singleton, ?elem_of_nil; naive_solver.
Qed.

Lemma pixel_neighs_triangular_spec (i j size : nat) (q : nat * nat) :
  q ∈ pixel_neighs_triangular i j size ↔
    (q = (i - 1, j) ∧ 0 < i ∧ j ≤ i - 1)
    ∨ (q = (i + 1, j) ∧ i < size - 1 ∧ j ≤ i + 1)
    ∨ (q = (i, j - 1) ∧ 0 < j ∧ j - 1 ≤ i)
    ∨ (q = (i, j + 1) ∧ j < size - 1 ∧ j + 1 ≤ i).
Proof.
  unfold pixel_neighs_triangular.
  repeat case_decide;
    rewrite ?elem_of_app, ?list_elem_of_singleton, ?elem_of_nil; naive_solver.
Qed.

Lemma pixel_neighs_sym (i j w h : nat) (q : nat * nat) :
  i < w → j < h → q ∈ pixel_neighs i j w h →
  (q.1 < w ∧ q.2 < h) ∧ q ≠ (i, j) ∧ (i, j) ∈ pixel_neighs q.1 q.2 w h.
Proof.
  intros Hi Hj Hq. apply pixel_neighs_spec in Hq.
  rewrite pixel_neighs_spec.
  destruct Hq as [ [-> ?] | [ [-> ?] | [ [-> ?] | [-> ?] ] ] ]; simpl;
    (split; [lia|]); (split; [intros Heq; inversion Heq; lia|]).
  - right; left. split; [f_equal; lia | lia].
  - left. split; [f_equal; lia | lia].
  - right; right; right. split; [f_equal; lia | lia].
  - right; right; left. split; [f_equal; lia | lia].
Qed.

Lemma pixel_neighs_triangular_sym (i j size : nat) (q : nat * nat) :
  j ≤ i → i < size → q ∈ pixel_neighs_triangular i j size →
  (q.2 ≤ q.1 ∧ q.1 < size) ∧ q ≠ (i, j)
  ∧ (i, j) ∈ pixel_neighs_triangular q.1 q.2 size.
Proof.
  intros Hi Hj Hq. apply pixel_neighs_triangular_spec in Hq.
  rewrite pixel_neighs_triangular_spec.
  destruct Hq as [ [-> ?] | [ [-> ?] | [ [-> ?] | [-> ?] ] ] ]; simpl;
    (split; [lia|]); (split; [intros Heq; inversion Heq; lia|]).
  - right; left. split; [f_equal; lia | lia].
  - left. split; [f_equal; lia | lia].
  - right; right; right. split; [f_equal; lia | lia].
  - right; right; left. split; [f_equal; lia | lia].
Qed.

Section InitialGraph.

(** The cells in the order of the comprehension, the pixel and the
    region index of a cell, and the neighbours of a cell. *)
Variable cells : list (nat * nat).
Variables pix idx : nat * nat → nat.
Variable nb : nat * nat → list (nat * nat).

Hypothesis cells_NoDup : NoDup cells.
Hypothesis idx_lookup : ∀ p, p ∈ cells → cells !! idx p = Some p.
Hypothesis nb_sym : ∀ p q, p ∈ cells → q ∈ nb p → q ∈ cells ∧ q ≠ p ∧ p ∈ nb q.

Abbreviation graph_of_cells_s := (graph_of_cells cells pix idx nb).

Lemma idx_unique (k : nat) (p : nat * nat) : cells !! k = Some p → k = idx p.
Proof using cells_NoDup idx_lookup.
  intros Hk. eapply NoDup_lookup; [done.. |].
  apply idx_lookup. eapply list_elem_of_lookup_2, Hk.
Qed.

Lemma graph_of_cells_neighs (k : nat) (s : gset nat) :
  neighs graph_of_cells_s !! k = Some (Some s) ↔
  ∃ p, cells !! k = Some p ∧ s = list_to_set (map idx (nb p)).
Proof.
  simpl. rewrite list_lookup_fmap. destruct (cells !! k) as [p|]; simpl.
  - split; [intros [= <-]; eauto | intros (p' & [= <-] & ->); done].
  - split; [done | intros (p' & ? & _); done].
Qed.

Lemma graph_of_cells_inv : graph_inv graph_of_cells_s.
Proof using cells_NoDup idx_lookup nb_sym.
  constructor.
  - simpl. by rewrite !length_map.
  - intros k. simpl. rewrite !list_lookup_fmap.
    destruct (cells !! k); simpl; split; congruence.
  - intros k s j Hk Hj.
    apply graph_of_cells_neighs in Hk as (p & Hp & ->).
    apply elem_of_list_to_set, list_elem_of_fmap in Hj as (q & -> & Hq).
    assert (Hpc : p ∈ cells) by (eapply list_elem_of_lookup_2, Hp).
    destruct (nb_sym p q Hpc Hq) as (Hqc & Hne & Hpq).
    apply idx_unique in Hp as ->.
    split.
    + intros Heq. apply idx_lookup in Hpc, Hqc. congruence.
    + exists (list_to_set (map idx (nb q))). split.
      * apply graph_of_cells_neighs. eauto.
      * apply elem_of_list_to_set, list_elem_of_fmap. eauto.
Qed.

End InitialGraph.

Lemma initial_state_cells (triangular : bool) (size0 size1 : nat) :
  initial_state triangular size0 size1 =
  if triangular then
    graph_of_cells (lower_pairs size0) (λ p, p.1 * size0 + p.2)
                   (λ q, triangular_id q.1 q.2)
                   (λ p, pixel_neighs_triangular p.1 p.2 size0)
  else
    graph_of_cells (product (range size0) (range size1))
                   (λ p, p.1 * size1 + p.2) (λ q, q.1 * size1 + q.2)
                   (λ p, pixel_neighs p.1 p.2 size0 size1).
Proof. by destruct triangular. Qed.

Lemma initial_state_inv (triangular : bool) (size0 size1 : nat) :
  graph_inv (initial_state triangular size0 size1).
Proof.
  rewrite initial_state_cells. destruct triangular.
  - apply graph_of_cells_inv.
    + apply NoDup_lower_pairs.
    + intros [i j] Hp. apply elem_of_lower_pairs in Hp. simpl in *.
      apply lookup_lower_pairs; lia.
    + intros [i j] q Hp Hq. apply elem_of_lower_pairs in Hp. simpl in *.
      apply pixel_neighs_triangular_sym in Hq as (? & ? & ?); [|lia..].
      rewrite elem_of_lower_pairs. done.
  - apply graph_of_cells_inv.
    + apply NoDup_product.
    + intros [i j] Hp. apply elem_of_product in Hp. simpl in *.
      apply lookup_product; lia.
    + intros [i j] q Hp Hq. apply elem_of_product in Hp. simpl in *.
      apply pixel_neighs_sym in Hq as (? & ? & ?); [|lia..].
      rewrite elem_of_product. done.
Qed.

(** ** The pixel universe and the states of a trial *)

Lemma elem_of_pixel_universe (triangular : bool) (size0 size1 p : nat) :
  p ∈ pixel_universe triangular size0 size1 ↔
  ∃ row col, in_universe triangular size0 size1 row col
             ∧ p = pixel_id triangular size0 size1 row col.
Proof.
  unfold pixel_universe, in_universe, pixel_id. destruct triangular.
  - rewrite list_elem_of_fmap. split.
    + intros ([i j] & -> & Hp). apply elem_of_lower_pairs in Hp. simpl in *.
      exists i, j. lia.
    + intros (i & j & [? ?] & ->). exists (i, j). split; [done|].
      apply elem_of_lower_pairs. simpl. lia.
  - rewrite list_elem_of_fmap. split.
    + intros ([i j] & -> & Hp). apply elem_of_product in Hp. simpl in *.
      exists i, j. lia.
    + intros (i & j & [? ?] & ->). exists (i, j). split; [done|].
      apply elem_of_product. simpl. lia.
Qed.

Lemma flat_index_inj (w i j i' j' : nat) :
  j < w → j' < w → i * w + j = i' * w + j' → i = i' ∧ j = j'.
Proof.
  intros Hj Hj' Heq.
  assert (Hi : i = i').
  { assert (Hd : (i * w + j) / w = (i' * w + j') / w) by by rewrite Heq.
    rewrite !Nat.div_add_l, !Nat.div_small in Hd by lia. lia. }
  subst i'. lia.
Qed.

Lemma NoDup_pixel_universe (triangular : bool) (size0 size1 : nat) :
  NoDup (pixel_universe triangular size0 size1).
Proof.
  unfold pixel_universe. destruct triangular.
  - apply NoDup_fmap_2_strong; [|apply NoDup_lower_pairs].
    intros [i j] [i' j'] Hp Hp' Heq.
    apply elem_of_lower_pairs in Hp, Hp'. simpl in *.
    apply flat_index_inj in Heq as [-> ->]; [done|lia..].
  - apply NoDup_fmap_2_strong; [|apply NoDup_product].
    intros [i j] [i' j'] Hp Hp' Heq.
    apply elem_of_product in Hp, Hp'. simpl in *.
    apply flat_index_inj in Heq as [-> ->]; [done|lia..].
Qed.

Lemma existent_singletons {X : Type} (f : X → nat) (l : list X) :
  existent (map (λ p, Some [f p]) l) = map (λ p, [f p]) l.
Proof.
  induction l as [|x l IH]; [done|].
  change (map (λ p, Some [f p]) (x :: l)) with (Some [f x] :: map (λ p, Some [f p]) l).
  rewrite existent_cons, IH. done.
Qed.

Lemma concat_singletons {X : Type} (f : X → nat) (l : list X) :
  concat (map (λ p, [f p]) l) = map f l.
Proof. induction l as [|x l IH]; [done|]. simpl. by f_equal. Qed.

Lemma initial_pixels_universe (triangular : bool) (size0 size1 : nat) :
  concat (existent (initial_pixels triangular size0 size1)) =
  pixel_universe triangular size0 size1.
Proof.
  unfold initial_pixels, pixel_universe.
  destruct triangular; by rewrite existent_singletons, concat_singletons.
Qed.

Lemma initial_count (triangular : bool) (size0 size1 : nat) :
  count_existent (initial_pixels triangular size0 size1) =
  initial_start triangular size0 size1
  ∧ length (initial_pixels triangular size0 size1) =
    initial_start triangular size0 size1.
Proof.
  unfold count_existent, initial_pixels, initial_start.
  destruct triangular; rewrite existent_singletons, !length_map.
  - rewrite length_lower_pairs. unfold triangular_id. lia.
  - by rewrite length_product.
Qed.

(** ** Regions as a partition *)

Lemma elem_of_concat_existent (px : list (option (list nat))) (p : nat) :
  p ∈ concat (existent px) ↔ ∃ k ps, px !! k = Some (Some ps) ∧ p ∈ ps.
Proof.
  induction px as [|o px IH].
  - split; [by intros ?%elem_of_nil | by intros (k & ps & ? & _)].
  - rewrite concat_existent_cons, elem_of_app, IH. split.
    + intros [Hp|(k & ps & Hk & Hp)].
      * destruct o as [ps|]; [|by apply elem_of_nil in Hp].
        by exists 0, ps.
      * by exists (S k), ps.
    + intros (k & ps & Hk & Hp). destruct k as [|k]; simpl in Hk.
      * injection Hk as ->. by left.
      * right. eauto.
Qed.

Lemma NoDup_concat_existent (px : list (option (list nat))) :
  NoDup (concat (existent px)) →
  (∀ k ps, px !! k = Some (Some ps) → NoDup ps)
  ∧ (∀ k k' ps ps' p,
       px !! k = Some (Some ps) → px !! k' = Some (Some ps') →
       p ∈ ps → p ∈ ps' → k = k').
Proof.
  induction px as [|o px IH]; [by split; intros []|].
  rewrite concat_existent_cons. intros (Ho & Hdisj & Hpx)%NoDup_app.
  destruct (IH Hpx) as [IH1 IH2]. split.
  - intros [|k] ps Hk; simpl in Hk; [by injection Hk as ->|by eapply IH1].
  - intros [|k] [|k'] ps ps' p Hk Hk' Hp Hp'; simpl in Hk, Hk'.
    + done.
    + injection Hk as ->. exfalso. apply (Hdisj p Hp).
      apply elem_of_concat_existent. eauto.
    + injection Hk' as ->. exfalso. apply (Hdisj p Hp').
      apply elem_of_concat_existent. eauto.
    + f_equal. eapply IH2; eauto.
Qed.

Lemma permutation_exact_cover (universe : list nat) (st : serpentines) :
  NoDup universe →
  concat (existent (pixels st)) ≡ₚ universe →
  exact_cover universe st.
Proof.
  intros Hnd Hperm.
  assert (Hnd' : NoDup (concat (existent (pixels st)))) by by rewrite Hperm.
  destruct (NoDup_concat_existent _ Hnd') as [Hnd_ps Hdisj].
  unfold exact_cover, alive. split; [|split].
  - intros p Hp. rewrite <-Hperm in Hp.
    apply elem_of_concat_existent in Hp as (k & ps & Hk & Hp).
    exists k, ps. split; [done|]. split; [done|].
    intros k' ps' Hk' Hp'. eapply Hdisj; eauto.
  - intros k ps p Hk Hp. rewrite <-Hperm.
    apply elem_of_concat_existent. eauto.
  - done.
Qed.

(** ** Invariants of a trial *)

Lemma merge_partition (serp mn : nat) (st st' : serpentines) :
  serp ≠ mn → merge serp mn st = Ok st' →
  concat (existent (pixels st')) ≡ₚ concat (existent (pixels st)).
Proof.
  intros Hne H. apply merge_Ok_pixels in H as (ps & pn & Hps & Hpn & -> & _).
  pose proof (concat_existent_insert _ serp _ (Some (ps ++ pn)) Hps) as H1.
  assert (H2 : <[serp := Some (ps ++ pn)]> (pixels st) !! mn = Some (Some pn))
    by by rewrite list_lookup_insert_ne.
  apply (concat_existent_insert _ _ _ None) in H2.
  simpl in H1, H2. rewrite app_nil_r in H2.
  apply (Permutation_app_inv_r (pn ++ ps)).
  transitivity (concat (existent (pixels st)) ++ (ps ++ pn)).
  - rewrite <-H1, <-H2, <-!app_assoc. done.
  - f_equiv. apply Permutation_app_comm.
Qed.

Section Reachable.

Variables U V : list Q.
Variables threshold minthreshold : Q.
Variable rnd : draws.
Variable triangular : bool.
Variables size0 size1 : nat.

Abbreviation reachable' :=
  (reachable U V threshold minthreshold rnd triangular size0 size1).
Abbreviation visit' := (visit U V threshold minthreshold rnd).

Lemma initial_trial_inv :
  trial_inv triangular size0 size1 (initial_state triangular size0 size1).
Proof.
  constructor; simpl.
  - apply initial_state_inv.
  - by rewrite initial_pixels_universe.
  - apply initial_count.
  - apply initial_count.
Qed.

Lemma visit_trial_inv (serp : nat) (st st' : serpentines) :
  trial_inv triangular size0 size1 st → visit' serp st = Ok st' →
  trial_inv triangular size0 size1 st'.
Proof.
  intros [Hg Hp Hl Hm] Hv.
  pose proof (visit_graph_inv _ _ _ _ _ _ _ _ Hg Hv) as Hg'.
  apply visit_Ok in Hv as [->|Hv]; [done|].
  destruct Hv as (ps & a & b & s & mn & Hps & _ & _ & _ & Hs & Hmn & Hmerge).
  destruct (inv_neigh st Hg serp s mn Hs Hmn) as [Hne _].
  pose proof (merge_Ok_count _ _ _ _ Hmerge) as (Hc & Hm' & Hl' & _).
  constructor; [done | | lia | lia].
  rewrite <-Hp. apply (merge_partition serp mn); [congruence | done].
Qed.

Lemma reachable_trial_inv (st : serpentines) :
  reachable' st → trial_inv triangular size0 size1 st.
Proof.
  induction 1 as [|serp st st' _ IH Hv];
    [apply initial_trial_inv | by eapply visit_trial_inv].
Qed.

Lemma for_each_visit_reachable (order : list nat) (st st' : serpentines) :
  reachable' st → for_each visit' order st = Ok st' → reachable' st'.
Proof.
  revert st. induction order as [|serp order IH]; intros st Hr H; simpl in H.
  - by injection H as <-.
  - inv_bind H as st1 Hv. eapply IH; [|done]. by eapply reachable_visit.
Qed.

Lemma pass_reachable (i : nat) (st st' : serpentines) :
  reachable' st → pass U V threshold minthreshold rnd i st = Ok st' →
  reachable' st'.
Proof. apply for_each_visit_reachable. Qed.

Lemma merger_reachable (start fuel i previous current : nat) (st st' : serpentines) :
  reachable' st →
  merger U V threshold minthreshold rnd start fuel i previous current st
    = Some (Ok st') →
  reachable' st'.
Proof.
  revert i previous current st.
  induction fuel as [|fuel IH]; intros i previous current st Hr H; simpl in H.
  - case_decide; [|done]. by injection H as <-.
  - case_decide; [by injection H as <-|].
    destruct (print_iteration start;; pass U V threshold minthreshold rnd i st)
      as [st1|e] eqn:Hp; [|done].
    inv_bind Hp as u Hu. eapply IH; [|done]. by eapply pass_reachable.
Qed.

End Reachable.

(** ** Counting regions along the loop *)

Section Counting.

Variables U V : list Q.
Variables threshold minthreshold : Q.
Variable rnd : draws.
Variable start : nat.

Abbreviation visit_c := (visit U V threshold minthreshold rnd).
Abbreviation pass_c := (pass U V threshold minthreshold rnd).
Abbreviation merger_c := (merger U V threshold minthreshold rnd start).

Lemma for_each_visit_count (order : list nat) (st st' : serpentines) :
  for_each visit_c order st = Ok st' →
  count_existent (pixels st') ≤ count_existent (pixels st)
  ∧ count_existent (pixels st') + merges st'
    = count_existent (pixels st) + merges st.
Proof.
  revert st. induction order as [|serp order IH]; intros st H; simpl in H.
  - injection H as <-. lia.
  - inv_bind H as st1 Hv. apply IH in H.
    apply visit_count in Hv as [->|[? ?]]; lia.
Qed.

Lemma pass_count (i : nat) (st st' : serpentines) :
  pass_c i st = Ok st' →
  count_existent (pixels st') ≤ count_existent (pixels st).
Proof. intros H. by apply for_each_visit_count in H as [? _]. Qed.

(** A pass that leaves the count as it was performed no merge: every
    visit returned the state it was given. *)
Lemma for_each_visit_fixed (order : list nat) (st st' : serpentines) :
  for_each visit_c order st = Ok st' →
  count_existent (pixels st') = count_existent (pixels st) →
  st' = st ∧ ∀ serp, serp ∈ order → visit_c serp st = Ok st.
Proof.
  revert st. induction order as [|serp order IH]; intros st H Hc; simpl in H.
  - injection H as <-. split; [done|]. by intros serp ?%elem_of_nil.
  - inv_bind H as st1 Hv.
    pose proof (for_each_visit_count _ _ _ H) as [Hle _].
    pose proof Hv as Hv'. apply visit_count in Hv' as [->|[? ?]]; [|lia].
    destruct (IH _ H Hc) as [-> Hall]. split; [done|].
    intros serp' [->|?]%elem_of_cons; auto.
Qed.

(** The loop does not need more passes than there are regions, plus one. *)
Lemma merger_enough_fuel (fuel i previous : nat) (st : serpentines) :
  count_existent (pixels st) < fuel →
  is_Some (merger_c fuel i previous (count_existent (pixels st)) st).
Proof.
  revert i previous st.
  induction fuel as [|fuel IH]; intros i previous st Hlt; [lia|].
  simpl. case_decide; [by eexists|].
  destruct (print_iteration start;; pass_c i st) as [st'|e] eqn:Hp; [|by eexists].
  inv_bind Hp as u Hu. apply pass_count in Hp.
  destruct (decide (count_existent (pixels st') = count_existent (pixels st)))
    as [Heq|Hne].
  - destruct fuel; simpl; rewrite decide_True by done; by eexists.
  - apply IH. lia.
Qed.

Lemma merger_first_pass_enough_fuel (fuel : nat) (st : serpentines) :
  count_existent (pixels st) + 2 ≤ fuel →
  is_Some (merger_c fuel 0 0 1 st).
Proof.
  intros Hle. destruct fuel as [|fuel]; [lia|]. simpl.
  destruct (print_iteration start;; pass_c 0 st) as [st'|e] eqn:Hp; [|by eexists].
  inv_bind Hp as u Hu. apply pass_count in Hp.
  destruct (decide (count_existent (pixels st') = 1)) as [Heq|Hne].
  - destruct fuel; simpl; rewrite decide_True by done; by eexists.
  - apply merger_enough_fuel. lia.
Qed.

(** What one turn of the [while] loop does. *)
Lemma merger_turn (fuel i previous current : nat) (st st' : serpentines) :
  current ≠ previous →
  (print_iteration start;; pass_c i st) = Ok st' →
  merger_c (S fuel) i previous current st =
  if decide (count_existent (pixels st') = current) then Some (Ok st')
  else merger_c fuel (S i) current (count_existent (pixels st')) st'.
Proof.
  intros Hne Hp. simpl. rewrite decide_False by done. rewrite Hp.
  case_decide; [|done].
  destruct fuel; simpl; by rewrite decide_True.
Qed.

End Counting.

(** ** The merge predicate *)

Lemma Qltb_true (x y : Q) : Qltb x y = true ↔ (x < y)%Q.
Proof.
  unfold Qltb. destruct (Qlt_le_dec x y) as [Hlt|Hle]; split; try done.
  intros Hlt. by apply Qlt_not_le in Hlt.
Qed.

Lemma Qltb_false (x y : Q) : Qltb x y = false ↔ (y <= x)%Q.
Proof.
  unfold Qltb. destruct (Qlt_le_dec x y) as [Hlt|Hle]; split; try done.
  intros Hle. by apply Qlt_not_le in Hlt.
Qed.

Lemma merge_predicate_true (threshold minthreshold a b : Q) :
  merge_predicate threshold minthreshold a b = true ↔
  ((a < threshold ∧ b < threshold) ∨ a < minthreshold ∨ b < minthreshold)%Q.
Proof.
  unfold merge_predicate.
  rewrite !orb_true_iff, andb_true_iff, !Qltb_true. done.
Qed.

Lemma merge_predicate_false (threshold minthreshold a b : Q) :
  merge_predicate threshold minthreshold a b = false ↔
  ((threshold <= a ∨ threshold <= b) ∧ minthreshold <= a ∧ minthreshold <= b)%Q.
Proof.
  unfold merge_predicate.
  rewrite !orb_false_iff, andb_false_iff, !Qltb_false. done.
Qed.

Lemma reachable_exact_cover (U V : list Q) (threshold minthreshold : Q)
    (rnd : draws) (triangular : bool) (size0 size1 : nat) (st : serpentines) :
  reachable U V threshold minthreshold rnd triangular size0 size1 st →
  exact_cover (pixel_universe triangular size0 size1) st.
Proof.
  intros [_ Hp _ _]%reachable_trial_inv.
  apply permutation_exact_cover; [apply NoDup_pixel_universe | done].
Qed.

Lemma length_pixel_universe (triangular : bool) (size0 size1 : nat) :
  length (pixel_universe triangular size0 size1) =
  initial_start triangular size0 size1.
Proof.
  rewrite <-initial_pixels_universe.
  unfold initial_pixels. destruct triangular;
    rewrite existent_singletons, concat_singletons, length_map;
    [rewrite length_lower_pairs; unfold initial_start, triangular_id; lia
    | apply length_product].
Qed.

Lemma reachable_merges_bound (U V : list Q) (threshold minthreshold : Q)
    (rnd : draws) (triangular : bool) (size0 size1 : nat) (st : serpentines) :
  reachable U V threshold minthreshold rnd triangular size0 size1 st →
  merges st ≤ initial_start triangular size0 size1 - 1
  ∧ (0 < initial_start triangular size0 size1 →
     0 < count_existent (pixels st)).
Proof.
  intros [_ Hp _ Hm]%reachable_trial_inv.
  assert (Hpos : 0 < initial_start triangular size0 size1 →
                 0 < count_existent (pixels st)).
  { intros Hstart. rewrite <-length_pixel_universe, <-Hp in Hstart.
    unfold count_existent. destruct (existent (pixels st)); simpl in *; lia. }
  split; [|done].
  destruct (initial_start triangular size0 size1); [lia|].
  specialize (Hpos ltac:(lia)). lia.
Qed.

Lemma serpentin_iteration_total (A B : ndarray Q) (threshold minthreshold : Q)
    (triangular : bool) (rnd : draws) :
  is_Some (serpentin_iteration A B threshold minthreshold triangular rnd).
Proof.
  unfold serpentin_iteration.
  destruct (validate A B threshold minthreshold triangular) as [[size0 size1]|e];
    [|by eexists].
  destruct (merger_first_pass_enough_fuel (data A) (data B) threshold minthreshold
              rnd (initial_start triangular size0 size1)
              (initial_start triangular size0 size1 + 2)
              (initial_state triangular size0 size1)) as [r Hr].
  { simpl. destruct (initial_count triangular size0 size1) as [-> _]. lia. }
  rewrite Hr. destruct r; by eexists.
Qed.

(** ** How the loop is left *)

Section Exit.

Variables U V : list Q.
Variables threshold minthreshold : Q.
Variable rnd : draws.
Variable triangular : bool.
Variables size0 size1 : nat.

Abbreviation start_e := (initial_start triangular size0 size1).
Abbreviation reachable_e :=
  (reachable U V threshold minthreshold rnd triangular size0 size1).
Abbreviation pass_e := (pass U V threshold minthreshold rnd).
Abbreviation merger_e := (merger U V threshold minthreshold rnd start_e).

(** From the second pass on, the loop is left after a pass that kept the
    number of regions. *)
Lemma merger_exit_later (fuel i previous : nat) (st st' : serpentines) :
  reachable_e st →
  count_existent (pixels st) ≠ previous →
  merger_e fuel i previous (count_existent (pixels st)) st = Some (Ok st') →
  ∃ j st_l,
    reachable_e st_l ∧ pass_e j st_l = Ok st'
    ∧ count_existent (pixels st') = count_existent (pixels st_l).
Proof.
  revert i previous st.
  induction fuel as [|fuel IH]; intros i previous st Hr Hne H; simpl in H.
  - by rewrite decide_False in H.
  - rewrite decide_False in H by done.
    destruct (print_iteration start_e;; pass_e i st) as [st1|e] eqn:Hp; [|done].
    inv_bind Hp as u Hu.
    destruct (decide (count_existent (pixels st1) = count_existent (pixels st)))
      as [Heq|Hne'].
    + assert (st' = st1) as ->.
      { destruct fuel; simpl in H; rewrite decide_True in H by done; congruence. }
      eauto.
    + eapply IH; [|done..]. by eapply pass_reachable.
Qed.

(** The first pass is compared with the initial value 1 of
    [current_existent]. *)
Lemma merger_exit (fuel : nat) (st st' : serpentines) :
  reachable_e st →
  merger_e fuel 0 0 1 st = Some (Ok st') →
  ∃ j st_l,
    reachable_e st_l ∧ pass_e j st_l = Ok st'
    ∧ (count_existent (pixels st') = count_existent (pixels st_l)
       ∨ count_existent (pixels st') = 1).
Proof.
  intros Hr H. destruct fuel as [|fuel]; simpl in H; [done|].
  destruct (print_iteration start_e;; pass_e 0 st) as [st1|e] eqn:Hp; [|done].
  inv_bind Hp as u Hu.
  destruct (decide (count_existent (pixels st1) = 1)) as [Heq|Hne].
  - assert (st' = st1) as ->.
    { destruct fuel; simpl in H; rewrite decide_True in H by done; congruence. }
    eauto 10.
  - apply merger_exit_later in H as (j & st_l & ? & ? & ?);
      [eauto 10 | by eapply pass_reachable | done].
Qed.

(** A region that a pass without merge has visited does not satisfy the
    merge predicate. *)
Lemma visit_fixed_predicate (serp : nat) (st : serpentines) (ps : list nat) (a b : Q) :
  visit U V threshold minthreshold rnd serp st = Ok st →
  alive st serp ps →
  region_sum U ps = Ok a → region_sum V ps = Ok b →
  merge_predicate threshold minthreshold a b = false.
Proof.
  intros Hv Hps Ha Hb.
  destruct (merge_predicate threshold minthreshold a b) eqn:Hpred; [|done].
  exfalso. unfold visit in Hv. apply getitem_Ok in Hps.
  rewrite Hps in Hv. simpl in Hv. rewrite Ha, Hb in Hv. simpl in Hv.
  rewrite Hpred in Hv.
  inv_bind Hv as s Hs. inv_bind Hv as mn Hmn.
  apply merge_Ok_count in Hv as (_ & Hm & _). lia.
Qed.

Lemma merger_converged (fuel : nat) (st : serpentines) (k : nat) (ps : list nat)
    (s : gset nat) (a b : Q) :
  (∀ i, permutation rnd i ≡ₚ range start_e) →
  merger_e fuel 0 0 1 (initial_state triangular size0 size1) = Some (Ok st) →
  alive st k ps →
  neighs st !! k = Some (Some s) →
  region_sum U ps = Ok a → region_sum V ps = Ok b →
  merge_predicate threshold minthreshold a b = false ∨ s = ∅.
Proof.
  intros Hperm H Hps Hs Ha Hb.
  apply merger_exit in H as (j & st_l & Hr & Hp & Hc); [|constructor].
  pose proof (pass_reachable _ _ _ _ _ _ _ _ _ _ _ Hr Hp) as Hr'.
  apply reachable_trial_inv in Hr' as [Hg _ Hlen _].
  destruct Hc as [Hc|Hc].
  - left. apply for_each_visit_fixed in Hp as [-> Hall]; [|done].
    eapply visit_fixed_predicate; eauto.
    apply Hall. rewrite Hperm. apply elem_of_seq.
    apply lookup_lt_Some in Hps. lia.
  - right. apply elem_of_equiv_empty_L. intros x Hx.
    destruct (inv_neigh st Hg k s x Hs Hx) as (Hne & t & Ht & _).
    destruct (graph_inv_pixels st x t Hg Ht) as (px & Hpx).
    pose proof (count_existent_two _ _ _ _ _ Hne Hpx Hps). lia.
Qed.

End Exit.

(** ** The output matrices *)

Lemma item_matrix_of {X : Type} (d : X) (h w : nat) (f : nat → nat → X) (i j : nat) :
  i < h → j < w → item d (matrix_of h w f) i j = f i j.
Proof.
  intros Hi Hj. unfold item, matrix_of. simpl.
  by rewrite list_lookup_fmap, lookup_product.
Qed.

Lemma matrix_of_ext {X : Type} (h w : nat) (f g : nat → nat → X) :
  (∀ i j, i < h → j < w → f i j = g i j) → matrix_of h w f = matrix_of h w g.
Proof.
  intros Hfg. unfold matrix_of. f_equal.
  apply map_ext_in. intros [i j] Hp.
  apply list_elem_of_In, elem_of_product in Hp. simpl in *. apply Hfg; lia.
Qed.

Lemma zip_with_map {X Y : Type} (op : Y → Y → Y) (f g : X → Y) (l : list X) :
  zip_with op (map f l) (map g l) = map (λ x, op (f x) (g x)) l.
Proof. induction l as [|x l IH]; [done|]. simpl. by f_equal. Qed.

Lemma madd_matrix_of (h w : nat) (f g : nat → nat → Q) :
  madd (matrix_of h w f) (matrix_of h w g) =
  matrix_of h w (λ i j, f i j + g i j)%Q.
Proof. unfold madd, matrix_of. simpl. by rewrite zip_with_map. Qed.

Lemma msub_matrix_of (h w : nat) (f g : nat → nat → Q) :
  msub (matrix_of h w f) (matrix_of h w g) =
  matrix_of h w (λ i j, f i j - g i j)%Q.
Proof. unfold msub, matrix_of. simpl. by rewrite zip_with_map. Qed.

Lemma symmetrize_matrix_of (n : nat) (W : list Q) :
  symmetrize (reshape n n W) =
  matrix_of n n (λ i j, lower n W i j + lower n W j i
                        - (if decide (i = j) then lower n W i i else 0))%Q.
Proof.
  unfold symmetrize, tril, transpose, diag_diag. simpl.
  rewrite Nat.min_id.
  change (matrix_of n n (λ i j, if decide (j ≤ i)
                                then item 0%Q (reshape n n W) i j else 0%Q))
    with (matrix_of n n (lower n W)).
  rewrite (matrix_of_ext n n (λ i j, item 0%Q (matrix_of n n (lower n W)) j i)
             (λ i j, lower n W j i))
    by (intros; by apply item_matrix_of).
  rewrite (matrix_of_ext n n
             (λ i j, if decide (i = j)
                     then item 0%Q (matrix_of n n (lower n W)) i i else 0%Q)
             (λ i j, if decide (i = j) then lower n W i i else 0%Q))
    by (intros; case_decide; [by apply item_matrix_of | done]).
  by rewrite madd_matrix_of, msub_matrix_of.
Qed.

(** On and below the diagonal the symmetric matrix has the entries of
    [W]; above the diagonal it has the mirrored ones. *)
Lemma item_symmetrize (n : nat) (W : list Q) (i j : nat) :
  i < n → j < n →
  (item 0 (symmetrize (reshape n n W)) i j ==
   if decide (j ≤ i) then item 0 (reshape n n W) i j
   else item 0 (reshape n n W) j i)%Q.
Proof.
  intros Hi Hj. rewrite symmetrize_matrix_of, item_matrix_of by done.
  unfold lower. repeat case_decide; try lia; subst; ring.
Qed.

Lemma shape_symmetrize (n : nat) (W : list Q) :
  shape (symmetrize (reshape n n W)) = [n; n].
Proof. by rewrite symmetrize_matrix_of. Qed.

Lemma length_symmetrize (n : nat) (W : list Q) :
  length (data (symmetrize (reshape n n W))) = n * n.
Proof.
  rewrite symmetrize_matrix_of. simpl. by rewrite length_map, length_product.
Qed.

Lemma Qltb_proper (x x' y y' : Q) :
  (x == x')%Q → (y == y')%Q → Qltb x y = Qltb x' y'.
Proof.
  intros Hx Hy. destruct (Qltb x' y') eqn:H.
  - apply Qltb_true. apply Qltb_true in H. by rewrite Hx, Hy.
  - apply Qltb_false. apply Qltb_false in H. by rewrite Hx, Hy.
Qed.

Lemma Qeq_bool_proper (x x' y y' : Q) :
  (x == x')%Q → (y == y')%Q → Qeq_bool x y = Qeq_bool x' y'.
Proof.
  intros Hx Hy. destruct (Qeq_bool x' y') eqn:H.
  - apply Qeq_bool_iff. apply Qeq_bool_iff in H. by rewrite Hx, Hy.
  - apply not_true_iff_false. apply not_true_iff_false in H.
    rewrite Qeq_bool_iff in *. by rewrite Hx, Hy.
Qed.

(** The logarithm of a quotient depends on the values only. *)
Lemma log2_fdiv_proper (v v' u u' : Q) :
  (v == v')%Q → (u == u')%Q → log2 (fdiv v u) = log2 (fdiv v' u').
Proof.
  intros Hv Hu. unfold fdiv.
  rewrite (Qeq_bool_proper u u' 0 0), (Qeq_bool_proper v v' 0 0),
    (Qltb_proper 0 0 v v') by done.
  destruct (Qeq_bool u' 0); [done|]. simpl.
  assert (Hq : (v / u == v' / u')%Q) by by rewrite Hv, Hu.
  rewrite (Qltb_proper 0 0 (v / u) (v' / u')), (Qeq_bool_proper (v / u) (v' / u') 0 0)
    by done.
  by rewrite (Qeq_eqR _ _ Hq).
Qed.

(** ** The trial as a whole *)

Lemma validate_Ok (A B : ndarray Q) (threshold minthreshold : Q)
    (triangular : bool) (size0 size1 : nat) :
  validate A B threshold minthreshold triangular = Ok (size0, size1) ↔
  shape A = [size0; size1] ∧ shape B = shape A
  ∧ (minthreshold < threshold)%Q
  ∧ (triangular = true → size0 = size1).
Proof.
  unfold validate, check_shape, check_threshold.
  destruct (Qltb minthreshold threshold) eqn:Hlt.
  2:{ apply Qltb_false in Hlt. split.
      - intros H. inv_bind H as size Hs. discriminate.
      - intros (_ & _ & Hlt' & _). by apply Qlt_not_le in Hlt'. }
  apply Qltb_true in Hlt.
  destruct triangular.
  - destruct (decide (shape A = shape B)) as [Heq|Hne].
    2:{ split; [done | intros (_ & ? & _); congruence]. }
    destruct (shape A) as [|h [|w [|? ?]]] eqn:HA;
      try (split; [done | by intros ([=] & _)]).
    destruct (decide (min_list [h; w] = max_list [h; w])) as [Hsq|Hsq];
      simpl in Hsq |- *.
    + split.
      * intros [= <- <-]. repeat split; try done. lia.
      * intros ([= <- <-] & _). done.
    + split; [done|]. intros ([= <- <-] & _ & _ & Hs). specialize (Hs eq_refl). lia.
  - destruct (decide (shape A = shape B)) as [Heq|Hne].
    2:{ split; [done | intros (_ & ? & _); congruence]. }
    destruct (shape A) as [|h [|w [|? ?]]] eqn:HA;
      try (split; [done | by intros ([=] & _)]).
    simpl. split.
    + intros [= <- <-]. done.
    + intros ([= <- <-] & _). done.
Qed.

Lemma serpentin_iteration_Ok (A B : ndarray Q) (threshold minthreshold : Q)
    (triangular : bool) (rnd : draws) (out : trial_output) :
  serpentin_iteration A B threshold minthreshold triangular rnd = Some (Ok out) →
  ∃ size0 size1 st U' V',
    validate A B threshold minthreshold triangular = Ok (size0, size1)
    ∧ merger (data A) (data B) threshold minthreshold rnd
             (initial_start triangular size0 size1)
             (initial_start triangular size0 size1 + 2) 0 0 1
             (initial_state triangular size0 size1) = Some (Ok st)
    ∧ mean_fill (existent (pixels st)) (data A, data B) = Ok (U', V')
    ∧ out = outputs triangular size0 size1 U' V'.
Proof.
  unfold serpentin_iteration. intros H.
  destruct (validate A B threshold minthreshold triangular) as [[size0 size1]|e];
    [|done].
  destruct (merger _ _ _ _ _ _ _ _ _ _ _) as [[st|e]|] eqn:Hm; [|done..].
  injection H as H. inv_bind H as u Hu. inv_bind H as UV HUV.
  injection H as <-. destruct UV as [U' V']. eauto 10.
Qed.

Lemma outputs_triangular_log_ratio (n : nat) (U V : list Q) (row col : nat) :
  row < n → col < n →
  item (Fin 0%R) (outputs true n n U V).2 row col =
  if decide (col ≤ row)
  then log2 (fdiv (item 0%Q (outputs true n n U V).1.2 row col)
                  (item 0%Q (outputs true n n U V).1.1 row col))
  else Fin 0%R.
Proof.
  intros Hrow Hcol. unfold outputs. simpl.
  pose proof (item_symmetrize n U row col Hrow Hcol) as HU.
  pose proof (item_symmetrize n V row col Hrow Hcol) as HV.
  unfold log_ratio_triangular.
  rewrite shape_symmetrize, length_symmetrize, Nat.sqrt_square.
  rewrite item_matrix_of by done.
  destruct (decide (col ≤ row)) as [Hle|Hgt].
  - rewrite decide_True by done.
    apply log2_fdiv_proper; [rewrite HV; ring | by rewrite HU].
  - rewrite decide_False by lia. done.
Qed.

(** ** Sums over index lists *)

Lemma Qsum_app (xs ys : list Q) : (Qsum (xs ++ ys) == Qsum xs + Qsum ys)%Q.
Proof.
  induction xs as [|x xs IH]; simpl; [ring|]. rewrite IH. ring.
Qed.

Lemma Qsum_Permutation (xs ys : list Q) : xs ≡ₚ ys → (Qsum xs == Qsum ys)%Q.
Proof.
  induction 1 as [|x xs ys _ IH|x y xs|xs ys zs _ IH1 _ IH2]; simpl.
  - reflexivity.
  - by rewrite IH.
  - ring.
  - by rewrite IH1.
Qed.

Lemma sum_at_app (W : list Q) (xs ys : list nat) :
  (sum_at W (xs ++ ys) == sum_at W xs + sum_at W ys)%Q.
Proof. unfold sum_at. rewrite map_app. apply Qsum_app. Qed.

Lemma sum_at_Permutation (W : list Q) (xs ys : list nat) :
  xs ≡ₚ ys → (sum_at W xs == sum_at W ys)%Q.
Proof. intros H. apply Qsum_Permutation. by apply Permutation_map. Qed.

Lemma sum_at_ext (W W' : list Q) (idx : list nat) :
  (∀ p, p ∈ idx → W' !! p = W !! p) → sum_at W' idx = sum_at W idx.
Proof.
  intros H. unfold sum_at. f_equal. apply map_ext_in.
  intros p Hp. by rewrite H by by apply list_elem_of_In.
Qed.

Lemma sum_at_const (W : list Q) (idx : list nat) (m : Q) :
  (∀ p, p ∈ idx → W !! p = Some m) →
  (sum_at W idx == inject_Z (Z.of_nat (length idx)) * m)%Q.
Proof.
  induction idx as [|p idx IH]; intros H.
  - unfold sum_at. simpl. ring.
  - change (sum_at W (p :: idx)) with (default 0 (W !! p) + sum_at W idx)%Q.
    rewrite IH by (intros q Hq; apply H; by apply list_elem_of_further).
    rewrite H by apply list_elem_of_here. simpl default.
    rewrite length_cons, Nat2Z.inj_succ. unfold Z.succ.
    rewrite inject_Z_plus. ring.
Qed.

Lemma take_items_Ok (W : list Q) (idx : list nat) (xs : list Q) :
  take_items W idx = Ok xs →
  xs = map (λ p, default 0%Q (W !! p)) idx ∧ ∀ p, p ∈ idx → p < length W.
Proof.
  revert xs. induction idx as [|p idx IH]; intros xs H; simpl in H.
  - injection H as <-. split; [done|]. by intros p ?%elem_of_nil.
  - inv_bind H as x Hx. inv_bind H as xs' Hxs. injection H as <-.
    apply getitem_Ok in Hx. destruct (IH _ Hxs) as [-> Hlt].
    split; [simpl; by rewrite Hx|].
    intros q [->|Hq]%elem_of_cons; [by eapply lookup_lt_Some | auto].
Qed.

Lemma take_items_in_range (W : list Q) (idx : list nat) :
  (∀ p, p ∈ idx → p < length W) →
  take_items W idx = Ok (map (λ p, default 0%Q (W !! p)) idx).
Proof.
  induction idx as [|p idx IH]; intros H; [done|]. simpl.
  destruct (lookup_lt_is_Some_2 W p) as [x Hx]; [apply H, list_elem_of_here|].
  unfold getitem. rewrite Hx. simpl.
  rewrite IH by (intros q Hq; apply H; by apply list_elem_of_further). done.
Qed.

Lemma length_put_items (W : list Q) (idx : list nat) (m : Q) :
  length (put_items W idx m) = length W.
Proof.
  induction idx as [|p idx IH]; [done|]. simpl. by rewrite length_insert.
Qed.

Lemma lookup_put_items (W : list Q) (idx : list nat) (m : Q) (p : nat) :
  p < length W →
  put_items W idx m !! p = if decide (p ∈ idx) then Some m else W !! p.
Proof.
  intros Hp. induction idx as [|q idx IH].
  - rewrite decide_False; [done | by intros ?%elem_of_nil].
  - change (put_items W (q :: idx) m) with (<[q := m]> (put_items W idx m)).
    destruct (decide (q = p)) as [->|Hne].
    + rewrite list_lookup_insert_eq by by rewrite length_put_items.
      rewrite decide_True; [done | apply list_elem_of_here].
    + rewrite list_lookup_insert_ne by done. rewrite IH.
      destruct (decide (p ∈ idx)) as [Hin|Hnin].
      * rewrite decide_True; [done | by apply list_elem_of_further].
      * rewrite decide_False; [done|].
        intros [->|?]%elem_of_cons; done.
Qed.

Lemma fill_Ok (W W' : list Q) (serp : list nat) :
  fill W serp = Ok W' →
  W' = put_items W serp (region_mean W serp)
  ∧ ∀ p, p ∈ serp → p < length W.
Proof.
  unfold fill. intros H. inv_bind H as xs Hxs. injection H as <-.
  apply take_items_Ok in Hxs as [-> Hlt]. done.
Qed.

(** Writing the mean of a region into its pixels keeps the sum over any
    duplicate-free index list that contains the region. *)
Lemma fill_sum_at (W W' : list Q) (serp universe : list nat) :
  fill W serp = Ok W' →
  NoDup serp → NoDup universe → serp ⊆ universe →
  (sum_at W' universe == sum_at W universe)%Q.
Proof.
  intros H Hnd Hndu Hsub. apply fill_Ok in H as [-> Hlt].
  assert (Hperm : ∃ rest, universe ≡ₚ serp ++ rest).
  { apply submseteq_Permutation, NoDup_submseteq; done. }
  destruct Hperm as [rest Hperm].
  assert (Hdisj : ∀ p, p ∈ rest → p ∉ serp).
  { rewrite Hperm in Hndu. apply NoDup_app in Hndu as (_ & Hdisj & _).
    intros p Hp Hp'. by apply (Hdisj p). }
  rewrite !(sum_at_Permutation _ _ _ Hperm), !sum_at_app.
  rewrite (sum_at_ext W (put_items W serp (region_mean W serp)) rest).
  2:{ intros p Hp. destruct (decide (p < length W)) as [Hp'|Hp'].
      - rewrite lookup_put_items by done. rewrite decide_False; auto.
      - rewrite !lookup_ge_None_2; [done | lia | rewrite length_put_items; lia]. }
  apply Qplus_inj_r.
  rewrite (sum_at_const _ serp (region_mean W serp)).
  2:{ intros p Hp. rewrite lookup_put_items by auto. by rewrite decide_True. }
  unfold region_mean. fold (sum_at W serp).
  destruct serp as [|p serp]; [unfold sum_at; simpl; ring|].
  field. rewrite length_cons, Nat2Z.inj_succ. unfold Z.succ.
  rewrite inject_Z_plus. intros Hz.
  assert (0 <= inject_Z (Z.of_nat (length serp)))%Q.
  { change 0%Q with (inject_Z 0). rewrite <-Zle_Qle. lia. }
  change (inject_Z 1) with 1%Q in Hz.
  Lqa.lra.
Qed.

Lemma elem_of_existent (px : list (option (list nat))) (ps : list nat) :
  ps ∈ existent px ↔ ∃ k, px !! k = Some (Some ps).
Proof.
  unfold existent. rewrite list_elem_of_omap. split.
  - intros (o & Ho & ->). by apply list_elem_of_lookup_1 in Ho.
  - intros (k & Hk). exists (Some ps). split; [|done].
    by eapply list_elem_of_lookup_2.
Qed.

Lemma mean_fill_sum_at (pix : list (list nat)) (UV UV' : list Q * list Q)
    (universe : list nat) :
  mean_fill pix UV = Ok UV' →
  NoDup universe →
  (∀ ps, ps ∈ pix → NoDup ps ∧ ps ⊆ universe) →
  (sum_at UV'.1 universe == sum_at UV.1 universe)%Q
  ∧ (sum_at UV'.2 universe == sum_at UV.2 universe)%Q
  ∧ length UV'.1 = length UV.1 ∧ length UV'.2 = length UV.2.
Proof.
  intros H Hnd. revert UV H.
  induction pix as [|ps pix IH]; intros UV H Hpix; simpl in H.
  - injection H as <-. done.
  - unfold mean_fill in H. simpl in H. inv_bind H as UV1 H1.
    inv_bind H1 as U1 HU. inv_bind H1 as V1 HV. injection H1 as <-.
    destruct (Hpix ps) as [Hps Hsub]; [apply list_elem_of_here|].
    destruct (IH (U1, V1) H) as (HU' & HV' & HlU & HlV).
    { intros qs Hqs. apply Hpix. by apply list_elem_of_further. }
    simpl in *. rewrite HU', HV', HlU, HlV.
    rewrite (fill_sum_at _ _ _ _ HU), (fill_sum_at _ _ _ _ HV) by done.
    apply fill_Ok in HU as [-> _]. apply fill_Ok in HV as [-> _].
    by rewrite !length_put_items.
Qed.

Lemma map_lookup_seq (W : list Q) :
  map (λ p, default 0%Q (W !! p)) (seq 0 (length W)) = W.
Proof.
  apply list_eq. intros k. rewrite list_lookup_fmap.
  destruct (decide (k < length W)) as [Hk|Hk].
  - rewrite lookup_seq_lt by done. simpl.
    by destruct (lookup_lt_is_Some_2 W k Hk) as [x ->].
  - rewrite lookup_seq_ge, lookup_ge_None_2 by lia. done.
Qed.

Lemma pixel_universe_full (h w : nat) : pixel_universe false h w = seq 0 (h * w).
Proof.
  unfold pixel_universe. apply list_eq. intros k. rewrite list_lookup_fmap.
  destruct (decide (k < h * w)) as [Hk|Hk].
  - assert (Hw : 0 < w) by (destruct w; lia).
    assert (Hk' : k = (k / w) * w + k mod w).
    { rewrite (Nat.div_mod_eq k w) at 1. lia. }
    rewrite lookup_seq_lt by done. rewrite Hk' at 1.
    rewrite lookup_product; [simpl; by rewrite <-Hk'| |].
    + apply Nat.Div0.div_lt_upper_bound. lia.
    + by apply Nat.mod_upper_bound, Nat.neq_0_lt_0.
  - rewrite lookup_seq_ge by lia.
    rewrite lookup_ge_None_2; [done|]. rewrite length_product. lia.
Qed.

Lemma Qsum_sum_at (W : list Q) : Qsum W = sum_at W (seq 0 (length W)).
Proof. unfold sum_at. by rewrite map_lookup_seq. Qed.

Lemma Qsum_map_Qeq {X : Type} (f g : X → Q) (l : list X) :
  (∀ x, x ∈ l → (f x == g x)%Q) → (Qsum (map f l) == Qsum (map g l))%Q.
Proof.
  induction l as [|x l IH]; intros H; simpl; [reflexivity|].
  rewrite H by apply list_elem_of_here.
  rewrite IH by (intros y Hy; apply H; by apply list_elem_of_further).
  reflexivity.
Qed.

Lemma lower_sum_reshape (n : nat) (W : list Q) :
  lower_sum n (reshape n n W) = sum_at W (pixel_universe true n n).
Proof.
  unfold lower_sum, sum_at, pixel_universe. by rewrite map_map.
Qed.

Lemma lower_sum_shape (n : nat) (M : ndarray Q) :
  shape M = [n; n] → lower_sum n M = sum_at (data M) (pixel_universe true n n).
Proof.
  destruct M as [sM dM]. simpl. intros ->. apply lower_sum_reshape.
Qed.

Lemma lower_sum_symmetrize (n : nat) (W : list Q) :
  (lower_sum n (symmetrize (reshape n n W)) == lower_sum n (reshape n n W))%Q.
Proof.
  unfold lower_sum. apply Qsum_map_Qeq.
  intros [i j] Hp. apply elem_of_lower_pairs in Hp. simpl in *.
  rewrite item_symmetrize by lia. by rewrite decide_True by lia.
Qed.

Lemma merger_regions (U V : list Q) (threshold minthreshold : Q) (rnd : draws)
    (triangular : bool) (size0 size1 : nat) (fuel : nat) (st : serpentines) :
  merger U V threshold minthreshold rnd (initial_start triangular size0 size1)
         fuel 0 0 1 (initial_state triangular size0 size1) = Some (Ok st) →
  ∀ ps, ps ∈ existent (pixels st) →
        NoDup ps ∧ ps ⊆ pixel_universe triangular size0 size1.
Proof.
  intros H ps [k Hk]%elem_of_existent.
  destruct (reachable_exact_cover U V threshold minthreshold rnd triangular
              size0 size1 st) as (_ & Hsub & Hnd).
  { eapply merger_reachable; [constructor | done]. }
  split; [by eapply Hnd|]. intros p Hp. by eapply Hsub.
Qed.

(** ** Inputs that agree on the pixel universe *)

Lemma take_items_agree (W W' : list Q) (idx : list nat) :
  agree_on idx W W' → take_items W' idx = take_items W idx.
Proof.
  induction idx as [|p idx IH]; intros H; [done|]. simpl.
  unfold getitem. rewrite (H p) by apply list_elem_of_here.
  rewrite IH; [done|]. intros q Hq. apply H. by apply list_elem_of_further.
Qed.

Lemma region_sum_agree (W W' : list Q) (ps : list nat) :
  agree_on ps W W' → region_sum W' ps = region_sum W ps.
Proof.
  intros H. unfold region_sum. rewrite (take_items_agree W W' ps H).
  destruct ps as [|x [|y ps]]; try done.
  unfold getitem. by rewrite (H x) by apply list_elem_of_here.
Qed.

Lemma lookup_put_items_agree (W W' : list Q) (idx : list nat) (m : Q) (p : nat) :
  W' !! p = W !! p → put_items W' idx m !! p = put_items W idx m !! p.
Proof.
  intros H. induction idx as [|q idx IH]; [done|]. simpl.
  destruct (decide (q = p)) as [->|Hne]; [|by rewrite !list_lookup_insert_ne].
  destruct (put_items W idx m !! p) as [x|] eqn:Hx.
  - rewrite !list_lookup_insert_eq; [done | by eapply lookup_lt_Some..].
  - rewrite !list_insert_ge; [congruence | by apply lookup_ge_None..].
Qed.

Section Agree.

Variables U V U' V' : list Q.
Variables threshold minthreshold : Q.
Variable rnd : draws.
Variable triangular : bool.
Variables size0 size1 : nat.

Hypothesis agree_U : agree_on (pixel_universe triangular size0 size1) U U'.
Hypothesis agree_V : agree_on (pixel_universe triangular size0 size1) V V'.

Lemma visit_agree (serp : nat) (st : serpentines) :
  trial_inv triangular size0 size1 st →
  visit U' V' threshold minthreshold rnd serp st =
  visit U V threshold minthreshold rnd serp st.
Proof using agree_U agree_V.
  intros [_ Hp _ _]. unfold visit.
  destruct (getitem (pixels st) serp) as [[ps|]|e] eqn:Hps; try done. simpl.
  apply getitem_Ok in Hps.
  apply permutation_exact_cover in Hp as (_ & Hsub & _);
    [|apply NoDup_pixel_universe].
  rewrite (region_sum_agree U U' ps), (region_sum_agree V V' ps); [done | |].
  - intros p Hp. apply agree_V. by eapply Hsub.
  - intros p Hp. apply agree_U. by eapply Hsub.
Qed.

Lemma for_each_visit_agree (order : list nat) (st : serpentines) :
  trial_inv triangular size0 size1 st →
  for_each (visit U' V' threshold minthreshold rnd) order st =
  for_each (visit U V threshold minthreshold rnd) order st.
Proof using agree_U agree_V.
  revert st. induction order as [|serp order IH]; intros st Hinv; [done|].
  simpl. rewrite visit_agree by done.
  destruct (visit U V threshold minthreshold rnd serp st) as [st1|e] eqn:Hv;
    [|done].
  simpl. apply IH. by eapply visit_trial_inv.
Qed.

Lemma for_each_visit_trial_inv (order : list nat) (st st' : serpentines) :
  trial_inv triangular size0 size1 st →
  for_each (visit U V threshold minthreshold rnd) order st = Ok st' →
  trial_inv triangular size0 size1 st'.
Proof.
  revert st. induction order as [|serp order IH]; intros st Hinv H; simpl in H.
  - by injection H as <-.
  - inv_bind H as st1 Hv. eapply IH; [|done]. by eapply visit_trial_inv.
Qed.

Lemma merger_agree (start fuel i previous current : nat) (st : serpentines) :
  trial_inv triangular size0 size1 st →
  merger U' V' threshold minthreshold rnd start fuel i previous current st =
  merger U V threshold minthreshold rnd start fuel i previous current st.
Proof using agree_U agree_V.
  revert i previous current st.
  induction fuel as [|fuel IH]; intros i previous current st Hinv; [done|].
  simpl. case_decide; [done|].
  unfold pass. rewrite for_each_visit_agree by done.
  destruct (print_iteration start;; for_each _ _ st) as [st1|e] eqn:Hp; [|done].
  inv_bind Hp as u Hu. apply IH. by eapply for_each_visit_trial_inv.
Qed.

End Agree.

Lemma fill_agree (universe : list nat) (W W' : list Q) (ps : list nat) :
  agree_on universe W W' → ps ⊆ universe →
  (∃ e, fill W ps = Raise e ∧ fill W' ps = Raise e)
  ∨ (∃ W1 W1', fill W ps = Ok W1 ∧ fill W' ps = Ok W1'
               ∧ agree_on universe W1 W1').
Proof.
  intros Hag Hsub. unfold fill.
  rewrite (take_items_agree W W' ps) by (intros p Hp; by apply Hag, Hsub).
  destruct (take_items W ps) as [xs|e]; simpl; [right|left; eauto].
  eexists _, _. split; [done|]. split; [done|].
  intros p Hp. apply lookup_put_items_agree. by apply Hag.
Qed.

Lemma mean_fill_agree (universe : list nat) (pix : list (list nat))
    (U V U' V' : list Q) :
  agree_on universe U U' → agree_on universe V V' →
  (∀ ps, ps ∈ pix → ps ⊆ universe) →
  (∃ e, mean_fill pix (U, V) = Raise e ∧ mean_fill pix (U', V') = Raise e)
  ∨ (∃ U1 V1 U1' V1',
       mean_fill pix (U, V) = Ok (U1, V1)
       ∧ mean_fill pix (U', V') = Ok (U1', V1')
       ∧ agree_on universe U1 U1' ∧ agree_on universe V1 V1').
Proof.
  revert U V U' V'.
  induction pix as [|ps pix IH]; intros U V U' V' HU HV Hpix.
  - right. by eexists _, _, _, _.
  - assert (Hps : ps ⊆ universe) by apply Hpix, list_elem_of_here.
    unfold mean_fill. simpl.
    destruct (fill_agree universe U U' ps HU Hps)
      as [(e & -> & ->)|(U1 & U1' & -> & -> & HU1)]; [left; eauto|].
    destruct (fill_agree universe V V' ps HV Hps)
      as [(e & -> & ->)|(V1 & V1' & -> & -> & HV1)]; [left; eauto|].
    simpl. apply IH; [done..|].
    intros qs Hqs. apply Hpix. by apply list_elem_of_further.
Qed.

Lemma lower_agree (n : nat) (W W' : list Q) (i j : nat) :
  agree_on (pixel_universe true n n) W W' → i < n →
  lower n W' i j = lower n W i j.
Proof.
  intros Hag Hi. unfold lower, item, reshape. simpl.
  case_decide; [|done]. rewrite Hag; [done|].
  apply elem_of_pixel_universe. exists i, j. by split.
Qed.

Lemma outputs_triangular_agree (n : nat) (U V U' V' : list Q) :
  agree_on (pixel_universe true n n) U U' →
  agree_on (pixel_universe true n n) V V' →
  outputs true n n U' V' = outputs true n n U V.
Proof.
  intros HU HV. unfold outputs.
  assert (HsU : symmetrize (reshape n n U') = symmetrize (reshape n n U)).
  { rewrite !symmetrize_matrix_of. apply matrix_of_ext. intros i j Hi Hj.
    by rewrite !(lower_agree n U U'). }
  assert (HsV : symmetrize (reshape n n V') = symmetrize (reshape n n V)).
  { rewrite !symmetrize_matrix_of. apply matrix_of_ext. intros i j Hi Hj.
    by rewrite !(lower_agree n V V'). }
  rewrite HsU, HsV. f_equal.
  unfold log_ratio_triangular. rewrite shape_symmetrize.
  apply matrix_of_ext. intros i j Hi Hj.
  case_decide as Hc; [|done].
  pose proof (lower_agree n U U' i j HU Hi) as HUl.
  pose proof (lower_agree n V V' i j HV Hi) as HVl.
  unfold lower in HUl, HVl. rewrite !decide_True in HUl, HVl by lia.
  by rewrite HUl, HVl.
Qed.

(** ** The driver *)

Section DriverFacts.

Variables A B : ndarray Q.
Variables threshold minthreshold : Q.
Variable triangular : bool.
Variable rnds : nat → draws.

Abbreviation trial_d x :=
  (serpentin_iteration A B threshold minthreshold triangular (rnds x)).
Abbreviation binning_d :=
  (serpentin_binning A B threshold minthreshold triangular rnds).

Lemma pool_map_Raise (xs : list nat) (e : exn) :
  pool_map A B threshold minthreshold triangular rnds xs = Some (Raise e) →
  ∃ x, x ∈ xs ∧ trial_d x = Some (Raise e).
Proof.
  induction xs as [|x xs IH]; simpl; [done|].
  destruct (trial_d x) as [[r|e']|] eqn:Hx; [|intros [= ->]|done].
  - destruct (pool_map _ _ _ _ _ _ xs) as [[rs|e']|]; [done| |done].
    intros [= ->]. destruct IH as (y & Hy & Htrial); [done|].
    exists y. split; [by apply list_elem_of_further | done].
  - exists x. split; [apply list_elem_of_here | done].
Qed.

Lemma sequential_Raise (xs : list nat) (s : sums) (e : exn) :
  sequential A B threshold minthreshold triangular rnds xs s = Some (Raise e) →
  ∃ x, x ∈ xs ∧ trial_d x = Some (Raise e).
Proof.
  revert s. induction xs as [|x xs IH]; intros s; simpl; [done|].
  destruct (trial_d x) as [[r|e']|] eqn:Hx; [|intros [= ->]|done].
  - intros H. destruct (IH _ H) as (y & Hy & Htrial).
    exists y. split; [by apply list_elem_of_further | done].
  - exists x. split; [apply list_elem_of_here | done].
Qed.

Lemma binning_Raise (iterations parallel : Z) (size : nat * nat) (e : exn) :
  validate A B threshold minthreshold triangular = Ok size →
  binning_d iterations parallel = Some (Raise e) →
  ∃ x, (Z.of_nat x < iterations)%Z ∧ trial_d x = Some (Raise e).
Proof.
  intros Hval. unfold serpentin_binning. rewrite Hval.
  assert (Hrange : ∀ x, x ∈ range (Z.to_nat iterations) →
                        (Z.of_nat x < iterations)%Z).
  { intros x Hx%elem_of_seq. lia. }
  case_decide.
  - destruct (pool_map _ _ _ _ _ _ _) as [[res|e']|] eqn:Hp; [done| |done].
    intros [= ->]. apply pool_map_Raise in Hp as (x & Hx & Htrial). eauto.
  - destruct (sequential _ _ _ _ _ _ _ _) as [[s|e']|] eqn:Hs; [done| |done].
    intros [= ->]. apply sequential_Raise in Hs as (x & Hx & Htrial). eauto.
Qed.

Lemma binning_no_iterations (iterations parallel : Z) (size : nat * nat) :
  validate A B threshold minthreshold triangular = Ok size →
  (iterations ≤ 0)%Z →
  binning_d iterations parallel = Some (Ok (average (zero_sums A) iterations)).
Proof.
  intros Hval Hle. unfold serpentin_binning. rewrite Hval.
  replace (Z.to_nat iterations) with 0 by lia. simpl. by case_decide.
Qed.

Lemma binning_sequential (iterations parallel : Z) (size : nat * nat) :
  validate A B threshold minthreshold triangular = Ok size →
  (parallel ≤ 1)%Z →
  binning_d iterations parallel =
  match sequential A B threshold minthreshold triangular rnds
                   (range (Z.to_nat iterations)) (zero_sums A) with
  | None => None
  | Some (Raise e) => Some (Raise e)
  | Some (Ok s) => Some (Ok (average s iterations))
  end.
Proof.
  intros Hval Hle. unfold serpentin_binning. rewrite Hval.
  by rewrite decide_False by lia.
Qed.

End DriverFacts.

(** ** Regions that touch are neighbours *)

Lemma merged_alive (st : serpentines) (serp mn : nat) (ps pn : list nat)
    (s t : gset nat) (st' : serpentines) (k : nat) (qs : list nat) :
  merged st serp mn ps pn s t st' →
  alive st' k qs →
  (k = serp ∧ qs = ps ++ pn) ∨ (k ≠ serp ∧ k ≠ mn ∧ alive st k qs).
Proof.
  intros Hm. unfold alive. rewrite (mg_pixels _ _ _ _ _ _ _ _ Hm).
  pose proof (mg_ne _ _ _ _ _ _ _ _ Hm) as Hne.
  assert (Hlt : serp < length (pixels st)).
  { eapply lookup_lt_Some, (mg_serp_pixels _ _ _ _ _ _ _ _ Hm). }
  assert (Hlt' : mn < length (pixels st)).
  { eapply lookup_lt_Some, (mg_mn_pixels _ _ _ _ _ _ _ _ Hm). }
  destruct (decide (k = mn)) as [->|Hkm].
  { rewrite list_lookup_insert_eq by by rewrite length_insert. done. }
  rewrite list_lookup_insert_ne by done.
  destruct (decide (k = serp)) as [->|Hks].
  - rewrite list_lookup_insert_eq by done. intros [= <-]. by left.
  - rewrite list_lookup_insert_ne by done. by right.
Qed.

Lemma merged_other (st : serpentines) (serp mn : nat) (ps pn : list nat)
    (s t : gset nat) (st' : serpentines) (k : nat) (u : gset nat) :
  graph_inv st → merged st serp mn ps pn s t st' →
  k ≠ serp → k ≠ mn → neighs st !! k = Some (Some u) →
  ∃ u', neighs st' !! k = Some (Some u')
        ∧ (∀ j, j ≠ mn → j ∈ u → j ∈ u')
        ∧ (mn ∈ u → serp ∈ u').
Proof.
  intros Hinv Hm Hks Hkm Hu. destruct (decide (k ∈ t)) as [Hkt|Hkt].
  - exists (u ∖ {[mn]} ∪ {[serp]}).
    split; [by apply (mg_at_linked _ _ _ _ _ _ _ _ Hm)|]. set_solver.
  - exists u. split; [by rewrite (mg_at_other _ _ _ _ _ _ _ _ Hm)|].
    split; [done|]. intros Hin. exfalso.
    destruct (inv_neigh st Hinv k u mn Hu Hin) as (_ & t' & Ht' & ?).
    pose proof (mg_mn_neighs _ _ _ _ _ _ _ _ Hm). congruence.
Qed.

Lemma merged_adj_complete (adj : nat → nat → Prop) (st : serpentines)
    (serp mn : nat) (ps pn : list nat) (s t : gset nat) (st' : serpentines) :
  graph_inv st → adj_complete adj st → merged st serp mn ps pn s t st' →
  adj_complete adj st'.
Proof.
  intros Hinv [Hne Hadj] Hm.
  pose proof (mg_serp_pixels _ _ _ _ _ _ _ _ Hm) as Hps.
  pose proof (mg_mn_pixels _ _ _ _ _ _ _ _ Hm) as Hpn.
  pose proof (mg_serp_neighs _ _ _ _ _ _ _ _ Hm) as Hs.
  pose proof (mg_mn_neighs _ _ _ _ _ _ _ _ Hm) as Ht.
  pose proof (mg_ne _ _ _ _ _ _ _ _ Hm) as Hmn.
  split.
  - intros k qs Hk.
    destruct (merged_alive _ _ _ _ _ _ _ _ _ _ Hm Hk) as [[-> ->]|(_ & _ & Hk')].
    + intros Happ. apply app_eq_nil in Happ as [-> _]. by apply (Hne serp [] Hps).
    + by apply (Hne k qs).
  - intros k k' qs qs' p q Hk Hk' Hkk Hp Hq Hpq.
    destruct (merged_alive _ _ _ _ _ _ _ _ _ _ Hm Hk)
      as [[-> ->]|(Hks & Hkm & Hko)];
      destruct (merged_alive _ _ _ _ _ _ _ _ _ _ Hm Hk')
        as [[-> ->]|(Hks' & Hkm' & Hko')]; try done.
    + (* from the merged region to another one *)
      exists ((s ∖ {[mn]}) ∪ (t ∖ {[serp]})).
      split; [apply (mg_at_serp _ _ _ _ _ _ _ _ Hm)|].
      apply elem_of_app in Hp as [Hp|Hp].
      * destruct (Hadj serp k' ps qs' p q) as (s0 & Hs0 & Hin); try done.
        assert (s0 = s) as -> by congruence. set_solver.
      * destruct (Hadj mn k' pn qs' p q) as (t0 & Ht0 & Hin); try done.
        assert (t0 = t) as -> by congruence. set_solver.
    + (* from another region to the merged one *)
      destruct (graph_inv_neighs st k qs Hinv Hko) as (u & Hu).
      destruct (merged_other _ _ _ _ _ _ _ _ _ u Hinv Hm Hks Hkm Hu)
        as (u' & Hu' & Hkeep & Hlink).
      exists u'. split; [done|].
      apply elem_of_app in Hq as [Hq|Hq].
      * destruct (Hadj k serp qs ps p q) as (u0 & Hu0 & Hin); try done.
        assert (u0 = u) as -> by congruence. by apply Hkeep.
      * destruct (Hadj k mn qs pn p q) as (u0 & Hu0 & Hin); try done.
        assert (u0 = u) as -> by congruence. by apply Hlink.
    + (* between two other regions *)
      destruct (Hadj k k' qs qs' p q) as (u & Hu & Hin); try done.
      destruct (merged_other _ _ _ _ _ _ _ _ _ u Hinv Hm Hks Hkm Hu)
        as (u' & Hu' & Hkeep & _).
      exists u'. split; [done|]. by apply Hkeep.
Qed.

Lemma visit_adj_complete (adj : nat → nat → Prop) (U V : list Q)
    (threshold minthreshold : Q) (rnd : draws) (serp : nat) (st st' : serpentines) :
  graph_inv st → adj_complete adj st →
  visit U V threshold minthreshold rnd serp st = Ok st' →
  adj_complete adj st'.
Proof.
  intros Hinv Hadj H. apply visit_Ok in H as [->|H]; [done|].
  destruct H as (ps & a & b & s & mn & Hps & _ & _ & _ & Hs & Hmn & Hm).
  destruct (merge_merged st serp mn ps s Hinv Hps Hs Hmn) as (pn & t & st2 & Hm2 & Hmg).
  assert (st2 = st') as -> by congruence.
  by eapply merged_adj_complete.
Qed.

Lemma graph_of_cells_adj_complete (cells : list (nat * nat))
    (pix idx : nat * nat → nat) (nb : nat * nat → list (nat * nat)) :
  NoDup cells →
  (∀ p, p ∈ cells → cells !! idx p = Some p) →
  (∀ c c', c ∈ cells → c' ∈ cells → pix c = pix c' → c = c') →
  adj_complete (cells_adj cells pix nb) (graph_of_cells cells pix idx nb).
Proof.
  intros Hnd Hidx Hinj.
  assert (Halive : ∀ k ps, alive (graph_of_cells cells pix idx nb) k ps →
            ∃ c, cells !! k = Some c ∧ ps = [pix c]).
  { intros k ps. unfold alive. simpl. rewrite list_lookup_fmap.
    destruct (cells !! k) as [c|]; simpl; [|done]. intros [= <-]. eauto. }
  split.
  - intros k ps (c & _ & ->)%Halive. done.
  - intros k k' ps ps' p q (c & Hc & ->)%Halive (c' & Hc' & ->)%Halive Hkk
      Hp%list_elem_of_singleton Hq%list_elem_of_singleton
      (c1 & c1' & Hc1 & Hc1' & Hp1 & Hq1 & Hnb).
    assert (Hcc : c ∈ cells) by by eapply list_elem_of_lookup_2.
    assert (Hcc' : c' ∈ cells) by by eapply list_elem_of_lookup_2.
    assert (c1 = c) as -> by (apply Hinj; [done..|congruence]).
    assert (c1' = c') as -> by (apply Hinj; [done..|congruence]).
    exists (list_to_set (map idx (nb c))). split.
    + apply graph_of_cells_neighs. eauto.
    + apply (idx_unique cells idx Hnd Hidx) in Hc'. subst k'.
      apply elem_of_list_to_set, list_elem_of_fmap. eauto.
Qed.

Lemma initial_adj_complete (h w : nat) :
  adj_complete (grid_adj h w) (initial_state false h w).
Proof.
  rewrite initial_state_cells. apply graph_of_cells_adj_complete.
  - apply NoDup_product.
  - intros [i j] Hp. apply elem_of_product in Hp. simpl in *.
    apply lookup_product; lia.
  - intros [i j] [i' j'] Hc Hc' Heq.
    apply elem_of_product in Hc, Hc'. simpl in *.
    apply flat_index_inj in Heq as [-> ->]; [done|lia..].
Qed.

Lemma grid_adj_sym (h w p q : nat) : grid_adj h w p q → grid_adj h w q p.
Proof.
  intros ([i j] & c' & Hc & Hc' & -> & -> & Hnb).
  apply elem_of_product in Hc. simpl in *.
  apply pixel_neighs_sym in Hnb as (_ & _ & Hnb); [|lia..].
  exists c', (i, j). repeat split; try done. by apply elem_of_product.
Qed.

Lemma grid_adj_check (h w p q : nat) :
  0 < w → p < h * w → q < h * w →
  bool_decide ((q / w, q mod w) ∈ pixel_neighs (p / w) (p mod w) h w) = true →
  grid_adj h w p q.
Proof.
  intros Hw Hp Hq Hb. apply bool_decide_eq_true in Hb.
  assert (Hdiv : ∀ k, k < h * w → k / w < h ∧ k mod w < w ∧ k = k / w * w + k mod w).
  { intros k Hk. split; [apply Nat.Div0.div_lt_upper_bound; lia|].
    split; [apply Nat.mod_upper_bound; lia|].
    rewrite (Nat.div_mod_eq k w) at 1. lia. }
  destruct (Hdiv p Hp) as (? & ? & ?), (Hdiv q Hq) as (? & ? & ?).
  exists (p / w, p mod w), (q / w, q mod w).
  rewrite !elem_of_product. simpl. done.
Qed.

(** ** Paths and cuts *)

(** A path that meets a set and its complement crosses between them. *)
Lemma chain_crossing (R : nat → nat → Prop) (S : nat → Prop)
    `{!∀ x, Decision (S x)} (l : list nat) :
  (∀ x y, R x y → R y x) →
  chain R l →
  (∃ x, x ∈ l ∧ S x) → (∃ y, y ∈ l ∧ ¬ S y) →
  ∃ a b, a ∈ l ∧ b ∈ l ∧ S a ∧ ¬ S b ∧ R a b.
Proof.
  intros Hsym. induction l as [|x l IH]; intros Hch (a & Ha & HSa) (b & Hb & HSb).
  - by apply elem_of_nil in Ha.
  - destruct l as [|y l].
    + apply list_elem_of_singleton in Ha, Hb. congruence.
    + destruct Hch as [Hxy Hch].
      destruct (decide (S x)) as [HSx|HSx], (decide (S y)) as [HSy|HSy].
      * destruct IH as (a' & b' & ? & ? & ? & ? & ?); [done | | |].
        -- exists y. split; [apply list_elem_of_here | done].
        -- exists b. split; [|done].
           apply elem_of_cons in Hb as [->|Hb]; done.
        -- exists a', b'. repeat split; try done; by apply list_elem_of_further.
      * exists x, y. repeat split; try done;
          [apply list_elem_of_here | apply list_elem_of_further, list_elem_of_here].
      * exists y, x. repeat split; try done;
          [apply list_elem_of_further, list_elem_of_here | apply list_elem_of_here | auto].
      * destruct IH as (a' & b' & ? & ? & ? & ? & ?); [done | | |].
        -- exists a. split; [|done].
           apply elem_of_cons in Ha as [->|Ha]; done.
        -- exists y. split; [apply list_elem_of_here | done].
        -- exists a', b'. repeat split; try done; by apply list_elem_of_further.
Qed.

(** ** Trials that cannot raise

    In the full grid, when the regions can be arranged on a path of
    adjacent pixels and the matrices as a whole do not satisfy the merge
    predicate, every visited region that satisfies it has a neighbour,
    and the trial runs without exception. *)

Section Safe.

Variables U V : list Q.
Variables threshold minthreshold : Q.
Variable rnd : draws.
Variables h w : nat.

Hypothesis length_U : length U = h * w.
Hypothesis length_V : length V = h * w.
Hypothesis grid_path :
  ∃ path, path ≡ₚ pixel_universe false h w ∧ chain (grid_adj h w) path.
Hypothesis total_fails : ∀ ps a b,
  ps ≡ₚ pixel_universe false h w →
  region_sum U ps = Ok a → region_sum V ps = Ok b →
  merge_predicate threshold minthreshold a b = false.
Hypothesis permutations : ∀ i, permutation rnd i ≡ₚ range (h * w).

Abbreviation visit_s := (visit U V threshold minthreshold rnd).

Abbreviation safe_inv_s := (safe_inv h w).

Lemma region_sum_in_range (W : list Q) (ps : list nat) :
  (∀ p, p ∈ ps → p < length W) → ∃ a, region_sum W ps = Ok a.
Proof.
  intros Hlt. unfold region_sum. rewrite take_items_in_range by done.
  destruct ps as [|x [|y ps]]; simpl; eauto.
  destruct (lookup_lt_is_Some_2 W x) as [a Ha]; [apply Hlt, list_elem_of_here|].
  exists a. by apply getitem_Ok.
Qed.

Lemma region_in_range (st : serpentines) (k : nat) (ps : list nat) :
  trial_inv false h w st → alive st k ps →
  NoDup ps ∧ ps ⊆ pixel_universe false h w ∧ ∀ p, p ∈ ps → p < h * w.
Proof.
  clear length_U length_V. intros [_ Hp _ _] Hk.
  apply permutation_exact_cover in Hp as (_ & Hsub & Hnd);
    [|apply NoDup_pixel_universe].
  split; [by eapply Hnd|]. split; [intros p Hp; by eapply Hsub|].
  intros p Hp. apply (Hsub k ps p Hk) in Hp.
  rewrite pixel_universe_full in Hp. apply elem_of_seq in Hp. lia.
Qed.

(** A region that is not the whole universe has a neighbour. *)
Lemma proper_region_has_neighbour (st : serpentines) (k : nat) (ps : list nat) :
  safe_inv_s st → alive st k ps →
  ¬ ps ≡ₚ pixel_universe false h w →
  ∃ s, neighs st !! k = Some (Some s) ∧ elements s ≠ [].
Proof using grid_path.
  intros [Hinv [Hne Hadj]] Hk Hproper.
  destruct (region_in_range st k ps Hinv Hk) as (Hnd & Hsub & _).
  destruct grid_path as (path & Hpath & Hchain).
  destruct (chain_crossing (grid_adj h w) (λ p, p ∈ ps) path)
    as (p & q & Hp & Hq & Hpin & Hqout & Hpq).
  - apply grid_adj_sym.
  - done.
  - destruct ps as [|p ps']; [by destruct (Hne k [] Hk)|].
    exists p. split; [|apply list_elem_of_here].
    rewrite Hpath. apply Hsub, list_elem_of_here.
  - destruct (decide (Forall (λ p, p ∈ ps) (pixel_universe false h w)))
      as [Hall|Hnot].
    + destruct Hproper. apply NoDup_Permutation; [done | apply NoDup_pixel_universe|].
      intros p. split; [apply Hsub|]. revert p. by apply Forall_forall.
    + apply not_Forall_Exists, Exists_exists in Hnot; [|intros p; apply _].
      destruct Hnot as (q & Hq & Hnq). exists q. by rewrite Hpath.
  - rewrite Hpath in Hq.
    destruct Hinv as [Hg Hperm _ _].
    apply permutation_exact_cover in Hperm as (Hcov & _); [|apply NoDup_pixel_universe].
    destruct (Hcov q Hq) as (k' & ps' & Hk' & Hq' & _).
    assert (Hkk : k ≠ k').
    { intros ->. unfold alive in *. congruence. }
    destruct (Hadj k k' ps ps' p q Hk Hk' Hkk Hpin Hq' Hpq) as (s & Hs & Hin).
    exists s. split; [done|]. intros Hnil.
    apply elem_of_elements in Hin. rewrite Hnil in Hin. by apply elem_of_nil in Hin.
Qed.

Lemma visit_safe (serp : nat) (st : serpentines) :
  safe_inv_s st → serp < h * w →
  ∃ st', visit_s serp st = Ok st' ∧ safe_inv_s st'.
Proof using length_U length_V grid_path total_fails.
  intros Hsafe Hserp. pose proof Hsafe as [Hinv Hadj].
  assert (Hstep : ∀ st', visit_s serp st = Ok st' → safe_inv_s st').
  { intros st' Hv. split; [by eapply visit_trial_inv|].
    eapply visit_adj_complete; [apply (ti_graph _ _ _ _ Hinv) | done..]. }
  assert (∃ st', visit_s serp st = Ok st') as [st' Hv]; [|eauto].
  unfold visit.
  destruct (lookup_lt_is_Some_2 (pixels st) serp) as [o Ho].
  { by rewrite (ti_length _ _ _ _ Hinv). }
  unfold getitem at 1. rewrite Ho. simpl.
  destruct o as [ps|]; [|eauto].
  destruct (region_in_range st serp ps Hinv Ho) as (Hnd & Hsub & Hlt).
  destruct (region_sum_in_range U ps) as [a Ha]; [by rewrite length_U|].
  destruct (region_sum_in_range V ps) as [b Hb]; [by rewrite length_V|].
  rewrite Ha, Hb. simpl.
  destruct (merge_predicate threshold minthreshold a b) eqn:Hpred; [|eauto].
  destruct (proper_region_has_neighbour st serp ps Hsafe Ho) as (s & Hs & Hnil).
  { intros Hperm. by rewrite (total_fails ps a b Hperm Ha Hb) in Hpred. }
  apply get_set_Ok in Hs. rewrite Hs. simpl.
  destruct (choice_nonempty (randbelow rnd (merges st)) (elements s) Hnil)
    as [mn Hmn].
  rewrite Hmn. simpl. apply choice_Ok, elem_of_elements in Hmn.
  apply get_set_Ok in Hs.
  destruct (merge_merged st serp mn ps s (ti_graph _ _ _ _ Hinv) Ho Hs Hmn)
    as (pn & t & st' & Hm & _).
  eauto.
Qed.

Lemma for_each_visit_safe (order : list nat) (st : serpentines) :
  safe_inv_s st → Forall (λ serp, serp < h * w) order →
  ∃ st', for_each visit_s order st = Ok st' ∧ safe_inv_s st'.
Proof using length_U length_V grid_path total_fails.
  intros Hsafe Horder. revert st Hsafe.
  induction Horder as [|serp order Hserp _ IH]; intros st Hsafe; simpl; [eauto|].
  destruct (visit_safe serp st Hsafe Hserp) as (st1 & -> & Hsafe1). simpl.
  by apply IH.
Qed.

Lemma pass_safe (i : nat) (st : serpentines) :
  safe_inv_s st →
  ∃ st', pass U V threshold minthreshold rnd i st = Ok st' ∧ safe_inv_s st'.
Proof using length_U length_V grid_path total_fails permutations.
  intros Hsafe. apply for_each_visit_safe; [done|].
  apply Forall_forall. intros serp Hserp.
  rewrite permutations in Hserp. apply elem_of_seq in Hserp. lia.
Qed.

Lemma merger_safe (fuel i previous current : nat) (st : serpentines) (e : exn) :
  safe_inv_s st → 0 < h * w →
  merger U V threshold minthreshold rnd (h * w) fuel i previous current st
  ≠ Some (Raise e).
Proof using length_U length_V grid_path total_fails permutations.
  revert i previous current st.
  induction fuel as [|fuel IH]; intros i previous current st Hsafe Hpos; simpl.
  - by case_decide.
  - case_decide; [done|].
    unfold print_iteration. rewrite decide_False by lia. simpl.
    destruct (pass_safe i st Hsafe) as (st' & -> & Hsafe').
    by apply IH.
Qed.

Lemma merger_returns :
  0 < h * w →
  ∃ st, merger U V threshold minthreshold rnd (h * w) (h * w + 2) 0 0 1
               (initial_state false h w) = Some (Ok st).
Proof using length_U length_V grid_path total_fails permutations.
  intros Hpos.
  assert (Hsafe : safe_inv_s (initial_state false h w)).
  { split; [apply initial_trial_inv | apply initial_adj_complete]. }
  destruct (merger_first_pass_enough_fuel U V threshold minthreshold rnd (h * w)
              (h * w + 2) (initial_state false h w)) as [[st|e] Hr].
  - change (pixels (initial_state false h w)) with (initial_pixels false h w).
    destruct (initial_count false h w) as [-> _]. unfold initial_start. lia.
  - eauto.
  - by apply merger_safe in Hr.
Qed.

End Safe.

Lemma count_existent_pos_inv (px : list (option (list nat))) :
  0 < count_existent px → ∃ k ps, px !! k = Some (Some ps).
Proof.
  induction px as [|o px IH]; [unfold count_existent; simpl; lia|].
  rewrite count_existent_cons. destruct o as [ps|]; simpl.
  - intros _. by exists 0, ps.
  - intros (k & ps & Hk)%IH. by exists (S k), ps.
Qed.

Lemma count_existent_ge_two (px : list (option (list nat))) :
  2 ≤ count_existent px →
  ∃ k k' ps ps', k ≠ k' ∧ px !! k = Some (Some ps) ∧ px !! k' = Some (Some ps').
Proof.
  induction px as [|o px IH]; [unfold count_existent; simpl; lia|].
  rewrite count_existent_cons. destruct o as [ps|]; simpl.
  - intros Hc. destruct (count_existent_pos_inv px) as (k' & ps' & Hk'); [lia|].
    by exists 0, (S k'), ps, ps'.
  - intros (k & k' & ps & ps' & Hne & Hk & Hk')%IH.
    exists (S k), (S k'), ps, ps'. split; [lia | done].
Qed.

Lemma existent_lengths (px : list (option (list nat))) (k k' : nat)
    (ps ps' : list nat) :
  k ≠ k' → px !! k = Some (Some ps) → px !! k' = Some (Some ps') →
  length ps + length ps' ≤ length (concat (existent px)).
Proof.
  intros Hne Hk Hk'.
  pose proof (concat_existent_insert px k _ None Hk) as H1.
  assert (H2 : <[k := None]> px !! k' = Some (Some ps'))
    by by rewrite list_lookup_insert_ne.
  apply (concat_existent_insert _ _ _ None) in H2.
  apply Permutation_length in H1, H2.
  rewrite !length_app in H1, H2. simpl in H1, H2. lia.
Qed.

Lemma reachable_adj_complete (U V : list Q) (threshold minthreshold : Q)
    (rnd : draws) (h w : nat) (st : serpentines) :
  reachable U V threshold minthreshold rnd false h w st →
  adj_complete (grid_adj h w) st.
Proof.
  induction 1 as [|serp st st' Hr IH Hv]; [apply initial_adj_complete|].
  eapply visit_adj_complete; [|done..].
  by apply reachable_trial_inv in Hr as [? _ _ _].
Qed.

(** ** The 4 x 4 matrix of ones *)

Lemma snake_4x4_path :
  ∃ path, path ≡ₚ pixel_universe false 4 4 ∧ chain (grid_adj 4 4) path.
Proof.
  exists snake_4x4. split.
  - apply (bool_decide_unpack _). vm_compute. exact I.
  - simpl. repeat split;
      (apply grid_adj_check; [lia | lia | lia | vm_compute; reflexivity]).
Qed.

Lemma ones_region_sum (n : nat) (ps : list nat) (a : Q) :
  (∀ p, p ∈ ps → p < n) →
  region_sum (replicate n 1%Q) ps = Ok a →
  (a == inject_Z (Z.of_nat (length ps)))%Q.
Proof.
  intros Hlt H.
  assert (Hone : ∀ p, p ∈ ps → replicate n 1%Q !! p = Some 1%Q).
  { intros p Hp. apply lookup_replicate_2. auto. }
  assert (Hsum : (sum_at (replicate n 1%Q) ps == inject_Z (Z.of_nat (length ps)))%Q).
  { rewrite (sum_at_const _ ps 1) by done. ring. }
  unfold region_sum in H. destruct ps as [|x [|y ps]].
  - inv_bind H as xs Hxs. injection Hxs as <-. by injection H as <-.
  - apply getitem_Ok in H. rewrite Hone in H by apply list_elem_of_here.
    injection H as <-. reflexivity.
  - inv_bind H as xs Hxs. apply take_items_Ok in Hxs as [-> _].
    injection H as <-. exact Hsum.
Qed.

Lemma log2_one : log2 (fdiv 1 1) = Fin 0%R.
Proof.
  unfold fdiv. replace (Qeq_bool 1 0) with false by reflexivity.
  unfold log2. replace (Qltb 0 (1 / 1)) with true by (vm_compute; reflexivity).
  f_equal. change (1 / 1)%Q with 1%Q.
  replace (Q2R 1) with 1%R by (unfold Q2R; simpl; Lra.lra).
  rewrite ln_1. unfold Rdiv. apply Rmult_0_l.
Qed.

Section Ones.

Variable rnd : draws.
Hypothesis permutations : ∀ i, permutation rnd i ≡ₚ range 16.

Lemma universe_4x4_lt (ps : list nat) :
  ps ⊆ pixel_universe false 4 4 → ∀ p, p ∈ ps → p < 16.
Proof.
  rewrite pixel_universe_full. intros Hsub p Hp.
  apply Hsub, elem_of_seq in Hp. lia.
Qed.

Lemma ones_pred_false_length (ps : list nat) (a b : Q) :
  (∀ p, p ∈ ps → p < 16) →
  region_sum ones16 ps = Ok a → region_sum ones16 ps = Ok b →
  merge_predicate 10 1 a b = false ↔ 10 ≤ length ps.
Proof.
  intros Hlt Ha Hb.
  apply ones_region_sum in Ha, Hb; [|done..].
  rewrite merge_predicate_false, Ha, Hb.
  change 10%Q with (inject_Z 10). change 1%Q with (inject_Z 1).
  rewrite <-!Zle_Qle. lia.
Qed.

Lemma ones_total_fails (ps : list nat) (a b : Q) :
  ps ≡ₚ pixel_universe false 4 4 →
  region_sum ones16 ps = Ok a → region_sum ones16 ps = Ok b →
  merge_predicate 10 1 a b = false.
Proof.
  intros Hperm Ha Hb. apply (ones_pred_false_length ps a b); [|done..|].
  - apply universe_4x4_lt. intros p. by rewrite Hperm.
  - apply Permutation_length in Hperm. rewrite Hperm, length_pixel_universe.
    simpl. lia.
Qed.

Lemma ones_merger_returns :
  ∃ st, merger ones16 ones16 10 1 rnd 16 18 0 0 1 (initial_state false 4 4)
        = Some (Ok st).
Proof using permutations.
  apply (merger_returns ones16 ones16 10 1 rnd 4 4);
    [done | done | apply snake_4x4_path | apply ones_total_fails | done | lia].
Qed.

(** The loop ends with one region that holds the sixteen pixels. *)
Lemma ones_single_region (st : serpentines) :
  merger ones16 ones16 10 1 rnd 16 18 0 0 1 (initial_state false 4 4)
    = Some (Ok st) →
  ∃ ps, existent (pixels st) = [ps] ∧ ps ≡ₚ seq 0 16.
Proof using permutations.
  intros Hm.
  assert (Hr : reachable ones16 ones16 10 1 rnd false 4 4 st).
  { eapply (merger_reachable _ _ _ _ _ false 4 4); [constructor | exact Hm]. }
  pose proof (reachable_trial_inv _ _ _ _ _ _ _ _ _ Hr) as Hinv.
  pose proof (reachable_adj_complete _ _ _ _ _ _ _ _ Hr) as Hadj.
  pose proof (ti_partition _ _ _ _ Hinv) as Hpart.
  assert (Hbig : ∀ k ps, alive st k ps → 10 ≤ length ps).
  { intros k ps Hk.
    destruct (region_in_range 4 4 st k ps Hinv Hk) as (Hnd & Hsub & Hlt).
    destruct (graph_inv_neighs st k ps (ti_graph _ _ _ _ Hinv) Hk) as (s & Hs).
    destruct (region_sum_in_range ones16 ps) as [a Ha]; [done|].
    destruct (merger_converged ones16 ones16 10 1 rnd false 4 4 18 st k ps s a a)
      as [Hpred|Hempty]; try done.
    - by apply (ones_pred_false_length ps a a Hlt Ha Ha).
    - destruct (decide (ps ≡ₚ pixel_universe false 4 4)) as [Hperm|Hproper].
      + apply Permutation_length in Hperm.
        rewrite Hperm, length_pixel_universe. simpl. lia.
      + destruct (proper_region_has_neighbour 4 4 snake_4x4_path st k ps)
          as (s' & Hs' & Hnil); [by split | done | done |].
        assert (s' = s) as -> by congruence. subst s.
        by rewrite elements_empty in Hnil. }
  assert (Hcount : count_existent (pixels st) = 1).
  { destruct (reachable_merges_bound _ _ _ _ _ _ _ _ _ Hr) as [_ Hpos].
    specialize (Hpos ltac:(simpl; lia)).
    destruct (decide (2 ≤ count_existent (pixels st))) as [Htwo|?]; [|lia].
    apply count_existent_ge_two in Htwo as (k & k' & ps & ps' & Hne & Hk & Hk').
    pose proof (existent_lengths _ _ _ _ _ Hne Hk Hk') as Hlen.
    rewrite Hpart, length_pixel_universe in Hlen. simpl in Hlen.
    pose proof (Hbig k ps Hk). pose proof (Hbig k' ps' Hk'). lia. }
  unfold count_existent in Hcount.
  destruct (existent (pixels st)) as [|ps [|ps' l]]; try done.
  exists ps. split; [done|].
  change (seq 0 16) with (seq 0 (4 * 4)).
  rewrite <-(pixel_universe_full 4 4), <-Hpart. simpl. by rewrite app_nil_r.
Qed.

(** The mean of the one region is written into all sixteen entries. *)
Lemma ones_fill (ps : list nat) :
  ps ≡ₚ seq 0 16 →
  ∃ m, fill ones16 ps = Ok (replicate 16 m) ∧ (m == 1)%Q.
Proof.
  intros Hperm.
  assert (Hlt : ∀ p, p ∈ ps → p < 16).
  { intros p Hp. rewrite Hperm in Hp. apply elem_of_seq in Hp. lia. }
  exists (region_mean ones16 ps). split.
  - unfold fill. rewrite take_items_in_range by done.
    cbv beta iota delta [bind]. fold (region_mean ones16 ps). f_equal.
    apply list_eq. intros p.
    destruct (decide (p < 16)) as [Hp|Hp].
    + rewrite lookup_put_items by done.
      rewrite decide_True by (rewrite Hperm; apply elem_of_seq; lia).
      symmetry. by apply lookup_replicate_2.
    + rewrite !lookup_ge_None_2; [done | rewrite length_replicate; lia|].
      rewrite length_put_items. unfold ones16. rewrite length_replicate. lia.
  - unfold region_mean. fold (sum_at ones16 ps).
    rewrite (sum_at_const _ ps 1) by (intros p Hp; apply lookup_replicate_2; auto).
    apply Permutation_length in Hperm. rewrite Hperm, length_seq.
    reflexivity.
Qed.

End Ones.

(** ** The outcome of a visit *)

Lemma universe_in_range (triangular : bool) (size0 size1 p : nat) :
  (triangular = true → size1 = size0) →
  p ∈ pixel_universe triangular size0 size1 → p < size0 * size1.
Proof.
  intros Hsq (row & col & [Hrow Hcol] & ->)%elem_of_pixel_universe.
  unfold pixel_id. destruct triangular.
  - rewrite Hsq by done.
    assert (row * size0 + size0 ≤ size0 * size0); [|lia].
    replace (row * size0 + size0) with (S row * size0) by lia.
    apply Nat.mul_le_mono_r. lia.
  - assert (row * size1 + size1 ≤ size0 * size1); [|lia].
    replace (row * size1 + size1) with (S row * size1) by lia.
    apply Nat.mul_le_mono_r. lia.
Qed.

Section Outcome.

Variables U V : list Q.
Variables threshold minthreshold : Q.
Variable rnd : draws.
Variable triangular : bool.
Variables size0 size1 : nat.

Hypothesis in_range_U : ∀ p, p ∈ pixel_universe triangular size0 size1 → p < length U.
Hypothesis in_range_V : ∀ p, p ∈ pixel_universe triangular size0 size1 → p < length V.

Abbreviation start_o := (initial_start triangular size0 size1).
Abbreviation visit_o := (visit U V threshold minthreshold rnd).
Abbreviation inv_o := (trial_inv triangular size0 size1).
Abbreviation reachable_o :=
  (reachable U V threshold minthreshold rnd triangular size0 size1).

Lemma region_sums_Ok (st : serpentines) (k : nat) (ps : list nat) :
  inv_o st → alive st k ps →
  ∃ a b, region_sum U ps = Ok a ∧ region_sum V ps = Ok b.
Proof using in_range_U in_range_V.
  intros [_ Hp _ _] Hk.
  apply permutation_exact_cover in Hp as (_ & Hsub & _);
    [|apply NoDup_pixel_universe].
  destruct (region_sum_in_range U ps) as [a Ha].
  { intros p Hp. apply in_range_U. by eapply Hsub. }
  destruct (region_sum_in_range V ps) as [b Hb].
  { intros p Hp. apply in_range_V. by eapply Hsub. }
  eauto.
Qed.

Lemma visit_dead (serp : nat) (st : serpentines) :
  pixels st !! serp = Some None → visit_o serp st = Ok st.
Proof. intros H. unfold visit, getitem. by rewrite H. Qed.

Lemma visit_alive (serp : nat) (st : serpentines) (ps : list nat) (a b : Q) :
  alive st serp ps → region_sum U ps = Ok a → region_sum V ps = Ok b →
  visit_o serp st =
  if merge_predicate threshold minthreshold a b then
    let* s := get_set (neighs st) serp in
    let* min_neigh := choice (randbelow rnd (merges st)) (elements s) in
    merge serp min_neigh st
  else Ok st.
Proof.
  intros Hps Ha Hb. unfold visit, getitem. rewrite Hps. simpl.
  by rewrite Ha, Hb.
Qed.

(** A visit of a region index below [start] returns, or raises the
    [IndexError] of [random.choice]; it raises exactly when the region
    satisfies the merge predicate and has no neighbour. *)
Lemma visit_outcome (serp : nat) (st : serpentines) :
  inv_o st → serp < start_o →
  (∃ st', visit_o serp st = Ok st' ∧ ¬ stuck U V threshold minthreshold st serp)
  ∨ (visit_o serp st = Raise IndexError_choice
     ∧ stuck U V threshold minthreshold st serp).
Proof using in_range_U in_range_V.
  intros Hinv Hserp.
  destruct (lookup_lt_is_Some_2 (pixels st) serp) as [o Ho].
  { by rewrite (ti_length _ _ _ _ Hinv). }
  destruct o as [ps|].
  2:{ left. exists st. split; [by apply visit_dead|].
      intros (ps & _ & _ & Hps & _). unfold alive in Hps. congruence. }
  destruct (region_sums_Ok st serp ps Hinv Ho) as (a & b & Ha & Hb).
  rewrite (visit_alive serp st ps a b Ho Ha Hb).
  assert (Hstuck : ∀ s, neighs st !! serp = Some (Some s) →
            stuck U V threshold minthreshold st serp →
            merge_predicate threshold minthreshold a b = true ∧ s = ∅).
  { intros s Hs (ps' & a' & b' & Hps' & Ha' & Hb' & Hpred & Hempty).
    unfold alive in Hps'. assert (ps' = ps) as -> by congruence.
    split; congruence. }
  destruct (graph_inv_neighs st serp ps (ti_graph _ _ _ _ Hinv) Ho) as (s & Hs).
  destruct (merge_predicate threshold minthreshold a b) eqn:Hpred.
  2:{ left. exists st. split; [done|]. intros Hst.
      by destruct (Hstuck s Hs Hst). }
  pose proof Hs as Hs'. apply get_set_Ok in Hs'. rewrite Hs'. simpl.
  destruct (elements s) as [|x l] eqn:Hel.
  - right. rewrite choice_nil. split; [reflexivity|].
    apply elements_empty_inv, leibniz_equiv in Hel. subst s.
    exists ps, a, b. unfold alive. done.
  - left.
    destruct (choice_nonempty (randbelow rnd (merges st)) (x :: l)) as [mn Hmn];
      [done|].
    rewrite Hmn. simpl. apply choice_Ok in Hmn. rewrite <-Hel in Hmn.
    apply elem_of_elements in Hmn.
    destruct (merge_merged st serp mn ps s (ti_graph _ _ _ _ Hinv) Ho Hs Hmn)
      as (pn & t & st' & Hm & _).
    exists st'. split; [done|]. intros Hst.
    destruct (Hstuck s Hs Hst) as [_ ->]. by rewrite elements_empty in Hel.
Qed.


(** The visits of a pass: either all return, or one of them visits a
    region that satisfies the merge predicate and has no neighbour. *)
Lemma for_each_visit_outcome (order : list nat) (st : serpentines) :
  reachable_o st → Forall (λ serp, serp < start_o) order →
  (∃ st', for_each visit_o order st = Ok st' ∧ reachable_o st')
  ∨ (for_each visit_o order st = Raise IndexError_choice
     ∧ ∃ st1 serp, reachable_o st1 ∧ serp ∈ order
                   ∧ stuck U V threshold minthreshold st1 serp).
Proof using in_range_U in_range_V.
  intros Hr Horder. revert st Hr.
  induction Horder as [|serp order Hserp _ IH]; intros st Hr; simpl; [eauto|].
  destruct (visit_outcome serp st (reachable_trial_inv _ _ _ _ _ _ _ _ _ Hr) Hserp)
    as [(st1 & Hv & _)|[Hv Hst]].
  - rewrite Hv. simpl.
    destruct (IH st1) as [?|(? & st2 & serp2 & ? & ? & ?)].
    + by eapply reachable_visit.
    + by left.
    + right. split; [done|]. exists st2, serp2.
      split; [done|]. split; [by apply list_elem_of_further | done].
  - right. rewrite Hv. split; [done|]. exists st, serp.
    split; [done|]. split; [apply list_elem_of_here | done].
Qed.

Hypothesis permutations : ∀ i, permutation rnd i ≡ₚ range start_o.

Lemma permutation_in_range (i : nat) :
  Forall (λ serp, serp < start_o) (permutation rnd i).
Proof using permutations.
  apply Forall_forall. intros serp Hserp.
  rewrite permutations in Hserp. apply elem_of_seq in Hserp. lia.
Qed.

Lemma merger_outcome (fuel i previous current : nat) (st : serpentines)
    (r : result serpentines) :
  0 < start_o → reachable_o st →
  merger U V threshold minthreshold rnd start_o fuel i previous current st = Some r →
  (∃ st', r = Ok st' ∧ reachable_o st')
  ∨ (r = Raise IndexError_choice
     ∧ ∃ st1 serp, reachable_o st1 ∧ serp < start_o
                   ∧ stuck U V threshold minthreshold st1 serp).
Proof using in_range_U in_range_V permutations.
  intros Hpos. revert i previous current st.
  induction fuel as [|fuel IH]; intros i previous current st Hr; simpl.
  - case_decide; [|done]. intros [= <-]. eauto.
  - case_decide; [intros [= <-]; eauto|].
    unfold print_iteration. rewrite decide_False by lia. simpl.
    destruct (for_each_visit_outcome (permutation rnd i) st Hr
                (permutation_in_range i))
      as [(st1 & Hp & Hr1)|(Hp & st1 & serp & Hr1 & Hin & Hst)];
      unfold pass; rewrite Hp.
    + by apply IH.
    + intros [= <-]. right. split; [done|]. exists st1, serp.
      split; [done|]. split; [|done].
      pose proof (permutation_in_range i) as Hall.
      rewrite Forall_forall in Hall. by apply Hall.
Qed.

End Outcome.

(** The means are written without exception when the regions are in
    range. *)
Lemma fill_in_range (W : list Q) (serp : list nat) :
  (∀ p, p ∈ serp → p < length W) →
  fill W serp = Ok (put_items W serp (region_mean W serp)).
Proof.
  intros Hlt. unfold fill. by rewrite take_items_in_range.
Qed.

Lemma mean_fill_in_range (pix : list (list nat)) (UV : list Q * list Q) :
  (∀ ps p, ps ∈ pix → p ∈ ps → p < length UV.1 ∧ p < length UV.2) →
  ∃ UV', mean_fill pix UV = Ok UV'.
Proof.
  revert UV. induction pix as [|ps pix IH]; intros [U V] Hlt; simpl; [eauto|].
  unfold mean_fill. simpl.
  rewrite !fill_in_range by (intros p Hp; by apply (Hlt ps p); [left|]).
  simpl. apply IH. simpl. intros ps' p Hps' Hp.
  rewrite !length_put_items. apply (Hlt ps' p); [by right | done].
Qed.

(** ** The exceptions of a trial *)

Lemma initial_start_zero (triangular : bool) (size0 size1 : nat) :
  (triangular = true → size0 = size1) →
  initial_start triangular size0 size1 = 0 ↔ size0 * size1 = 0.
Proof.
  intros Hsq. unfold initial_start. destruct triangular; [|done].
  rewrite <-Hsq by done. destruct size0 as [|n]; [done|].
  split; [|lia]. intros H. exfalso.
  assert (1 ≤ S n * (S n + 1) / 2); [|lia].
  apply Nat.div_le_lower_bound; lia.
Qed.

Lemma validated_in_range (A B : ndarray Q) (threshold minthreshold : Q)
    (triangular : bool) (size0 size1 : nat) :
  wf_ndarray A → wf_ndarray B →
  validate A B threshold minthreshold triangular = Ok (size0, size1) →
  length (data A) = size0 * size1 ∧ length (data B) = size0 * size1
  ∧ (triangular = true → size0 = size1)
  ∧ ∀ p, p ∈ pixel_universe triangular size0 size1 →
         p < length (data A) ∧ p < length (data B).
Proof.
  intros HA HB (HsA & HsB & _ & Hsq)%validate_Ok.
  unfold wf_ndarray in *. rewrite HsB, HsA in HB. rewrite HsA in HA.
  simpl in HA, HB.
  assert (length (data A) = size0 * size1) as HlA by lia.
  assert (length (data B) = size0 * size1) as HlB by lia.
  repeat split; try done; rewrite ?HlA, ?HlB;
    (eapply universe_in_range; [|done]); intros Ht; by rewrite Hsq.
Qed.

Lemma reachable_in_range (U V : list Q) (threshold minthreshold : Q) (rnd : draws)
    (triangular : bool) (size0 size1 : nat) (st : serpentines) (k : nat)
    (ps : list nat) (p : nat) :
  reachable U V threshold minthreshold rnd triangular size0 size1 st →
  alive st k ps → p ∈ ps → p ∈ pixel_universe triangular size0 size1.
Proof.
  intros (_ & Hsub & _)%reachable_exact_cover Hk Hp. by eapply Hsub.
Qed.

(** ** Adjacency in both modes *)

Lemma universe_adj_sym (triangular : bool) (size0 size1 p q : nat) :
  universe_adj triangular size0 size1 p q → universe_adj triangular size0 size1 q p.
Proof.
  destruct triangular; [|apply grid_adj_sym].
  intros ([i j] & c' & Hc & Hc' & -> & -> & Hnb).
  apply elem_of_lower_pairs in Hc. simpl in *.
  apply pixel_neighs_triangular_sym in Hnb as (_ & _ & Hnb); [|lia..].
  exists c', (i, j). repeat split; try done. by apply elem_of_lower_pairs.
Qed.

Lemma universe_adj_universe (triangular : bool) (size0 size1 p q : nat) :
  universe_adj triangular size0 size1 p q →
  p ∈ pixel_universe triangular size0 size1
  ∧ q ∈ pixel_universe triangular size0 size1.
Proof.
  unfold universe_adj, grid_adj, pixel_universe.
  destruct triangular; intros (c & c' & Hc & Hc' & -> & -> & _);
    split; apply list_elem_of_fmap; eauto.
Qed.

Lemma initial_universe_adj_complete (triangular : bool) (size0 size1 : nat) :
  adj_complete (universe_adj triangular size0 size1)
               (initial_state triangular size0 size1).
Proof.
  destruct triangular; [|apply initial_adj_complete].
  rewrite initial_state_cells. apply graph_of_cells_adj_complete.
  - apply NoDup_lower_pairs.
  - intros [i j] Hp. apply elem_of_lower_pairs in Hp. simpl in *.
    apply lookup_lower_pairs; lia.
  - intros [i j] [i' j'] Hc Hc' Heq.
    apply elem_of_lower_pairs in Hc, Hc'. simpl in *.
    apply flat_index_inj in Heq as [-> ->]; [done|lia..].
Qed.

Lemma reachable_universe_adj_complete (U V : list Q) (threshold minthreshold : Q)
    (rnd : draws) (triangular : bool) (size0 size1 : nat) (st : serpentines) :
  reachable U V threshold minthreshold rnd triangular size0 size1 st →
  adj_complete (universe_adj triangular size0 size1) st.
Proof.
  induction 1 as [|serp st st' Hr IH Hv]; [apply initial_universe_adj_complete|].
  eapply visit_adj_complete; [|done..].
  by apply reachable_trial_inv in Hr as [? _ _ _].
Qed.

(** A pixel is adjacent to the one on its left, and a pixel of the
    first column to the one above it. *)
Lemma universe_adj_left (triangular : bool) (size0 size1 row col : nat) :
  in_universe triangular size0 size1 row (S col) →
  universe_adj triangular size0 size1
    (pixel_id triangular size0 size1 row (S col))
    (pixel_id triangular size0 size1 row col).
Proof.
  intros [Hrow Hcol].
  destruct triangular; exists (row, S col), (row, col);
    rewrite ?elem_of_lower_pairs, ?elem_of_product; simpl;
    (repeat split; [lia..|]).
  - apply pixel_neighs_triangular_spec. right. right. left.
    split; [f_equal; lia | lia].
  - apply pixel_neighs_spec. right. right. left.
    split; [f_equal; lia | lia].
Qed.

Lemma universe_adj_up (triangular : bool) (size0 size1 row : nat) :
  in_universe triangular size0 size1 (S row) 0 →
  universe_adj triangular size0 size1
    (pixel_id triangular size0 size1 (S row) 0)
    (pixel_id triangular size0 size1 row 0).
Proof.
  intros [Hrow Hcol].
  destruct triangular; exists (S row, 0), (row, 0);
    rewrite ?elem_of_lower_pairs, ?elem_of_product; simpl;
    (repeat split; [lia..|]).
  - apply pixel_neighs_triangular_spec. left.
    split; [f_equal; lia | lia].
  - apply pixel_neighs_spec. left.
    split; [f_equal; lia | lia].
Qed.

(** Every pixel is joined to pixel 0 by a path of adjacent pixels:
    along its row to the first column, then up. *)
Lemma origin_chain (triangular : bool) (size0 size1 row col : nat) :
  in_universe triangular size0 size1 row col →
  ∃ l, chain (universe_adj triangular size0 size1)
             (pixel_id triangular size0 size1 row col :: l)
       ∧ 0 ∈ pixel_id triangular size0 size1 row col :: l.
Proof.
  induction col as [|col IH].
  - induction row as [|row IH]; intros Hin.
    + exists []. split; [done|]. unfold pixel_id.
      destruct triangular; apply list_elem_of_here.
    + destruct IH as (l & Hch & H0).
      { destruct Hin as [? Hc]. split; [lia|]. by destruct triangular; lia. }
      exists (pixel_id triangular size0 size1 row 0 :: l). split.
      * split; [by apply universe_adj_up | done].
      * by apply list_elem_of_further.
  - intros Hin. destruct IH as (l & Hch & H0).
    { destruct Hin as [? Hc]. split; [lia|]. by destruct triangular; lia. }
    exists (pixel_id triangular size0 size1 row col :: l). split.
    + split; [by apply universe_adj_left | done].
    + by apply list_elem_of_further.
Qed.

(** A region that does not hold every pixel has a neighbour. *)
Lemma region_has_neighbour (triangular : bool) (size0 size1 : nat)
    (st : serpentines) (k : nat) (ps : list nat) :
  trial_inv triangular size0 size1 st →
  adj_complete (universe_adj triangular size0 size1) st →
  alive st k ps →
  ¬ ps ≡ₚ pixel_universe triangular size0 size1 →
  ∃ s j, neighs st !! k = Some (Some s) ∧ j ∈ s.
Proof.
  intros Hinv [Hne Hadj] Hk Hproper.
  pose proof (ti_partition _ _ _ _ Hinv) as Hperm.
  apply permutation_exact_cover in Hperm as (Hcov & Hsub & Hnd);
    [|apply NoDup_pixel_universe].
  (* a pixel inside and a pixel outside the region *)
  assert (∃ p, p ∈ ps) as [p Hp].
  { destruct ps as [|p ps']; [by destruct (Hne k [] Hk)|].
    exists p. apply list_elem_of_here. }
  assert (∃ q, q ∈ pixel_universe triangular size0 size1 ∧ q ∉ ps) as (q & Hq & Hqn).
  { destruct (decide (Forall (λ p, p ∈ ps) (pixel_universe triangular size0 size1)))
      as [Hall|Hnot].
    - destruct Hproper. apply NoDup_Permutation;
        [by eapply Hnd | apply NoDup_pixel_universe|].
      intros x. split; [apply (Hsub k ps x Hk)|]. revert x. by apply Forall_forall.
    - apply not_Forall_Exists, Exists_exists in Hnot; [|intros x; apply _].
      done. }
  (* the path from one of them to pixel 0 leaves or enters the region *)
  assert (∃ l, chain (universe_adj triangular size0 size1) l
               ∧ (∃ x, x ∈ l ∧ x ∈ ps) ∧ (∃ y, y ∈ l ∧ y ∉ ps))
    as (l & Hch & Hin & Hout).
  { destruct (decide (0 ∈ ps)) as [H0|H0].
    - apply elem_of_pixel_universe in Hq as (row & col & Hrc & ->).
      destruct (origin_chain triangular size0 size1 row col Hrc) as (l & Hch & Hl).
      exists (pixel_id triangular size0 size1 row col :: l).
      split; [done|]. split; [by exists 0|].
      eexists. split; [apply list_elem_of_here | done].
    - apply (Hsub k ps p Hk) in Hp as Hpu.
      apply elem_of_pixel_universe in Hpu as (row & col & Hrc & ->).
      destruct (origin_chain triangular size0 size1 row col Hrc) as (l & Hch & Hl).
      exists (pixel_id triangular size0 size1 row col :: l).
      split; [done|]. split; [|by exists 0].
      eexists. split; [apply list_elem_of_here | done]. }
  destruct (chain_crossing (universe_adj triangular size0 size1) (λ p, p ∈ ps) l)
    as (a & b & _ & _ & Ha & Hb & Hab); [apply universe_adj_sym | done..|].
  destruct (universe_adj_universe _ _ _ _ _ Hab) as [_ Hbu].
  destruct (Hcov b Hbu) as (k' & ps' & Hk' & Hb' & _).
  assert (Hkk : k ≠ k').
  { intros ->. unfold alive in *. congruence. }
  destruct (Hadj k k' ps ps' a b Hk Hk' Hkk Ha Hb' Hab) as (s & Hs & Hin').
  eauto.
Qed.

(** A region that holds every pixel is the only one, and has no
    neighbour. *)
Lemma whole_region_alone (triangular : bool) (size0 size1 : nat)
    (st : serpentines) (k : nat) (ps : list nat) :
  trial_inv triangular size0 size1 st →
  (∀ k ps, alive st k ps → ps ≠ []) →
  alive st k ps →
  ps ≡ₚ pixel_universe triangular size0 size1 →
  neighs st !! k = Some (Some ∅)
  ∧ ∀ k' ps', alive st k' ps' → k' = k.
Proof.
  intros Hinv Hne Hk Hall.
  assert (Honly : ∀ k' ps', alive st k' ps' → k' = k).
  { intros k' ps' Hk'. destruct (decide (k' = k)) as [|Hkk]; [done|].
    pose proof (existent_lengths (pixels st) k' k ps' ps Hkk Hk' Hk) as Hlen.
    rewrite (ti_partition _ _ _ _ Hinv), <-Hall in Hlen.
    destruct ps' as [|x ps']; [by destruct (Hne k' [] Hk')|]. simpl in Hlen. lia. }
  split; [|done].
  destruct (graph_inv_neighs st k ps (ti_graph _ _ _ _ Hinv) Hk) as (s & Hs).
  rewrite Hs. do 2 f_equal. apply leibniz_equiv, elem_of_equiv_empty.
  intros j Hj.
  destruct (inv_neigh st (ti_graph _ _ _ _ Hinv) k s j Hs Hj) as (Hjk & t & Ht & _).
  destruct (graph_inv_pixels st j t (ti_graph _ _ _ _ Hinv) Ht) as (pj & Hpj).
  by apply Honly in Hpj.
Qed.

(** ** Sums of regions *)

Lemma region_sum_sum_at (W : list Q) (ps : list nat) (a : Q) :
  region_sum W ps = Ok a → (a == sum_at W ps)%Q.
Proof.
  unfold region_sum, sum_at. destruct ps as [|x [|y ps]].
  - simpl. by intros [= <-].
  - intros Hx%getitem_Ok. simpl. rewrite Hx. simpl. Lqa.lra.
  - intros H. inv_bind H as xs Hxs. injection H as <-.
    apply take_items_Ok in Hxs as [-> _]. reflexivity.
Qed.

Lemma merge_predicate_proper (threshold minthreshold a a' b b' : Q) :
  (a == a')%Q → (b == b')%Q →
  merge_predicate threshold minthreshold a b
  = merge_predicate threshold minthreshold a' b'.
Proof.
  intros Ha Hb. unfold merge_predicate.
  by rewrite (Qltb_proper a a' threshold threshold),
    (Qltb_proper b b' threshold threshold),
    (Qltb_proper a a' minthreshold minthreshold),
    (Qltb_proper b b' minthreshold minthreshold).
Qed.

(** A region that satisfies the merge predicate and has no neighbour
    holds every pixel, and the sums over all pixels satisfy the
    predicate. *)
Lemma stuck_total (U V : list Q) (threshold minthreshold : Q) (rnd : draws)
    (triangular : bool) (size0 size1 : nat) (st : serpentines) (serp : nat) :
  reachable U V threshold minthreshold rnd triangular size0 size1 st →
  stuck U V threshold minthreshold st serp →
  merge_predicate threshold minthreshold
    (sum_at U (pixel_universe triangular size0 size1))
    (sum_at V (pixel_universe triangular size0 size1)) = true.
Proof.
  intros Hr (ps & a & b & Hps & Ha & Hb & Hpred & Hs).
  destruct (decide (ps ≡ₚ pixel_universe triangular size0 size1)) as [Hall|Hproper].
  - rewrite <-Hpred. symmetry. apply merge_predicate_proper.
    + rewrite (region_sum_sum_at U ps a Ha). by apply sum_at_Permutation.
    + rewrite (region_sum_sum_at V ps b Hb). by apply sum_at_Permutation.
  - destruct (region_has_neighbour triangular size0 size1 st serp ps)
      as (s & j & Hs' & Hj); [by eapply reachable_trial_inv
                             |by eapply reachable_universe_adj_complete|done..|].
    rewrite Hs in Hs'. injection Hs' as <-. set_solver.
Qed.

(** The exceptions of a trial after a passed validation. *)
Lemma serpentin_iteration_Raise (A B : ndarray Q) (threshold minthreshold : Q)
    (triangular : bool) (rnd : draws) (size0 size1 : nat) (e : exn) :
  wf_ndarray A → wf_ndarray B →
  validate A B threshold minthreshold triangular = Ok (size0, size1) →
  (∀ i, permutation rnd i ≡ₚ range (initial_start triangular size0 size1)) →
  serpentin_iteration A B threshold minthreshold triangular rnd = Some (Raise e) →
  (e = ZeroDivisionError ∧ size0 * size1 = 0)
  ∨ (e = IndexError_choice ∧ 0 < size0 * size1
     ∧ ∃ st serp,
         reachable (data A) (data B) threshold minthreshold rnd
                   triangular size0 size1 st
         ∧ serp < initial_start triangular size0 size1
         ∧ stuck (data A) (data B) threshold minthreshold st serp).
Proof.
  intros HA HB Hval Hperm.
  destruct (validated_in_range A B _ _ _ _ _ HA HB Hval) as (HlA & HlB & Hsq & Hin).
  pose proof (initial_start_zero triangular size0 size1 Hsq) as Hzero.
  unfold serpentin_iteration. rewrite Hval.
  destruct (decide (initial_start triangular size0 size1 = 0)) as [H0|H0].
  - rewrite H0. simpl. unfold print_iteration. simpl.
    intros [= <-]. left. split; [done|]. by apply Hzero.
  - destruct (merger _ _ _ _ _ _ _ _ _ _ _) as [r|] eqn:Hm; [|done].
    apply merger_outcome in Hm; [|by intros; apply Hin..|done|lia|constructor].
    destruct Hm as [(st & -> & Hr)|(-> & st & serp & Hr & Hserp & Hst)].
    + unfold print_iteration. rewrite decide_False by done. simpl.
      destruct (mean_fill_in_range (existent (pixels st)) (data A, data B))
        as [UV ->]; [|done].
      intros ps p (k & Hk)%elem_of_existent Hp. simpl. apply Hin.
      by eapply reachable_in_range.
    + intros [= <-]. right. split; [done|]. split; [lia|]. eauto.
Qed.

Lemma count_existent_one (px : list (option (list nat))) (k : nat) (ps : list nat) :
  px !! k = Some (Some ps) →
  count_existent px = 1 ↔ ∀ k' ps', px !! k' = Some (Some ps') → k' = k.
Proof.
  intros Hk. split.
  - intros Hc k' ps' Hk'. destruct (decide (k' = k)) as [|Hne]; [done|].
    pose proof (count_existent_two px k' k ps' ps Hne Hk' Hk). lia.
  - intros Honly. pose proof (count_existent_pos px k ps Hk).
    destruct (decide (2 ≤ count_existent px)) as [H2|]; [|lia].
    apply count_existent_ge_two in H2 as (k1 & k2 & p1 & p2 & Hne & H1 & H2).
    apply Honly in H1, H2. congruence.
Qed.

Lemma only_region_whole (triangular : bool) (size0 size1 : nat)
    (st : serpentines) (k : nat) (ps : list nat) :
  trial_inv triangular size0 size1 st →
  alive st k ps →
  (∀ k' ps', alive st k' ps' → k' = k) →
  ps ≡ₚ pixel_universe triangular size0 size1.
Proof.
  intros Hinv Hk Honly.
  pose proof (ti_partition _ _ _ _ Hinv) as Hperm.
  apply permutation_exact_cover in Hperm as (Hcov & Hsub & Hnd);
    [|apply NoDup_pixel_universe].
  apply NoDup_Permutation; [by eapply Hnd | apply NoDup_pixel_universe|].
  intros p. split; [apply (Hsub k ps p Hk)|].
  intros (k' & ps' & Hk' & Hp & _)%Hcov.
  pose proof (Honly k' ps' Hk') as ->. unfold alive in *. congruence.
Qed.

(** ** Neighbours touch *)

Lemma merged_alive_serp (st : serpentines) (serp mn : nat) (ps pn : list nat)
    (s t : gset nat) (st' : serpentines) :
  merged st serp mn ps pn s t st' → alive st' serp (ps ++ pn).
Proof.
  intros Hm. unfold alive. rewrite (mg_pixels _ _ _ _ _ _ _ _ Hm).
  pose proof (mg_ne _ _ _ _ _ _ _ _ Hm).
  rewrite list_lookup_insert_ne by done.
  apply list_lookup_insert_eq.
  eapply lookup_lt_Some, (mg_serp_pixels _ _ _ _ _ _ _ _ Hm).
Qed.

Lemma merged_alive_other (st : serpentines) (serp mn : nat) (ps pn : list nat)
    (s t : gset nat) (st' : serpentines) (j : nat) (pj : list nat) :
  merged st serp mn ps pn s t st' →
  j ≠ serp → j ≠ mn → alive st j pj → alive st' j pj.
Proof.
  intros Hm Hjs Hjm. unfold alive. rewrite (mg_pixels _ _ _ _ _ _ _ _ Hm).
  by rewrite !list_lookup_insert_ne.
Qed.

(** A region that touched [serp] or [mn] touches the merged region,
    and the regions that are not merged touch as before. *)
Lemma merged_touch (adj : nat → nat → Prop) (st : serpentines)
    (serp mn : nat) (ps pn : list nat) (s t : gset nat) (st' : serpentines)
    (k j : nat) :
  merged st serp mn ps pn s t st' →
  k ≠ mn → k ≠ serp → j ≠ k →
  (∃ pk pj p q, alive st k pk ∧ alive st j pj ∧ p ∈ pk ∧ q ∈ pj ∧ adj p q) →
  ∃ pk pj p q,
    alive st' k pk ∧ alive st' (if decide (j = mn) then serp else j) pj
    ∧ p ∈ pk ∧ q ∈ pj ∧ adj p q.
Proof.
  intros Hm Hkm Hks Hjk (pk & pj & p & q & Hk & Hj & Hp & Hq & Hpq).
  pose proof (mg_serp_pixels _ _ _ _ _ _ _ _ Hm) as Hps.
  pose proof (mg_mn_pixels _ _ _ _ _ _ _ _ Hm) as Hpn.
  pose proof (merged_alive_serp _ _ _ _ _ _ _ _ Hm) as Hserp'.
  pose proof (merged_alive_other _ _ _ _ _ _ _ _ k pk Hm Hks Hkm Hk) as Hk'.
  unfold alive in *. case_decide as Hjm.
  - subst j. assert (pj = pn) as -> by congruence.
    exists pk, (ps ++ pn), p, q. repeat split; try done.
    apply elem_of_app. by right.
  - destruct (decide (j = serp)) as [->|Hjs].
    + assert (pj = ps) as -> by congruence.
      exists pk, (ps ++ pn), p, q. repeat split; try done.
      apply elem_of_app. by left.
    + exists pk, pj, p, q. repeat split; try done.
      by apply (merged_alive_other _ _ _ _ _ _ _ _ j pj Hm).
Qed.

Lemma merged_adj_sound (adj : nat → nat → Prop) (st : serpentines)
    (serp mn : nat) (ps pn : list nat) (s t : gset nat) (st' : serpentines) :
  (∀ p q, adj p q → adj q p) →
  graph_inv st → adj_sound adj st → merged st serp mn ps pn s t st' →
  adj_sound adj st'.
Proof.
  intros Hsym Hinv Hsound Hm k u' j Hk' Hj.
  pose proof (mg_serp_pixels _ _ _ _ _ _ _ _ Hm) as Hps.
  pose proof (mg_mn_pixels _ _ _ _ _ _ _ _ Hm) as Hpn.
  pose proof (mg_serp_neighs _ _ _ _ _ _ _ _ Hm) as Hs.
  pose proof (mg_mn_neighs _ _ _ _ _ _ _ _ Hm) as Ht.
  pose proof (mg_ne _ _ _ _ _ _ _ _ Hm) as Hmn.
  pose proof (merged_alive_serp _ _ _ _ _ _ _ _ Hm) as Hserp'.
  (* the pairs that touch, seen from the other side *)
  assert (Hflip : ∀ a b,
            (∃ pa pb p q, alive st' a pa ∧ alive st' b pb ∧ p ∈ pa ∧ q ∈ pb ∧ adj p q) →
            ∃ pb pa q p, alive st' b pb ∧ alive st' a pa ∧ q ∈ pb ∧ p ∈ pa ∧ adj q p).
  { intros a b (pa & pb & p & q & ? & ? & ? & ? & ?).
    exists pb, pa, q, p. repeat split; try done. by apply Hsym. }
  destruct (decide (k = mn)) as [->|Hkm].
  { rewrite (mg_at_mn _ _ _ _ _ _ _ _ Hm) in Hk'. done. }
  destruct (decide (k = serp)) as [->|Hks].
  - rewrite (mg_at_serp _ _ _ _ _ _ _ _ Hm) in Hk'. injection Hk' as <-.
    apply elem_of_union in Hj as [Hj|Hj]; apply elem_of_difference in Hj as [Hj Hjn];
      rewrite elem_of_singleton in Hjn.
    + destruct (inv_neigh st Hinv serp s j Hs Hj) as (Hjs & tj & Htj & Hin).
      apply Hflip.
      pose proof (merged_touch adj st serp mn ps pn s t st' j serp Hm Hjn Hjs) as Ht'.
      rewrite decide_False in Ht' by done. apply Ht'; [done|].
      by apply (Hsound j tj serp).
    + destruct (inv_neigh st Hinv mn t j Ht Hj) as (Hjm & tj & Htj & Hin).
      apply Hflip.
      pose proof (merged_touch adj st serp mn ps pn s t st' j mn Hm Hjm Hjn) as Ht'.
      rewrite decide_True in Ht' by done. apply Ht'; [done|].
      by apply (Hsound j tj mn).
  - assert (∃ u, neighs st !! k = Some (Some u)
                 ∧ (j ∈ u ∧ j ≠ mn ∨ j = serp ∧ mn ∈ u)) as (u & Hu & Hcase).
    { destruct (decide (k ∈ t)) as [Hkt|Hkt].
      - destruct (inv_neigh st Hinv mn t k Ht Hkt) as (_ & u & Hu & Hin).
        rewrite (mg_at_linked _ _ _ _ _ _ _ _ Hm k u Hks Hkm Hkt Hu) in Hk'.
        injection Hk' as <-. exists u. split; [done|]. set_solver.
      - rewrite (mg_at_other _ _ _ _ _ _ _ _ Hm k Hks Hkm Hkt) in Hk'.
        exists u'. split; [done|]. left. split; [done|]. intros ->.
        destruct (inv_neigh st Hinv k u' mn Hk' Hj) as (_ & t' & Ht' & ?).
        congruence. }
    destruct Hcase as [[Hju Hjm]|[-> Hin]].
    + destruct (inv_neigh st Hinv k u j Hu Hju) as (Hjk & _).
      pose proof (merged_touch adj st serp mn ps pn s t st' k j Hm Hkm Hks Hjk) as Ht'.
      rewrite decide_False in Ht' by done. apply Ht'.
      by apply (Hsound k u j).
    + pose proof (merged_touch adj st serp mn ps pn s t st' k mn Hm Hkm Hks) as Ht'.
      rewrite decide_True in Ht' by done. apply Ht'; [done|].
      by apply (Hsound k u mn).
Qed.

Lemma visit_adj_sound (adj : nat → nat → Prop) (U V : list Q)
    (threshold minthreshold : Q) (rnd : draws) (serp : nat) (st st' : serpentines) :
  (∀ p q, adj p q → adj q p) →
  graph_inv st → adj_sound adj st →
  visit U V threshold minthreshold rnd serp st = Ok st' →
  adj_sound adj st'.
Proof.
  intros Hsym Hinv Hadj H. apply visit_Ok in H as [->|H]; [done|].
  destruct H as (ps & a & b & s & mn & Hps & _ & _ & _ & Hs & Hmn & Hm).
  destruct (merge_merged st serp mn ps s Hinv Hps Hs Hmn) as (pn & t & st2 & Hm2 & Hmg).
  assert (st2 = st') as -> by congruence.
  by eapply merged_adj_sound.
Qed.

Lemma graph_of_cells_adj_sound (cells : list (nat * nat))
    (pix idx : nat * nat → nat) (nb : nat * nat → list (nat * nat)) :
  (∀ p, p ∈ cells → cells !! idx p = Some p) →
  (∀ p q, p ∈ cells → q ∈ nb p → q ∈ cells) →
  adj_sound (cells_adj cells pix nb) (graph_of_cells cells pix idx nb).
Proof.
  intros Hidx Hnb k s j (c & Hc & ->)%graph_of_cells_neighs Hj.
  apply elem_of_list_to_set, list_elem_of_fmap in Hj as (c' & -> & Hc').
  assert (Hcc : c ∈ cells) by by eapply list_elem_of_lookup_2.
  assert (Hcc' : c' ∈ cells) by by eapply Hnb.
  exists [pix c], [pix c'], (pix c), (pix c'). unfold alive. simpl.
  rewrite !list_lookup_fmap, Hc, (Hidx c' Hcc'). simpl.
  repeat split; try apply list_elem_of_here.
  by exists c, c'.
Qed.

Lemma initial_universe_adj_sound (triangular : bool) (size0 size1 : nat) :
  adj_sound (universe_adj triangular size0 size1)
            (initial_state triangular size0 size1).
Proof.
  rewrite initial_state_cells. destruct triangular.
  - apply graph_of_cells_adj_sound.
    + intros [i j] Hp. apply elem_of_lower_pairs in Hp. simpl in *.
      apply lookup_lower_pairs; lia.
    + intros [i j] q Hp Hq. apply elem_of_lower_pairs in Hp. simpl in *.
      apply pixel_neighs_triangular_sym in Hq as (Hq & _); [|lia..].
      by apply elem_of_lower_pairs.
  - apply graph_of_cells_adj_sound.
    + intros [i j] Hp. apply elem_of_product in Hp. simpl in *.
      apply lookup_product; lia.
    + intros [i j] q Hp Hq. apply elem_of_product in Hp. simpl in *.
      apply pixel_neighs_sym in Hq as (Hq & _); [|lia..].
      by apply elem_of_product.
Qed.

Lemma reachable_universe_adj_sound (U V : list Q) (threshold minthreshold : Q)
    (rnd : draws) (triangular : bool) (size0 size1 : nat) (st : serpentines) :
  reachable U V threshold minthreshold rnd triangular size0 size1 st →
  adj_sound (universe_adj triangular size0 size1) st.
Proof.
  induction 1 as [|serp st st' Hr IH Hv]; [apply initial_universe_adj_sound|].
  eapply visit_adj_sound; [apply universe_adj_sym | |done..].
  by apply reachable_trial_inv in Hr as [? _ _ _].
Qed.

(** ** Regions are connected *)

Lemma connected_singleton (adj : nat → nat → Prop) (p : nat) : connected adj [p].
Proof.
  intros x y Hx%list_elem_of_singleton Hy%list_elem_of_singleton. subst.
  apply rtc_refl.
Qed.

Lemma connected_app (adj : nat → nat → Prop) (ps pn : list nat) (p0 q0 : nat) :
  (∀ p q, adj p q → adj q p) →
  connected adj ps → connected adj pn →
  p0 ∈ ps → q0 ∈ pn → adj p0 q0 →
  connected adj (ps ++ pn).
Proof.
  intros Hsym Hps Hpn Hp0 Hq0 Hpq.
  assert (Hl : ∀ x y, x ∈ ps → y ∈ ps →
                 rtc (λ x y, adj x y ∧ y ∈ ps ++ pn) x y).
  { intros x y Hx Hy. eapply rtc_subrel; [|by apply Hps].
    intros a b [? ?]. split; [done|]. apply elem_of_app. by left. }
  assert (Hr : ∀ x y, x ∈ pn → y ∈ pn →
                 rtc (λ x y, adj x y ∧ y ∈ ps ++ pn) x y).
  { intros x y Hx Hy. eapply rtc_subrel; [|by apply Hpn].
    intros a b [? ?]. split; [done|]. apply elem_of_app. by right. }
  intros x y [Hx|Hx]%elem_of_app [Hy|Hy]%elem_of_app.
  - by apply Hl.
  - etrans; [by apply (Hl x p0)|].
    eapply rtc_l; [|by apply (Hr q0 y)].
    split; [done|]. apply elem_of_app. by right.
  - etrans; [by apply (Hr x q0)|].
    eapply rtc_l; [|by apply (Hl p0 y)].
    split; [by apply Hsym|]. apply elem_of_app. by left.
  - by apply Hr.
Qed.

Lemma visit_connected (adj : nat → nat → Prop) (U V : list Q)
    (threshold minthreshold : Q) (rnd : draws) (serp : nat) (st st' : serpentines) :
  (∀ p q, adj p q → adj q p) →
  graph_inv st → adj_sound adj st →
  (∀ k ps, alive st k ps → connected adj ps) →
  visit U V threshold minthreshold rnd serp st = Ok st' →
  ∀ k ps, alive st' k ps → connected adj ps.
Proof.
  intros Hsym Hinv Hsound Hconn H. apply visit_Ok in H as [->|H]; [done|].
  destruct H as (ps & a & b & s & mn & Hps & _ & _ & _ & Hs & Hmn & Hm).
  destruct (merge_merged st serp mn ps s Hinv Hps Hs Hmn) as (pn & t & st2 & Hm2 & Hmg).
  assert (st2 = st') as -> by congruence.
  intros k qs Hk.
  destruct (merged_alive _ _ _ _ _ _ _ _ _ _ Hmg Hk) as [[-> ->]|(_ & _ & Hk')];
    [|by eapply Hconn].
  destruct (Hsound serp s mn Hs Hmn) as (ps0 & pn0 & p & q & Hps0 & Hpn0 & Hp & Hq & Hpq).
  pose proof (mg_mn_pixels _ _ _ _ _ _ _ _ Hmg) as Hpn.
  unfold alive in *.
  assert (ps0 = ps) as -> by congruence.
  assert (pn0 = pn) as -> by congruence.
  eapply (connected_app adj ps pn p q); try done; by eapply Hconn.
Qed.

Lemma reachable_connected (U V : list Q) (threshold minthreshold : Q)
    (rnd : draws) (triangular : bool) (size0 size1 : nat) (st : serpentines) :
  reachable U V threshold minthreshold rnd triangular size0 size1 st →
  ∀ k ps, alive st k ps → connected (universe_adj triangular size0 size1) ps.
Proof.
  induction 1 as [|serp st st' Hr IH Hv].
  - intros k ps. unfold alive, initial_state, initial_pixels. simpl.
    destruct triangular; rewrite list_lookup_fmap;
      (destruct (_ !! k) as [c|]; simpl; [|done]);
      intros [= <-]; apply connected_singleton.
  - eapply visit_connected; [apply universe_adj_sym | | |done..].
    + by apply reachable_trial_inv in Hr as [? _ _ _].
    + by eapply reachable_universe_adj_sound.
Qed.

(** ** The mean of each region *)

Lemma elem_of_concat {X : Type} (x : X) (ls : list (list X)) :
  x ∈ concat ls ↔ ∃ l, l ∈ ls ∧ x ∈ l.
Proof.
  induction ls as [|l ls IH]; simpl.
  - split; [by intros ?%elem_of_nil|]. by intros (l & ?%elem_of_nil & _).
  - rewrite elem_of_app, IH. split.
    + intros [Hx|(l' & Hl' & Hx)]; [exists l | exists l'];
        (split; [|done]); [apply list_elem_of_here | by apply list_elem_of_further].
    + intros (l' & [->|Hl']%elem_of_cons & Hx); [by left | right; eauto].
Qed.

Lemma lookup_put_items_notin (W : list Q) (idx : list nat) (m : Q) (p : nat) :
  p ∉ idx → put_items W idx m !! p = W !! p.
Proof.
  induction idx as [|i idx IH]; [done|].
  intros [Hpi Hp]%not_elem_of_cons. unfold put_items in *. simpl.
  rewrite list_lookup_insert_ne by done. by apply IH.
Qed.

Lemma fill_lookup (W W' : list Q) (serp : list nat) (p : nat) :
  fill W serp = Ok W' →
  W' !! p = if decide (p ∈ serp) then Some (region_mean W serp) else W !! p.
Proof.
  intros [-> Hlt]%fill_Ok. case_decide as Hp.
  - rewrite lookup_put_items by by apply Hlt. by rewrite decide_True.
  - by apply lookup_put_items_notin.
Qed.

Lemma region_mean_agree (W W' : list Q) (serp : list nat) :
  (∀ p, p ∈ serp → W' !! p = W !! p) → region_mean W' serp = region_mean W serp.
Proof.
  intros H. unfold region_mean. do 3 f_equal.
  apply map_ext_in. intros p Hp%list_elem_of_In. by rewrite H.
Qed.

(** Regions that do not overlap are filled independently: every pixel
    of a region takes the mean of the input over this region, and the
    other entries are left as they are. *)
Lemma mean_fill_regions (pix : list (list nat)) (UV UV' : list Q * list Q) :
  mean_fill pix UV = Ok UV' →
  NoDup (concat pix) →
  (∀ ps p, ps ∈ pix → p ∈ ps →
     UV'.1 !! p = Some (region_mean UV.1 ps)
     ∧ UV'.2 !! p = Some (region_mean UV.2 ps))
  ∧ (∀ p, p ∉ concat pix → UV'.1 !! p = UV.1 !! p ∧ UV'.2 !! p = UV.2 !! p).
Proof.
  revert UV. induction pix as [|ps pix IH]; intros [U V] H Hnd.
  - injection H as <-. split; [|done]. intros ps p Hps. by apply elem_of_nil in Hps.
  - unfold mean_fill in H. simpl in H.
    inv_bind H as UV1 H1. inv_bind H1 as U1 HU1. inv_bind H1 as V1 HV1.
    injection H1 as <-. simpl in Hnd.
    apply NoDup_app in Hnd as (Hps & Hdisj & Hrest).
    destruct (IH (U1, V1) H Hrest) as [Hin Hout]. simpl in *.
    assert (Hkeep : ∀ p, p ∉ ps → U1 !! p = U !! p ∧ V1 !! p = V !! p).
    { intros p Hp.
      rewrite (fill_lookup U U1 ps p HU1), (fill_lookup V V1 ps p HV1).
      by rewrite !decide_False. }
    split.
    + intros ps' p [->|Hps']%elem_of_cons Hp.
      * destruct (Hout p) as [-> ->]; [by apply Hdisj|].
        rewrite (fill_lookup U U1 ps p HU1), (fill_lookup V V1 ps p HV1).
        by rewrite !decide_True.
      * destruct (Hin ps' p Hps' Hp) as [-> ->].
        assert (Hother : ∀ q, q ∈ ps' → q ∉ ps).
        { intros q Hq Hq'. apply (Hdisj q Hq'), elem_of_concat. eauto. }
        split; f_equal; apply region_mean_agree; intros q Hq;
          by apply Hkeep, Hother.
    + intros p [Hp Hp']%not_elem_of_app.
      destruct (Hout p Hp') as [-> ->]. by apply Hkeep.
Qed.

Lemma item_reshape {X : Type} (d : X) (size0 size1 : nat) (W : list X) (i j : nat) :
  item d (reshape size0 size1 W) i j = default d (W !! (i * size1 + j)).
Proof. done. Qed.

(** The entries of the smoothed matrices are the means of the final
    regions. *)
Lemma trial_region_means (A B : ndarray Q) (threshold minthreshold : Q)
    (triangular : bool) (rnd : draws) (Amod Bmod : ndarray Q)
    (D : ndarray (ieee R)) :
  serpentin_iteration A B threshold minthreshold triangular rnd
    = Some (Ok (Amod, Bmod, D)) →
  ∃ size0 size1 st,
    validate A B threshold minthreshold triangular = Ok (size0, size1)
    ∧ merger (data A) (data B) threshold minthreshold rnd
             (initial_start triangular size0 size1)
             (initial_start triangular size0 size1 + 2) 0 0 1
             (initial_state triangular size0 size1) = Some (Ok st)
    ∧ ∀ k ps row col,
        alive st k ps →
        in_universe triangular size0 size1 row col →
        pixel_id triangular size0 size1 row col ∈ ps →
        (item 0 Amod row col == region_mean (data A) ps)%Q
        ∧ (item 0 Bmod row col == region_mean (data B) ps)%Q
        ∧ (triangular = true →
           (item 0 Amod col row == region_mean (data A) ps)%Q
           ∧ (item 0 Bmod col row == region_mean (data B) ps)%Q).
Proof.
  intros (size0 & size1 & st & U' & V' & Hval & Hm & Hfill & Hout)%serpentin_iteration_Ok.
  exists size0, size1, st. split; [done|]. split; [done|].
  intros k ps row col Hk [Hrow Hcol] Hp.
  assert (Hr : reachable (data A) (data B) threshold minthreshold rnd
                 triangular size0 size1 st).
  { eapply merger_reachable; [|done]. constructor. }
  apply reachable_trial_inv in Hr as [_ Hpart _ _].
  destruct (mean_fill_regions _ _ _ Hfill) as [Hin _].
  { rewrite Hpart. apply NoDup_pixel_universe. }
  destruct (Hin ps _ (proj2 (elem_of_existent _ _) (ex_intro _ k Hk)) Hp) as [HU' HV'].
  simpl in HU', HV'.
  apply validate_Ok in Hval as (_ & _ & _ & Hsq).
  unfold pixel_id, outputs in *. destruct triangular; injection Hout as -> -> _.
  - rewrite <-Hsq in * by done.
    assert (Hlow : ∀ W, item 0%Q (reshape size0 size0 W) row col
                        = default 0%Q (W !! (row * size0 + col))) by done.
    rewrite !item_symmetrize by lia.
    rewrite !decide_True by done.
    destruct (decide (row ≤ col)) as [Hle|Hle].
    + assert (col = row) as -> by lia.
      rewrite !Hlow, HU', HV'. done.
    + rewrite !Hlow, HU', HV'. done.
  - rewrite !item_reshape, HU', HV'. done.
Qed.

(** ** Matrices that need no binning *)

Lemma initial_alive (triangular : bool) (size0 size1 k : nat) (ps : list nat) :
  alive (initial_state triangular size0 size1) k ps ↔
  ∃ p, pixel_universe triangular size0 size1 !! k = Some p ∧ ps = [p].
Proof.
  unfold alive, initial_state, initial_pixels, pixel_universe. simpl.
  destruct triangular; rewrite !list_lookup_fmap;
    (destruct (_ !! k) as [c|]; simpl; [|by split; [|intros (? & ? & ?)]]);
    (split; [intros [= <-]; eauto | by intros (p & [= <-] & ->)]).
Qed.

Lemma region_mean_singleton (W : list Q) (p : nat) :
  (region_mean W [p] == default 0 (W !! p))%Q.
Proof.
  unfold region_mean. simpl. field.
Qed.

Section Dense.

Variables U V : list Q.
Variables threshold minthreshold : Q.
Variable rnd : draws.
Variable triangular : bool.
Variables size0 size1 : nat.

Hypothesis in_range_U : ∀ p, p ∈ pixel_universe triangular size0 size1 → p < length U.
Hypothesis in_range_V : ∀ p, p ∈ pixel_universe triangular size0 size1 → p < length V.
Hypothesis dense : ∀ p,
  p ∈ pixel_universe triangular size0 size1 →
  merge_predicate threshold minthreshold
    (default 0%Q (U !! p)) (default 0%Q (V !! p)) = false.
Hypothesis permutations :
  ∀ i, permutation rnd i ≡ₚ range (initial_start triangular size0 size1).

Abbreviation start_d := (initial_start triangular size0 size1).
Abbreviation st0_d := (initial_state triangular size0 size1).

Lemma dense_visit (serp : nat) :
  serp < start_d → visit U V threshold minthreshold rnd serp st0_d = Ok st0_d.
Proof using in_range_U in_range_V dense.
  intros Hserp.
  destruct (lookup_lt_is_Some_2 (pixel_universe triangular size0 size1) serp)
    as [p Hp]; [by rewrite length_pixel_universe|].
  assert (Hpu : p ∈ pixel_universe triangular size0 size1)
    by by eapply list_elem_of_lookup_2.
  assert (Hk : alive st0_d serp [p]) by (apply initial_alive; eauto).
  destruct (lookup_lt_is_Some_2 U p (in_range_U p Hpu)) as [a Ha].
  destruct (lookup_lt_is_Some_2 V p (in_range_V p Hpu)) as [b Hb].
  rewrite (visit_alive U V threshold minthreshold rnd serp st0_d [p] a b Hk);
    [|by apply getitem_Ok..].
  pose proof (dense p Hpu) as Hd. rewrite Ha, Hb in Hd. simpl in Hd.
  by rewrite Hd.
Qed.

Lemma dense_for_each (order : list nat) :
  Forall (λ serp, serp < start_d) order →
  for_each (visit U V threshold minthreshold rnd) order st0_d = Ok st0_d.
Proof using in_range_U in_range_V dense.
  induction 1 as [|serp order Hserp _ IH]; simpl; [done|].
  by rewrite dense_visit.
Qed.

Lemma dense_pass (i : nat) :
  pass U V threshold minthreshold rnd i st0_d = Ok st0_d.
Proof using in_range_U in_range_V dense permutations.
  apply dense_for_each, Forall_forall. intros serp Hserp.
  rewrite permutations in Hserp. apply elem_of_seq in Hserp. lia.
Qed.

(** No region is merged: the loop runs one pass when there is one
    pixel and two passes otherwise, and leaves the initial graph. *)
Lemma dense_merger (fuel : nat) :
  0 < start_d → 2 ≤ fuel →
  merger U V threshold minthreshold rnd start_d fuel 0 0 1 st0_d = Some (Ok st0_d).
Proof using in_range_U in_range_V dense permutations.
  intros Hpos Hfuel.
  assert (Hturn : ∀ i, (print_iteration start_d;;
                        pass U V threshold minthreshold rnd i st0_d) = Ok st0_d).
  { intros i. unfold print_iteration. rewrite decide_False by lia. simpl.
    apply dense_pass. }
  assert (Hcount : count_existent (pixels st0_d) = start_d)
    by apply initial_count.
  destruct fuel as [|[|fuel]]; [lia..|].
  rewrite (merger_turn _ _ _ _ _ _ _ _ _ _ _ st0_d) by (done || lia).
  case_decide as H1; [done|].
  rewrite (merger_turn _ _ _ _ _ _ _ _ _ _ _ st0_d) by (done || lia).
  by rewrite decide_True.
Qed.

End Dense.

(** ** Shapes and sizes of the results of a trial *)

Lemma mean_fill_length (pix : list (list nat)) (UV UV' : list Q * list Q) :
  mean_fill pix UV = Ok UV' →
  length UV'.1 = length UV.1 ∧ length UV'.2 = length UV.2.
Proof.
  revert UV. induction pix as [|ps pix IH]; intros [U V] H.
  - by injection H as <-.
  - unfold mean_fill in H. simpl in H.
    inv_bind H as UV1 H1. inv_bind H1 as U1 HU1. inv_bind H1 as V1 HV1.
    injection H1 as <-. destruct (IH _ H) as [-> ->]. simpl.
    apply fill_Ok in HU1 as [-> _]. apply fill_Ok in HV1 as [-> _].
    by rewrite !length_put_items.
Qed.

Lemma trial_output_sizes (A B : ndarray Q) (threshold minthreshold : Q)
    (triangular : bool) (rnd : draws) (size0 size1 : nat)
    (Amod Bmod : ndarray Q) (D : ndarray (ieee R)) :
  wf_ndarray A → wf_ndarray B →
  validate A B threshold minthreshold triangular = Ok (size0, size1) →
  serpentin_iteration A B threshold minthreshold triangular rnd
    = Some (Ok (Amod, Bmod, D)) →
  (shape Amod = [size0; size1] ∧ length (data Amod) = size0 * size1)
  ∧ (shape Bmod = [size0; size1] ∧ length (data Bmod) = size0 * size1)
  ∧ (shape D = [size0; size1] ∧ length (data D) = size0 * size1).
Proof.
  intros HA HB Hval Hrun.
  destruct (validated_in_range A B _ _ _ _ _ HA HB Hval) as (HlA & HlB & Hsq & _).
  apply serpentin_iteration_Ok in Hrun
    as (s0 & s1 & st & U' & V' & Hval' & _ & Hfill & Hout).
  rewrite Hval in Hval'. injection Hval' as <- <-.
  apply mean_fill_length in Hfill as [HlU HlV]. simpl in HlU, HlV.
  unfold outputs in Hout. destruct triangular; injection Hout as -> -> ->.
  - rewrite <-Hsq by done.
    rewrite !shape_symmetrize, !length_symmetrize.
    unfold log_ratio_triangular. rewrite shape_symmetrize. simpl.
    by rewrite length_map, length_product.
  - simpl. rewrite length_zip_with. repeat split; lia.
Qed.

(** ** The sums and the averages of the driver *)

Section DriverSums.

Variables A B : ndarray Q.
Variables threshold minthreshold : Q.
Variable triangular : bool.
Variable rnds : nat → draws.

(** Collecting the results and adding them afterwards gives the sums
    of the sequential loop. *)
Lemma pool_map_sequential (xs : list nat) (s : sums) :
  match pool_map A B threshold minthreshold triangular rnds xs with
  | None => None
  | Some (Raise e) => Some (Raise e)
  | Some (Ok res) => Some (Ok (foldl accumulate s res))
  end
  = sequential A B threshold minthreshold triangular rnds xs s.
Proof.
  revert s. induction xs as [|x xs IH]; intros s; simpl; [done|].
  destruct (serpentin_iteration _ _ _ _ _ _) as [[r|e]|]; try done.
  rewrite <-IH.
  by destruct (pool_map _ _ _ _ _ _ xs) as [[rs|e]|].
Qed.

Lemma sequential_all_Ok (xs : list nat) (outs : nat → trial_output) (s : sums) :
  (∀ x, x ∈ xs →
     serpentin_iteration A B threshold minthreshold triangular (rnds x)
     = Some (Ok (outs x))) →
  sequential A B threshold minthreshold triangular rnds xs s
  = Some (Ok (foldl accumulate s (map outs xs))).
Proof.
  revert s. induction xs as [|x xs IH]; intros s Hall; simpl; [done|].
  rewrite (Hall x) by apply list_elem_of_here.
  apply IH. intros y Hy. by apply Hall, list_elem_of_further.
Qed.

End DriverSums.

Lemma foldl_accumulate_lookup (outs : list trial_output) (s : sums) (n p : nat) :
  length (data s.1.2) = n → length (data s.2) = n →
  (∀ r, r ∈ outs → length (data r.1.1) = n ∧ length (data r.1.2) = n) →
  p < n →
  shape (foldl accumulate s outs).1.2 = shape s.1.2
  ∧ shape (foldl accumulate s outs).2 = shape s.2
  ∧ length (data (foldl accumulate s outs).1.2) = n
  ∧ length (data (foldl accumulate s outs).2) = n
  ∧ ∃ qa qb,
      data (foldl accumulate s outs).1.2 !! p = Some qa
      ∧ data (foldl accumulate s outs).2 !! p = Some qb
      ∧ (qa == default 0 (data s.1.2 !! p) + trial_sum (λ r, r.1.1) outs p)%Q
      ∧ (qb == default 0 (data s.2 !! p) + trial_sum (λ r, r.1.2) outs p)%Q.
Proof.
  intros HlA HlB Houts Hp. revert s HlA HlB.
  induction outs as [|r outs IH]; intros [[sK sA] sB] HlA HlB; simpl in *.
  - repeat split; try done.
    destruct (lookup_lt_is_Some_2 (data sA) p) as [qa Hqa]; [lia|].
    destruct (lookup_lt_is_Some_2 (data sB) p) as [qb Hqb]; [lia|].
    exists qa, qb. rewrite Hqa, Hqb. unfold trial_sum. simpl.
    repeat split; try done; Lqa.lra.
  - destruct r as [[At Bt] Kt].
    destruct (Houts (At, Bt, Kt)) as [HlAt HlBt]; [apply list_elem_of_here|].
    simpl in HlAt, HlBt.
    destruct (IH (λ r Hr, Houts r (list_elem_of_further _ _ _ Hr))
                 (NdArray (shape sK) (zip_with fadd (data sK) (data Kt)),
                  madd sA At, madd sB Bt))
      as (HsA & HsB & HlA' & HlB' & qa & qb & Hqa & Hqb & Hea & Heb).
    { simpl. rewrite length_zip_with. lia. }
    { simpl. rewrite length_zip_with. lia. }
    simpl in *. repeat split; try done.
    exists qa, qb. repeat split; try done.
    + rewrite Hea, lookup_zip_with. unfold trial_sum. simpl.
      destruct (lookup_lt_is_Some_2 (data sA) p) as [x Hx]; [lia|].
      destruct (lookup_lt_is_Some_2 (data At) p) as [y Hy]; [lia|].
      rewrite Hx, Hy. simpl. Lqa.lra.
    + rewrite Heb, lookup_zip_with. unfold trial_sum. simpl.
      destruct (lookup_lt_is_Some_2 (data sB) p) as [x Hx]; [lia|].
      destruct (lookup_lt_is_Some_2 (data Bt) p) as [y Hy]; [lia|].
      rewrite Hx, Hy. simpl. Lqa.lra.
Qed.

Lemma foldl_accumulate_shape (outs : list trial_output) (s : sums) :
  shape (foldl accumulate s outs).1.2 = shape s.1.2
  ∧ shape (foldl accumulate s outs).2 = shape s.2.
Proof.
  revert s. induction outs as [|[[At Bt] Kt] outs IH]; intros [[sK sA] sB]; [done|].
  simpl. by destruct (IH (NdArray (shape sK) (zip_with fadd (data sK) (data Kt)),
                          madd sA At, madd sB Bt)) as [-> ->].
Qed.

(** Whatever [parallel] is, the driver returns what the sequential
    loop computes. *)
Lemma binning_as_sequential (A B : ndarray Q) (threshold minthreshold : Q)
    (triangular : bool) (rnds : nat → draws) (iterations parallel : Z)
    (size : nat * nat) :
  validate A B threshold minthreshold triangular = Ok size →
  serpentin_binning A B threshold minthreshold triangular rnds iterations parallel =
  match sequential A B threshold minthreshold triangular rnds
                   (range (Z.to_nat iterations)) (zero_sums A) with
  | None => None
  | Some (Raise e) => Some (Raise e)
  | Some (Ok s) => Some (Ok (average s iterations))
  end.
Proof.
  intros Hval. unfold serpentin_binning. rewrite Hval.
  case_decide; [|done]. by rewrite <-pool_map_sequential.
Qed.

Lemma fdiv_nonzero (v u : Q) : ¬ (u == 0)%Q → fdiv v u = Fin (v / u)%Q.
Proof.
  intros Hu. unfold fdiv. destruct (Qeq_bool u 0) eqn:Heq; [|done].
  by apply Qeq_bool_eq in Heq.
Qed.

(** ** The errors of the validation *)

Lemma check_shape_accepted (triangular : bool) (sa sb : list nat) :
  shapes_accepted triangular sa sb →
  ∃ h w, sa = [h; w] ∧ check_shape triangular sa sb = Ok (h, w).
Proof.
  intros (-> & Hlen & Hsq). destruct sb as [|h [|w [|? ?]]]; try done.
  exists h, w. split; [done|]. unfold check_shape.
  destruct triangular.
  - rewrite decide_True by done. by rewrite decide_True by by apply Hsq.
  - by rewrite decide_True.
Qed.

Lemma check_shape_rejected (triangular : bool) (sa sb : list nat) :
  ¬ shapes_accepted triangular sa sb →
  check_shape triangular sa sb
  = Raise (if triangular then ValueError_square else ValueError_shape).
Proof.
  intros Hno. unfold check_shape, shapes_accepted in *.
  destruct triangular.
  - case_decide as Heq; [|done]. subst sb.
    destruct sa as [|h [|w [|? ?]]]; try done.
    case_decide as Hsq; [|done]. by destruct Hno.
  - case_decide as Heq; [|done]. subst sb.
    destruct sa as [|h [|w [|? ?]]]; try done. by destruct Hno.
Qed.

(** ** Non-negative matrices below the thresholds *)

Lemma sum_at_nonneg (W : list Q) (idx : list nat) :
  (∀ p, p ∈ idx → (0 <= default 0 (W !! p))%Q) → (0 <= sum_at W idx)%Q.
Proof.
  unfold sum_at. induction idx as [|i idx IH]; intros H; simpl; [Lqa.lra|].
  pose proof (H i (list_elem_of_here _ _)).
  pose proof (IH (λ p Hp, H p (list_elem_of_further _ _ _ Hp))). Lqa.lra.
Qed.

Lemma sum_at_mono (W : list Q) (ps universe : list nat) :
  NoDup ps → (∀ p, p ∈ ps → p ∈ universe) →
  (∀ p, p ∈ universe → (0 <= default 0 (W !! p))%Q) →
  (sum_at W ps <= sum_at W universe)%Q.
Proof.
  intros Hnd Hsub Hpos.
  destruct (submseteq_Permutation ps universe) as [k Hk];
    [by apply NoDup_submseteq|].
  rewrite (sum_at_Permutation W _ _ Hk), sum_at_app.
  assert (0 <= sum_at W k)%Q; [|Lqa.lra].
  apply sum_at_nonneg. intros p Hp. apply Hpos. rewrite Hk.
  apply elem_of_app. by right.
Qed.


Section Sparse.

Variables U V : list Q.
Variables threshold minthreshold : Q.
Variable rnd : draws.
Variable triangular : bool.
Variables size0 size1 : nat.

Hypothesis in_range_U : ∀ p, p ∈ pixel_universe triangular size0 size1 → p < length U.
Hypothesis in_range_V : ∀ p, p ∈ pixel_universe triangular size0 size1 → p < length V.
Hypothesis nonneg_U : ∀ p,
  p ∈ pixel_universe triangular size0 size1 → (0 <= default 0 (U !! p))%Q.
Hypothesis nonneg_V : ∀ p,
  p ∈ pixel_universe triangular size0 size1 → (0 <= default 0 (V !! p))%Q.
Hypothesis total_below :
  merge_predicate threshold minthreshold
    (sum_at U (pixel_universe triangular size0 size1))
    (sum_at V (pixel_universe triangular size0 size1)) = true.
Hypothesis permutations :
  ∀ i, permutation rnd i ≡ₚ range (initial_start triangular size0 size1).
Hypothesis nonempty : 0 < initial_start triangular size0 size1.

Abbreviation start_p := (initial_start triangular size0 size1).
Abbreviation st0_p := (initial_state triangular size0 size1).
Abbreviation reachable_p :=
  (reachable U V threshold minthreshold rnd triangular size0 size1).




End Sparse.



(** ** Inputs on which the code computes the numbers of the model *)

Lemma is_integer_spec (q : Q) :
  is_integer q = true ↔ ∃ z : Z, (q == inject_Z z)%Q.
Proof.
  unfold is_integer. split.
  - intros H%Qeq_bool_iff. eauto.
  - intros [z Hz]. apply Qeq_bool_iff. rewrite Hz at 2.
    by rewrite Qfloor_Z.
Qed.

Lemma is_integer_plus (a b : Q) :
  is_integer a = true → is_integer b = true → is_integer (a + b) = true.
Proof.
  intros [x Hx]%is_integer_spec [y Hy]%is_integer_spec.
  apply is_integer_spec. exists (x + y)%Z.
  rewrite Hx, Hy, inject_Z_plus. reflexivity.
Qed.

(** A [float32] holds the numbers [m * 2 ^ e] with [|m| < 2 ^ 24] and
    [-149 <= e <= 104]; the integers up to [2 ^ 24] are among them. *)
Lemma float32_integer_spec (q : Q) :
  float32_integer q = true →
  ∃ m e : Z, (Z.abs m < 2 ^ 24)%Z ∧ (0 ≤ e ≤ 1)%Z
             ∧ (q == inject_Z (m * 2 ^ e))%Q.
Proof.
  unfold float32_integer, is_integer.
  intros [Hq%Qeq_bool_iff Hle%Z.leb_le]%andb_true_iff.
  destruct (decide (Z.abs (Qfloor q) = 2 ^ 24)%Z) as [Heq|Hne].
  - assert (Qfloor q = 2 ^ 24 ∨ Qfloor q = - 2 ^ 24)%Z as [H|H] by lia.
    + exists (2 ^ 23)%Z, 1%Z. split; [done|]. split; [lia|].
      rewrite Hq at 1. by rewrite H.
    + exists (- 2 ^ 23)%Z, 1%Z. split; [done|]. split; [lia|].
      rewrite Hq at 1. by rewrite H.
  - exists (Qfloor q), 0%Z. split; [lia|]. split; [lia|].
    rewrite Hq at 1. by rewrite Z.mul_1_r.
Qed.

(** Under [exact_sums] every sum over distinct pixels of [idx] is an
    integer of absolute value at most [2 ^ 11]. *)
Lemma exact_sums_part (W : list Q) (idx ps : list nat) :
  exact_sums W idx = true → NoDup ps → (∀ p, p ∈ ps → p ∈ idx) →
  is_integer (sum_at W ps) = true ∧ (Qabs (sum_at W ps) <= 2 ^ 11)%Q.
Proof.
  unfold exact_sums. intros [Hint Hle%Qle_bool_iff]%andb_true_iff Hnd Hsub.
  rewrite forallb_forall in Hint.
  assert (Hin : ∀ p, p ∈ ps → is_integer (default 0%Q (W !! p)) = true).
  { intros p Hp. apply Hint, list_elem_of_In. by apply Hsub. }
  split.
  - clear Hnd Hsub Hle Hint. unfold sum_at. induction ps as [|p ps IH]; [done|].
    simpl. apply is_integer_plus; [apply Hin; left|].
    apply IH. intros q Hq. apply Hin. by right.
  - assert (Hbound : (Qabs (sum_at W ps)
                      <= Qsum (map (λ p, Qabs (default 0%Q (W !! p))) ps))%Q).
    { clear. unfold sum_at. induction ps as [|p ps IH]; [done|].
      simpl. eapply Qle_trans; [apply Qabs_triangle|].
      apply Qplus_le_compat; [apply Qle_refl | done]. }
    eapply Qle_trans; [apply Hbound|]. eapply Qle_trans; [|apply Hle].
    pose proof (sum_at_mono (map Qabs W) ps idx Hnd Hsub) as Hmono.
    unfold sum_at in Hmono.
    assert (Hmap : ∀ l : list nat,
              map (λ p, default 0%Q (map Qabs W !! p)) l
              = map (λ p, Qabs (default 0%Q (W !! p))) l).
    { intros l. apply map_ext. intros p. rewrite list_lookup_fmap.
      by destruct (W !! p). }
    rewrite !Hmap in Hmono. apply Hmono.
    intros p _. rewrite list_lookup_fmap. destruct (W !! p); simpl;
        [apply Qabs_nonneg | done].
Qed.

(** In a trial on such a matrix every sum that the loop compares with
    the thresholds is an integer of absolute value at most [2 ^ 11]. *)
Lemma exact_sums_region (U V : list Q) (threshold minthreshold : Q) (rnd : draws)
    (triangular : bool) (size0 size1 : nat) (st : serpentines) (k : nat)
    (ps : list nat) (W : list Q) (a : Q) :
  exact_sums W (pixel_universe triangular size0 size1) = true →
  reachable U V threshold minthreshold rnd triangular size0 size1 st →
  alive st k ps → region_sum W ps = Ok a →
  is_integer a = true ∧ (Qabs a <= 2 ^ 11)%Q.
Proof.
  intros Hex (_ & Hsub & Hnd)%reachable_exact_cover Hk Ha%region_sum_sum_at.
  destruct (exact_sums_part W _ ps Hex (Hnd k ps Hk) (λ p, Hsub k ps p Hk))
    as [[z Hz]%is_integer_spec Hle].
  split.
  - apply is_integer_spec. exists z. by rewrite Ha.
  - by rewrite Ha.
Qed.

(** ** Mirrored matrices *)

Lemma wf_matrix_of (M : ndarray Q) (h w : nat) :
  shape M = [h; w] → length (data M) = h * w →
  M = matrix_of h w (λ i j, item 0%Q M i j).
Proof.
  intros Hs Hl. destruct M as [sh dt]. simpl in *. subst sh.
  unfold matrix_of, item. simpl. f_equal.
  rewrite <-(map_lookup_seq dt) at 1. rewrite Hl, <-pixel_universe_full.
  unfold pixel_universe. by rewrite map_map.
Qed.

Lemma mirror_matrix_of (n : nat) (f : nat → nat → Q) :
  mirror (matrix_of n n f) =
  matrix_of n n (λ i j, f i j + f j i - (if decide (i = j) then f i i else 0))%Q.
Proof.
  unfold mirror, transpose, diag_diag. simpl. rewrite Nat.min_id.
  rewrite (matrix_of_ext n n (λ i j, item 0%Q (matrix_of n n f) j i) (λ i j, f j i))
    by (intros; by apply item_matrix_of).
  rewrite (matrix_of_ext n n
             (λ i j, if decide (i = j) then item 0%Q (matrix_of n n f) i i else 0%Q)
             (λ i j, if decide (i = j) then f i i else 0%Q)).
  2:{ intros i j Hi Hj. case_decide; [|done]. by apply item_matrix_of. }
  by rewrite madd_matrix_of, msub_matrix_of.
Qed.

Lemma mirror_wf (M : ndarray Q) (n : nat) :
  shape M = [n; n] → length (data M) = n * n →
  mirror M =
  matrix_of n n (λ i j, item 0 M i j + item 0 M j i
                        - (if decide (i = j) then item 0 M i i else 0))%Q.
Proof.
  intros Hs Hl. rewrite (wf_matrix_of M n n Hs Hl) at 1.
  apply mirror_matrix_of.
Qed.

Lemma length_matrix_of {X : Type} (h w : nat) (f : nat → nat → X) :
  length (data (matrix_of h w f)) = h * w.
Proof. unfold matrix_of. simpl. by rewrite length_map, length_product. Qed.

(** ** Reading the rows of a file *)

Lemma numbers_map_Number (vs : list Q) : numbers (map Number vs) = Some vs.
Proof. induction vs as [|v vs IH]; [done|]. simpl. by rewrite IH. Qed.

Lemma numbers_Some (data : list field) (vs : list Q) :
  numbers data = Some vs → data = map Number vs.
Proof.
  revert vs. induction data as [|[q|] data IH]; intros vs; simpl; [|..|done].
  - by intros [= <-].
  - destruct (numbers data) as [ws|]; [|done]. simpl. intros [= <-].
    by rewrite (IH ws).
Qed.

(** The slice [count:total] of row [count] in the flattened array. *)
Lemma row_slice_index (total count len i j : nat) :
  count + len = total → i < total → j < total →
  (count * total + count ≤ i * total + j < count * total + count + len
   ↔ i = count ∧ count ≤ j)
  ∧ (i = count → i * total + j - (count * total + count) = j - count).
Proof.
  intros Hlen Hi Hj. split; [|intros ->; lia]. split.
  - intros [Hlo Hhi]. destruct (decide (i = count)) as [->|Hne]; [lia|].
    exfalso. destruct (decide (i < count)); nia.
  - intros [-> Hc]. lia.
Qed.

Lemma read_rows_upper (total count : nat) (res : list Q) (lines : list (list field)) :
  length res = total * total →
  count + length lines ≤ total →
  (∀ k line, lines !! k = Some line →
     ∃ label vs, line = label :: map Number vs ∧ length vs = total - (count + k)) →
  ∃ res',
    read_rows total count res lines = inr res'
    ∧ length res' = total * total
    ∧ ∀ i j, i < total → j < total →
        res' !! (i * total + j) =
        if decide (count ≤ i < count + length lines ∧ i ≤ j)
        then Some (file_entry lines (i - count) (j - count))
        else res !! (i * total + j).
Proof.
  revert count res. induction lines as [|line lines IH]; intros count res Hres Hcount Hlines.
  - exists res. split; [done|]. split; [done|]. intros i j _ _.
    rewrite decide_False; [done|]. simpl. lia.
  - simpl in Hcount.
    destruct (Hlines 0 line eq_refl) as (label & vs & -> & Hvs).
    rewrite Nat.add_0_r in Hvs.
    assert (Hassign : assign_row total count res (map Number vs)
                      = inr (list_inserts (count * total + count) vs res)).
    { unfold assign_row. rewrite decide_False by lia.
      rewrite numbers_map_Number. by rewrite decide_True. }
    destruct (IH (S count) (list_inserts (count * total + count) vs res))
      as (res' & Hread & Hlen & Hget).
    { by rewrite length_inserts. }
    { lia. }
    { intros k line Hk. destruct (Hlines (S k) line Hk) as (l & ws & -> & Hws).
      exists l, ws. split; [done|]. rewrite Hws. lia. }
    exists res'. split; [simpl; by rewrite Hassign|]. split; [done|].
    intros i j Hi Hj. rewrite (Hget i j Hi Hj).
    destruct (row_slice_index total count (length vs) i j) as [Hslice Hoff];
      [lia | done..|].
    destruct (decide (i = count)) as [->|Hne].
    + rewrite decide_False by lia.
      destruct (decide (count ≤ j)) as [Hcj|Hcj].
      * rewrite decide_True by (simpl; lia).
        rewrite list_lookup_inserts; [|by apply Hslice | rewrite Hres; nia].
        rewrite Hoff by done.
        unfold file_entry. rewrite Nat.sub_diag. simpl.
        rewrite Nat.sub_0_r, list_lookup_fmap.
        destruct (lookup_lt_is_Some_2 vs (j - count)) as [q ->]; [lia|]. done.
      * rewrite decide_False by lia.
        apply list_lookup_inserts_lt. lia.
    + assert (Hout : list_inserts (count * total + count) vs res !! (i * total + j)
                     = res !! (i * total + j)).
      { destruct (decide (i < count)).
        - apply list_lookup_inserts_lt. nia.
        - apply list_lookup_inserts_ge. nia. }
      rewrite Hout.
      destruct (decide (S count ≤ i < S count + length lines ∧ i ≤ j)) as [Hin|Hin].
      * rewrite decide_True by (simpl; lia). f_equal.
        unfold file_entry.
        replace (i - count) with (S (i - S count)) by lia. simpl.
        destruct (lines !! (i - S count)) as [[|l data]|]; try done.
        by replace (j - count - S (i - S count)) with (j - S count - (i - S count))
          by lia.
      * rewrite decide_False by (simpl; lia). done.
Qed.

Lemma item_mirror (M : ndarray Q) (n i j : nat) :
  shape M = [n; n] → length (data M) = n * n → i < n → j < n →
  item 0%Q (mirror M) i j
  = (item 0 M i j + item 0 M j i - (if decide (i = j) then item 0 M i i else 0))%Q.
Proof.
  intros Hs Hl Hi Hj. rewrite (mirror_wf M n Hs Hl). by rewrite item_matrix_of.
Qed.

Lemma shape_mirror (M : ndarray Q) (n : nat) :
  shape M = [n; n] → length (data M) = n * n →
  shape (mirror M) = [n; n] ∧ length (data (mirror M)) = n * n.
Proof.
  intros Hs Hl. rewrite (mirror_wf M n Hs Hl). split; [done|].
  apply length_matrix_of.
Qed.

Lemma file_entry_outside (lines : list (list field)) (i j : nat) :
  length lines ≤ i → file_entry lines i j = 0%Q.
Proof.
  intros Hi. unfold file_entry. by rewrite lookup_ge_None_2.
Qed.

(** A well-formed file is loaded without exception into a symmetric
    matrix. *)
Lemma fromupdiag_upper (label : field) (names : list field)
    (lines : list (list field)) :
  upper_triangle_file (length names) lines →
  ∃ M, fromupdiag (label :: names) lines = inr M
       ∧ shape M = [length names; length names]
       ∧ length (data M) = length names * length names
       ∧ ∀ i j, i ≤ j → j < length names →
           (item 0 M i j == file_entry lines i j)%Q
           ∧ (item 0 M j i == file_entry lines i j)%Q.
Proof.
  intros [Hlen Hlines]. set (n := length names) in *.
  destruct (read_rows_upper n 0 (replicate (n * n) 0%Q) lines)
    as (res & Hread & Hres & Hget).
  { by rewrite length_replicate. }
  { done. }
  { intros k line Hk. destruct (Hlines k line Hk) as (l & vs & -> & Hvs). eauto. }
  set (R := NdArray [n; n] res).
  assert (HR : ∀ i j, i < n → j < n →
            item 0%Q R i j = if decide (i ≤ j) then file_entry lines i j else 0%Q).
  { intros i j Hi Hj. unfold item, R. simpl. rewrite (Hget i j Hi Hj).
    rewrite !Nat.sub_0_r.
    destruct (decide (i ≤ j)) as [Hij|Hij].
    - destruct (decide (i < length lines)).
      + rewrite decide_True by lia. done.
      + rewrite decide_False by lia.
        rewrite lookup_replicate_2 by nia. simpl.
        by rewrite file_entry_outside by lia.
    - rewrite decide_False by lia. by rewrite lookup_replicate_2 by nia. }
  exists (mirror R). unfold fromupdiag. fold n. rewrite Hread.
  split; [done|].
  destruct (shape_mirror R n eq_refl Hres) as [Hs Hl].
  split; [done|]. split; [done|].
  intros i j Hij Hj.
  rewrite !(item_mirror R n) by (done || lia).
  rewrite !HR by lia.
  destruct (decide (i = j)) as [->|Hne].
  - rewrite !decide_True by done. split; Lqa.lra.
  - rewrite (decide_True (P := i ≤ j)) by done.
    rewrite (decide_False (P := j ≤ i)) by lia.
    rewrite (decide_False (P := j = i)) by lia. split; Lqa.lra.
Qed.

Lemma read_rows_app (total count : nat) (res : list Q)
    (good rest : list (list field)) :
  read_rows total count res (good ++ rest) =
  match read_rows total count res good with
  | inl e => inl e
  | inr res' => read_rows total (count + length good) res' rest
  end.
Proof.
  revert count res. induction good as [|line good IH]; intros count res; simpl.
  - by rewrite Nat.add_0_r.
  - destruct line as [|l data]; [done|].
    destruct (assign_row total count res data) as [e|res']; [done|].
    rewrite IH. by replace (S count + length good) with (count + S (length good))
      by lia.
Qed.

(** ** Filtered matrices *)

Lemma elem_of_mask_positions (m : list bool) (i p : nat) :
  p ∈ mask_positions m i ↔ ∃ k, p = i + k ∧ m !! k = Some true.
Proof.
  revert i. induction m as [|b m IH]; intros i; simpl.
  - split; [by intros ?%elem_of_nil | by intros (k & _ & ?)].
  - rewrite elem_of_app, IH. split.
    + intros [Hp|(k & -> & Hk)].
      * destruct b; [|by apply elem_of_nil in Hp].
        apply list_elem_of_singleton in Hp as ->. exists 0. split; [lia|done].
      * exists (S k). split; [lia|done].
    + intros (k & -> & Hk). destruct k as [|k]; simpl in Hk.
      * injection Hk as ->. left. rewrite Nat.add_0_r. apply list_elem_of_here.
      * right. exists k. split; [lia|done].
Qed.

Lemma take_position_lt (n : nat) (z : Z) (p : nat) :
  take_position n z = Ok p → p < n.
Proof.
  unfold take_position. repeat case_decide; intros [= <-]; lia.
Qed.

Lemma take_positions_lt (n : nat) (idx : list Z) (ps : list nat) :
  take_positions n idx = Ok ps → Forall (λ p, p < n) ps.
Proof.
  revert ps. induction idx as [|z idx IH]; intros ps H; simpl in H.
  - injection H as <-. constructor.
  - inv_bind H as p Hp. inv_bind H as ps' Hps. injection H as <-.
    constructor; [by eapply take_position_lt | by apply IH].
Qed.

Lemma positions_lt (flt : index) (n : nat) (ps : list nat) :
  positions flt n = Ok ps → Forall (λ p, p < n) ps.
Proof.
  destruct flt as [m|idx]; simpl; [|apply take_positions_lt].
  case_decide as Hm; [|done]. intros [= <-].
  apply Forall_forall. intros p (k & -> & Hk%lookup_lt_Some)%elem_of_mask_positions.
  lia.
Qed.

Lemma lookup_flat_map_rows {X Y : Type} (f : X → list Y) (l : list X) (k a b : nat)
    (x : X) :
  (∀ y, y ∈ l → length (f y) = k) →
  l !! a = Some x → b < k →
  flat_map f l !! (a * k + b) = f x !! b.
Proof.
  revert a. induction l as [|y l IH]; intros a Hlen Ha Hb; [done|].
  simpl. destruct a as [|a]; simpl in Ha.
  - injection Ha as ->. simpl. rewrite lookup_app_l; [done|].
    rewrite Hlen; [done | apply list_elem_of_here].
  - rewrite lookup_app_r; rewrite Hlen; try apply list_elem_of_here; [|lia].
    replace (S a * k + b - k) with (a * k + b) by lia.
    apply IH; [|done..]. intros z Hz. by apply Hlen, list_elem_of_further.
Qed.

Lemma length_flat_map_rows {X Y : Type} (f : X → list Y) (l : list X) (k : nat) :
  (∀ y, y ∈ l → length (f y) = k) → length (flat_map f l) = length l * k.
Proof.
  induction l as [|y l IH]; intros Hlen; [done|]. simpl.
  rewrite length_app, Hlen, IH; [lia| |apply list_elem_of_here].
  intros z Hz. by apply Hlen, list_elem_of_further.
Qed.

(** The entries of a filtered matrix of two dimensions. *)
Lemma fltmatr_Ok (M : ndarray Q) (flt : index) (h w : nat) (Y : ndarray Q) :
  shape M = [h; w] → length (data M) = h * w →
  fltmatr M flt = Ok Y →
  ∃ rows cols,
    positions flt h = Ok rows ∧ positions flt w = Ok cols
    ∧ shape Y = [length rows; length cols]
    ∧ length (data Y) = length rows * length cols
    ∧ ∀ a b i j, rows !! a = Some i → cols !! b = Some j →
        item 0%Q Y a b = item 0%Q M i j.
Proof.
  intros Hs Hl H. unfold fltmatr in H. rewrite Hs in H. simpl in H.
  inv_bind H as rows Hrows. inv_bind H as cols Hcols. injection H as <-.
  exists rows, cols. split; [done|]. split; [done|]. split; [done|].
  pose proof (positions_lt _ _ _ Hrows) as Hr. rewrite Forall_forall in Hr.
  pose proof (positions_lt _ _ _ Hcols) as Hc. rewrite Forall_forall in Hc.
  assert (Hcell : ∀ i j, i ∈ rows → j ∈ cols →
            take 1 (drop ((i * w + j) * 1) (data M))
            = [default 0%Q (data M !! (i * w + j))]).
  { intros i j Hi%Hr Hj%Hc. rewrite Nat.mul_1_r.
    destruct (lookup_lt_is_Some_2 (data M) (i * w + j)) as [x Hx]; [nia|].
    rewrite Hx. simpl.
    rewrite <-(take_drop_middle (data M) (i * w + j) x Hx) at 1.
    rewrite drop_app_length'; [done|].
    rewrite length_take. apply lookup_lt_Some in Hx. lia. }
  assert (Hrow : ∀ i, i ∈ rows →
            length (flat_map (λ j, take 1 (drop ((i * w + j) * 1) (data M))) cols)
            = length cols).
  { intros i Hi. rewrite (length_flat_map_rows _ _ 1); [lia|].
    intros j Hj. by rewrite Hcell. }
  split.
  { simpl. by apply length_flat_map_rows. }
  intros a b i j Ha Hb. unfold item at 1. simpl.
  rewrite (lookup_flat_map_rows _ rows (length cols) a b i);
    [|done..|by eapply lookup_lt_Some].
  replace b with (b * 1 + 0) at 1 by lia.
  rewrite (lookup_flat_map_rows _ cols 1 b 0 j); [| |done|lia].
  - rewrite Hcell by by eapply list_elem_of_lookup_2.
    simpl. unfold item. by rewrite Hs.
  - intros j' Hj'. rewrite Hcell; [done | by eapply list_elem_of_lookup_2 | done].
Qed.

Lemma take_positions_Ok_iff (n : nat) (idx : list Z) :
  (∃ ps, take_positions n idx = Ok ps)
  ↔ ∀ z, z ∈ idx → (- Z.of_nat n ≤ z < Z.of_nat n)%Z.
Proof.
  induction idx as [|z idx IH]; simpl.
  - split; [by intros _ z ?%elem_of_nil | eauto].
  - split.
    + intros [ps H]. inv_bind H as p Hp. inv_bind H as ps' Hps.
      intros z' [->|Hz']%elem_of_cons.
      * unfold take_position in Hp. repeat case_decide; try done; lia.
      * apply IH; eauto.
    + intros Hall.
      destruct (proj2 IH) as [ps Hps].
      { intros z' Hz'. by apply Hall, list_elem_of_further. }
      pose proof (Hall z (list_elem_of_here _ _)) as Hz.
      rewrite Hps. unfold take_position.
      destruct (decide (0 ≤ z < Z.of_nat n)%Z); simpl; [eauto|].
      rewrite decide_True by lia. simpl. eauto.
Qed.

Lemma take_positions_Raise (n : nat) (idx : list Z) (e : exn) :
  take_positions n idx = Raise e → e = IndexError_bounds.
Proof.
  induction idx as [|z idx IH]; simpl; [done|].
  unfold take_position. repeat case_decide; simpl;
    try (destruct (take_positions n idx); simpl; [done|]; intros [= <-]; by apply IH);
    by intros [= <-].
Qed.

Lemma positions_Raise (flt : index) (n : nat) (e : exn) :
  positions flt n = Raise e → e = IndexError_bounds.
Proof.
  destruct flt as [m|idx]; simpl; [|apply take_positions_Raise].
  case_decide; [done|]. by intros [= <-].
Qed.

(** When the positions of an index exist on an axis. *)
Lemma positions_Ok_iff (flt : index) (n : nat) :
  (∃ ps, positions flt n = Ok ps) ↔
  match flt with
  | Mask m => length m = n
  | Take idx => ∀ z, z ∈ idx → (- Z.of_nat n ≤ z < Z.of_nat n)%Z
  end.
Proof.
  destruct flt as [m|idx]; simpl; [|apply take_positions_Ok_iff].
  case_decide; split; eauto; try done. by intros [ps ?].
Qed.

Lemma mask_positions_all (n i : nat) :
  mask_positions (replicate n true) i = seq i n.
Proof.
  revert i. induction n as [|n IH]; intros i; [done|]. simpl. by rewrite IH.
Qed.

Lemma flat_map_singleton {X Y : Type} (g : X → Y) (l : list X) :
  flat_map (λ x, [g x]) l = map g l.
Proof. induction l as [|x l IH]; [done|]. simpl. by rewrite IH. Qed.

Lemma map_flat_map {X Y Z : Type} (g : Y → Z) (f : X → list Y) (l : list X) :
  map g (flat_map f l) = flat_map (λ x, map g (f x)) l.
Proof.
  induction l as [|x l IH]; [done|]. simpl. by rewrite map_app, IH.
Qed.

(** ** Sorting and medians *)

Lemma insert_sorted_Permutation (x : Q) (l : list Q) : insert_sorted x l ≡ₚ x :: l.
Proof.
  induction l as [|y l IH]; simpl; [done|].
  destruct (Qle_bool x y); [done|]. rewrite IH. apply Permutation_swap.
Qed.

Lemma sorted_Permutation (l : list Q) : sorted l ≡ₚ l.
Proof.
  induction l as [|x l IH]; [done|]. simpl.
  by rewrite insert_sorted_Permutation, IH.
Qed.

Lemma length_sorted (l : list Q) : length (sorted l) = length l.
Proof. apply Permutation_length, sorted_Permutation. Qed.

Lemma sorted_lookup_elem (l : list Q) (k : nat) (x : Q) :
  sorted l !! k = Some x → x ∈ l.
Proof.
  intros Hk. rewrite <-(sorted_Permutation l). by eapply list_elem_of_lookup_2.
Qed.

(** Sorting commutes with maps that keep the comparisons. *)
Lemma insert_sorted_map (f : Q → Q) (x : Q) (l : list Q) :
  (∀ a b, Qle_bool (f a) (f b) = Qle_bool a b) →
  insert_sorted (f x) (map f l) = map f (insert_sorted x l).
Proof.
  intros Hf. induction l as [|y l IH]; [done|]. simpl.
  rewrite Hf. destruct (Qle_bool x y); [done|]. simpl. by rewrite IH.
Qed.

Lemma sorted_map (f : Q → Q) (l : list Q) :
  (∀ a b, Qle_bool (f a) (f b) = Qle_bool a b) →
  sorted (map f l) = map f (sorted l).
Proof.
  intros Hf. induction l as [|x l IH]; [done|]. simpl.
  rewrite IH. by apply insert_sorted_map.
Qed.

(** Sorting respects the equality of rationals. *)
Lemma Qle_bool_proper (x x' y y' : Q) :
  (x == x')%Q → (y == y')%Q → Qle_bool x y = Qle_bool x' y'.
Proof.
  intros Hx Hy. destruct (Qle_bool x y) eqn:H1, (Qle_bool x' y') eqn:H2; try done.
  - apply Qle_bool_iff in H1. rewrite Hx, Hy in H1. apply Qle_bool_iff in H1.
    congruence.
  - apply Qle_bool_iff in H2. rewrite <-Hx, <-Hy in H2. apply Qle_bool_iff in H2.
    congruence.
Qed.

Lemma insert_sorted_Qeq (x x' : Q) (l l' : list Q) :
  (x == x')%Q → Forall2 Qeq l l' →
  Forall2 Qeq (insert_sorted x l) (insert_sorted x' l').
Proof.
  intros Hx Hl. induction Hl as [|y y' l l' Hy Hl IH]; simpl.
  - by constructor.
  - rewrite (Qle_bool_proper x x' y y' Hx Hy).
    destruct (Qle_bool x' y'); constructor; try done. by constructor.
Qed.

Lemma sorted_Qeq (l l' : list Q) :
  Forall2 Qeq l l' → Forall2 Qeq (sorted l) (sorted l').
Proof.
  induction 1 as [|x x' l l' Hx Hl IH]; simpl; [constructor|].
  by apply insert_sorted_Qeq.
Qed.

Lemma Forall2_Qeq_lookup (l l' : list Q) (k : nat) :
  Forall2 Qeq l l' → (default 0 (l !! k) == default 0 (l' !! k))%Q.
Proof.
  intros H. revert k. induction H as [|x x' l l' Hx Hl IH]; intros k; [done|].
  destruct k as [|k]; simpl; [done | apply IH].
Qed.

Lemma median_Qeq (l l' : list Q) :
  Forall2 Qeq l l' → ieee_eq (median l) (median l').
Proof.
  intros H. unfold median. rewrite <-(Forall2_length _ _ _ H).
  apply sorted_Qeq in H.
  case_decide; [done|]. destruct (Nat.even (length l)); simpl.
  - by rewrite (Forall2_Qeq_lookup _ _ (length l / 2 - 1) H),
      (Forall2_Qeq_lookup _ _ (length l / 2) H).
  - apply (Forall2_Qeq_lookup _ _ _ H).
Qed.

(** The median of a non-empty list is a number. *)
Lemma median_Fin (l : list Q) :
  l ≠ [] → ∃ m, median l = Fin m.
Proof.
  intros Hl. unfold median. rewrite decide_False by by destruct l.
  destruct (Nat.even (length l)); eauto.
Qed.

Lemma median_nil : median [] = NaN.
Proof. done. Qed.

(** The median lies between bounds of the data. *)
Lemma median_bounds (l : list Q) (lo hi m : Q) :
  (∀ x, x ∈ l → (lo <= x <= hi)%Q) →
  median l = Fin m → (lo <= m <= hi)%Q.
Proof.
  intros Hb. unfold median. case_decide as Hn; [done|].
  assert (Hmid : ∀ k, k < length l →
            (lo <= default 0 (sorted l !! k) <= hi)%Q).
  { intros k Hk.
    destruct (lookup_lt_is_Some_2 (sorted l) k) as [x Hx];
      [by rewrite length_sorted|].
    rewrite Hx. simpl. by apply Hb, (sorted_lookup_elem l k). }
  assert (Hhalf : length l / 2 < length l).
  { apply Nat.div_lt; lia. }
  destruct (Hmid (length l / 2 - 1) ltac:(lia)) as [H1 H2].
  destruct (Hmid (length l / 2) Hhalf) as [H3 H4].
  revert H1 H2 H3 H4.
  generalize (default 0%Q (sorted l !! (length l / 2 - 1))).
  generalize (default 0%Q (sorted l !! (length l / 2))).
  intros a b H1 H2 H3 H4.
  destruct (Nat.even (length l)); intros Hm; inversion Hm; subst m; [|done].
  split.
  - apply Qle_shift_div_l; [done|]. Lqa.lra.
  - apply Qle_shift_div_r; [done|]. Lqa.lra.
Qed.

Lemma median_map (f : Q → Q) (l : list Q) (m : Q) :
  (∀ a b, Qle_bool (f a) (f b) = Qle_bool a b) →
  (∀ a b, (f ((a + b) / 2) == (f a + f b) / 2)%Q) →
  median l = Fin m → ∃ m', median (map f l) = Fin m' ∧ (m' == f m)%Q.
Proof.
  intros Hf Hmean. unfold median. rewrite length_map, (sorted_map f l Hf).
  case_decide as Hn; [done|].
  assert (Hget : ∀ k, k < length l →
            default 0%Q (map f (sorted l) !! k) = f (default 0%Q (sorted l !! k))).
  { intros k Hk. rewrite list_lookup_fmap.
    destruct (lookup_lt_is_Some_2 (sorted l) k) as [x ->];
      [by rewrite length_sorted|]. done. }
  assert (Hhalf : length l / 2 < length l).
  { apply Nat.div_lt; lia. }
  destruct (Nat.even (length l)); intros [= <-]; eexists; (split; [done|]).
  - rewrite !Hget by lia. by rewrite Hmean.
  - by rewrite Hget.
Qed.

Lemma Qle_bool_affine (a c x y : Q) :
  (0 < a)%Q → Qle_bool (a * x + c) (a * y + c) = Qle_bool x y.
Proof.
  intros Ha.
  destruct (Qle_bool x y) eqn:H1, (Qle_bool (a * x + c) (a * y + c)) eqn:H2;
    try done.
  - apply Qle_bool_iff in H1.
    assert (a * x + c <= a * y + c)%Q as H%Qle_bool_iff; [|congruence].
    apply Qplus_le_l, Qmult_le_l; done.
  - apply Qle_bool_iff in H2.
    assert (x <= y)%Q as H%Qle_bool_iff; [|congruence].
    apply Qplus_le_l in H2. by apply Qmult_le_l in H2.
Qed.

Lemma map_Forall2_Qeq {X : Type} (f g : X → Q) (l : list X) :
  (∀ x, (f x == g x)%Q) → Forall2 Qeq (map f l) (map g l).
Proof.
  intros H. induction l as [|x l IH]; simpl; by constructor.
Qed.


(** ** The special values of the ratio matrix *)

Lemma Qdiv_sign (v u : Q) :
  ((0 < u ∧ 0 < v) ∨ (u < 0 ∧ v < 0) → 0 < v / u)%Q
  ∧ ((0 < u ∧ v < 0) ∨ (u < 0 ∧ 0 < v) → v / u < 0)%Q
  ∧ (¬ u == 0 → v == 0 → v / u == 0)%Q.
Proof.
  assert (Hneg : ¬ (u == 0)%Q → (v / u == (- v) / (- u))%Q).
  { intros Hu. field. repeat split; intros H; apply Hu; Lqa.lra. }
  repeat split.
  - intros [[Hu Hv]|[Hu Hv]].
    + apply Qlt_shift_div_l; [done|]. Lqa.lra.
    + rewrite Hneg by Lqa.lra. apply Qlt_shift_div_l; Lqa.lra.
  - intros [[Hu Hv]|[Hu Hv]].
    + apply Qlt_shift_div_r; [done|]. Lqa.lra.
    + rewrite Hneg by Lqa.lra. apply Qlt_shift_div_r; Lqa.lra.
  - intros Hu Hv. rewrite Hv. by field.
Qed.

Lemma log2_fdiv_cases (v u : Q) :
  ((0 < u ∧ 0 < v)%Q ∨ (u < 0 ∧ v < 0)%Q →
   log2 (fdiv v u) = Fin (ln (Q2R (v / u)) / ln 2)%R)
  ∧ (¬ (u == 0)%Q → (v == 0)%Q → log2 (fdiv v u) = NegInf)
  ∧ ((u == 0)%Q → (0 < v)%Q → log2 (fdiv v u) = PosInf)
  ∧ ((u == 0 ∧ v <= 0)%Q ∨ (0 < u ∧ v < 0)%Q ∨ (u < 0 ∧ 0 < v)%Q →
     log2 (fdiv v u) = NaN).
Proof.
  destruct (Qdiv_sign v u) as (Hpos & Hneg & Hzero).
  assert (Hfin : ¬ (u == 0)%Q → fdiv v u = Fin (v / u)%Q) by apply fdiv_nonzero.
  repeat split.
  - intros Hs. rewrite Hfin by (intros H; destruct Hs as [[? ?]|[? ?]]; Lqa.lra).
    simpl. by rewrite (proj2 (Qltb_true 0 (v / u)) (Hpos Hs)).
  - intros Hu Hv. rewrite Hfin by done. simpl.
    pose proof (Hzero Hu Hv) as Hq.
    rewrite (proj2 (Qltb_false 0 (v / u))) by Lqa.lra.
    by rewrite (proj2 (Qeq_bool_iff (v / u) 0) Hq).
  - intros Hu Hv. unfold fdiv.
    rewrite (proj2 (Qeq_bool_iff u 0) Hu).
    destruct (Qeq_bool v 0) eqn:Hv0.
    { apply Qeq_bool_iff in Hv0. Lqa.lra. }
    by rewrite (proj2 (Qltb_true 0 v) Hv).
  - intros [[Hu Hv]|Hs].
    + unfold fdiv. rewrite (proj2 (Qeq_bool_iff u 0) Hu).
      destruct (Qeq_bool v 0); [done|].
      by rewrite (proj2 (Qltb_false 0 v) Hv).
    + rewrite Hfin by (intros H; destruct Hs as [[? ?]|[? ?]]; Lqa.lra).
      simpl. pose proof (Hneg Hs) as Hq.
      rewrite (proj2 (Qltb_false 0 (v / u))) by Lqa.lra.
      destruct (Qeq_bool (v / u) 0) eqn:H0; [|done].
      apply Qeq_bool_iff in H0. Lqa.lra.
Qed.

(** Every binned entry of [D] is the logarithm of the ratio of the
    entries of [Bmod] and [Amod]. *)
Lemma trial_log_ratio (A B : ndarray Q) (threshold minthreshold : Q)
    (triangular : bool) (rnd : draws) (size0 size1 : nat)
    (Amod Bmod : ndarray Q) (D : ndarray (ieee R)) (row col : nat) :
  wf_ndarray A → wf_ndarray B →
  validate A B threshold minthreshold triangular = Ok (size0, size1) →
  serpentin_iteration A B threshold minthreshold triangular rnd
    = Some (Ok (Amod, Bmod, D)) →
  in_universe triangular size0 size1 row col →
  item (Fin 0%R) D row col
  = log2 (fdiv (item 0%Q Bmod row col) (item 0%Q Amod row col)).
Proof.
  intros HA HB Hval Hrun [Hrow Hcol].
  destruct (validated_in_range A B _ _ _ _ _ HA HB Hval) as (HlA & HlB & Hsq & _).
  apply serpentin_iteration_Ok in Hrun
    as (s0 & s1 & st & U' & V' & Hval' & _ & Hfill & Hout).
  rewrite Hval in Hval'. injection Hval' as <- <-.
  apply mean_fill_length in Hfill as [HlU HlV]. simpl in HlU, HlV.
  destruct triangular.
  - rewrite <-Hsq in * by done.
    assert (Amod = (outputs true size0 size0 U' V').1.1) as -> by by rewrite <-Hout.
    assert (Bmod = (outputs true size0 size0 U' V').1.2) as -> by by rewrite <-Hout.
    assert (D = (outputs true size0 size0 U' V').2) as -> by by rewrite <-Hout.
    rewrite outputs_triangular_log_ratio by lia. by rewrite decide_True.
  - unfold outputs in Hout. injection Hout as -> -> ->.
    unfold log_ratio, item, reshape. simpl.
    assert (Hp : row * size1 + col < size0 * size1) by nia.
    destruct (lookup_lt_is_Some_2 U' (row * size1 + col)) as [u Hu]; [lia|].
    destruct (lookup_lt_is_Some_2 V' (row * size1 + col)) as [v Hv]; [lia|].
    rewrite lookup_zip_with, Hu, Hv. simpl.
    apply log2_fdiv_proper; [Lqa.lra | done].
Qed.

(** ** The mass of the averages *)





Section DriverMass.

Variables A B : ndarray Q.
Variables threshold minthreshold : Q.
Variable triangular : bool.
Variable rnds : nat → draws.


End DriverMass.

(** * The claims *)

(** C1. After validation, [serpentin_iteration] should skip a region
    that satisfies the merge predicate but has no neighbour left.  The
    code calls [random.choice] on the empty tuple instead: on the matrix
    pair [A = B = [[1]]] with threshold 10 and minimal threshold 1 the
    only region has sum 1 < 10 and no neighbour, and the trial raises
    [IndexError] whatever the draws are, as long as the region is
    visited. *)
Theorem lone_region_raises (rnd : draws) :
  permutation rnd 0 = [0] →
  serpentin_iteration (constant_matrix 1 1 1) (constant_matrix 1 1 1) 10 1 false rnd
  = Some (Raise IndexError_choice).
Proof.
  intros Hperm. unfold serpentin_iteration. simpl.
  unfold pass. rewrite Hperm. reflexivity.
Qed.

Lemma lone_region_raises_witness :
  serpentin_iteration (constant_matrix 1 1 1) (constant_matrix 1 1 1) 10 1 false
                      (fixed_draws [0])
  = Some (Raise IndexError_choice).
Proof. apply lone_region_raises. reflexivity. Defined.

(** The same exception on a 2 x 2 pair of ones: the third pass visits
    the one region that is left, whose sums are 4 < 10. *)
Lemma last_region_raises :
  serpentin_iteration (constant_matrix 2 2 1) (constant_matrix 2 2 1) 10 1 false
                      (fixed_draws [0; 1; 2; 3])
  = Some (Raise IndexError_choice).
Proof. vm_compute. reflexivity. Qed.

(** C2. In every state of a trial (the initial graph, the state after
    each visit and hence after each merge, and the state with which the
    loop ends) every pixel of the universe (all cells, or the cells with
    [row >= col] in triangular mode) is in exactly one existing region,
    regions hold pixels of the universe only, and no pixel occurs twice
    in a region. *)
Theorem regions_cover_universe (U V : list Q) (threshold minthreshold : Q)
    (rnd : draws) (triangular : bool) (size0 size1 : nat) (st : serpentines) :
  reachable U V threshold minthreshold rnd triangular size0 size1 st
  ∨ (∃ fuel,
       merger U V threshold minthreshold rnd
              (initial_start triangular size0 size1) fuel 0 0 1
              (initial_state triangular size0 size1) = Some (Ok st)) →
  exact_cover (pixel_universe triangular size0 size1) st
  ∧ ∀ p, p ∈ pixel_universe triangular size0 size1 ↔
         ∃ row col, in_universe triangular size0 size1 row col
                    ∧ p = pixel_id triangular size0 size1 row col.
Proof.
  intros H. split; [|apply elem_of_pixel_universe].
  assert (Hr : reachable U V threshold minthreshold rnd triangular size0 size1 st).
  { destruct H as [H|[fuel H]]; [done|].
    eapply merger_reachable; [|done]. constructor. }
  by apply reachable_exact_cover in Hr.
Qed.

Lemma regions_cover_universe_witness :
  let st := {| pixels := [Some [0; 2]; Some [1]; None; Some [3]];
               neighs := [Some {[1; 3]}; Some {[0; 3]}; None; Some {[0; 1]}];
               merges := 1 |} in
  exact_cover (pixel_universe false 2 2) st
  ∧ ∀ p, p ∈ pixel_universe false 2 2 ↔
         ∃ row col, in_universe false 2 2 row col ∧ p = pixel_id false 2 2 row col.
Proof.
  apply (regions_cover_universe [1; 1; 1; 1]%Q [1; 1; 1; 1]%Q 10 1
           (fixed_draws [0; 1; 2; 3]) false 2 2).
  left. eapply reachable_visit with (serp := 0); [apply reachable_initial|].
  vm_compute. reflexivity.
Defined.

(** C3, as the code has it.  The pass loop terminates: the fuel given
    to it in [serpentin_iteration] always suffices, so that a trial
    returns or raises.  The number of existing regions at the end of a
    pass is at most the number at its start; a visit that changes the
    state removes exactly one region, for good, and is one merge; at
    most [start - 1] merges happen in a trial.  The loop is left after a
    pass exactly when the number of regions at the end of that pass
    equals [current_existent], which is the number at the end of the
    previous pass and 1 for the first pass. *)
Theorem pass_loop_terminates (A B : ndarray Q) (threshold minthreshold : Q)
    (rnd : draws) (triangular : bool) (size0 size1 : nat) :
  let U := data A in
  let V := data B in
  let start := initial_start triangular size0 size1 in
  let st0 := initial_state triangular size0 size1 in
  is_Some (serpentin_iteration A B threshold minthreshold triangular rnd)
  ∧ (∀ fuel, start + 2 ≤ fuel →
       is_Some (merger U V threshold minthreshold rnd start fuel 0 0 1 st0))
  ∧ (∀ i st st',
       pass U V threshold minthreshold rnd i st = Ok st' →
       count_existent (pixels st') ≤ count_existent (pixels st))
  ∧ (∀ serp st st',
       visit U V threshold minthreshold rnd serp st = Ok st' →
       st' = st
       ∨ (S (count_existent (pixels st')) = count_existent (pixels st)
          ∧ merges st' = S (merges st)
          ∧ ∀ k, pixels st !! k = Some None → pixels st' !! k = Some None))
  ∧ (∀ st,
       reachable U V threshold minthreshold rnd triangular size0 size1 st →
       merges st ≤ start - 1)
  ∧ (∀ fuel i previous current st st',
       current ≠ previous →
       (print_iteration start;; pass U V threshold minthreshold rnd i st) = Ok st' →
       merger U V threshold minthreshold rnd start (S fuel) i previous current st =
       if decide (count_existent (pixels st') = current) then Some (Ok st')
       else merger U V threshold minthreshold rnd start fuel (S i) current
                   (count_existent (pixels st')) st').
Proof.
  intros U V start st0. split; [apply serpentin_iteration_total|].
  split.
  { intros fuel Hfuel. apply merger_first_pass_enough_fuel.
    unfold st0. simpl. destruct (initial_count triangular size0 size1) as [-> _].
    done. }
  split; [intros i st st'; apply pass_count|].
  split.
  { intros serp st st' Hv. apply visit_Ok in Hv as [->|Hv]; [by left|right].
    destruct Hv as (ps & a & b & s & mn & _ & _ & _ & _ & _ & _ & Hm).
    apply merge_Ok_count in Hm. naive_solver. }
  split; [intros st Hr; by apply reachable_merges_bound in Hr as [? _]|].
  intros fuel i previous current st st'. apply merger_turn.
Qed.

(** C3 as stated fails: on the 1 x 2 pair of ones with threshold 10 the
    first pass merges the two regions, so it leaves one region where
    there were two, and the loop is left after this pass all the same,
    because [current_existent] starts at 1. *)
Lemma loop_left_after_merging_pass :
  let U := [1; 1]%Q in
  let rnd := fixed_draws [0; 1] in
  let st0 := initial_state false 1 2 in
  ∃ st1,
    pass U U 10 1 rnd 0 st0 = Ok st1
    ∧ count_existent (pixels st0) = 2
    ∧ count_existent (pixels st1) = 1
    ∧ ∀ fuel, merger U U 10 1 rnd 2 (S fuel) 0 0 1 st0 = Some (Ok st1).
Proof.
  eexists. split; [vm_compute; reflexivity|].
  split; [reflexivity|]. split; [reflexivity|].
  intros fuel. erewrite merger_turn; [|done|vm_compute; reflexivity].
  reflexivity.
Qed.

(** C4. A visited region that exists, with sums [(a, b)], attempts a
    merge (a neighbour is drawn and merged) if and only if
    [(a < threshold and b < threshold) or a < minthreshold or
    b < minthreshold]; otherwise the visit leaves the state unchanged.
    The attempt shows: the visit does not leave the state as it is.
    When it returns, a neighbour [mn] of the region has been drawn, its
    pixels have been appended to those of the region, its slot is
    [None], and one region and one draw are used up; when the region
    has no neighbour, the draw raises [IndexError]. *)
Theorem visit_merge_predicate (U V : list Q) (threshold minthreshold : Q)
    (rnd : draws) (serp : nat) (st : serpentines) (ps : list nat) (a b : Q) :
  alive st serp ps →
  region_sum U ps = Ok a →
  region_sum V ps = Ok b →
  let attempt :=
    ((a < threshold ∧ b < threshold) ∨ a < minthreshold ∨ b < minthreshold)%Q in
  (merge_predicate threshold minthreshold a b = true ↔ attempt)
  ∧ visit U V threshold minthreshold rnd serp st =
    (if merge_predicate threshold minthreshold a b then
       let* s := get_set (neighs st) serp in
       let* min_neigh := choice (randbelow rnd (merges st)) (elements s) in
       merge serp min_neigh st
     else Ok st)
  ∧ (attempt ↔ visit U V threshold minthreshold rnd serp st ≠ Ok st)
  ∧ (∀ st', visit U V threshold minthreshold rnd serp st = Ok st' → st' ≠ st →
       ∃ s mn pn,
         neighs st !! serp = Some (Some s) ∧ mn ∈ s ∧ alive st mn pn
         ∧ pixels st' = <[mn := None]> (<[serp := Some (ps ++ pn)]> (pixels st))
         ∧ merges st' = S (merges st)
         ∧ S (count_existent (pixels st')) = count_existent (pixels st))
  ∧ (attempt → graph_inv st →
     ∀ s, neighs st !! serp = Some (Some s) →
       (s = ∅ → visit U V threshold minthreshold rnd serp st = Raise IndexError_choice)
       ∧ (s ≠ ∅ → ∃ st', visit U V threshold minthreshold rnd serp st = Ok st'
                         ∧ st' ≠ st)).
Proof.
  intros Hps Ha Hb attempt.
  pose proof (merge_predicate_true threshold minthreshold a b) as Hpred.
  fold attempt in Hpred.
  assert (Heq : visit U V threshold minthreshold rnd serp st =
                if merge_predicate threshold minthreshold a b then
                  let* s := get_set (neighs st) serp in
                  let* min_neigh := choice (randbelow rnd (merges st)) (elements s) in
                  merge serp min_neigh st
                else Ok st).
  { unfold visit. apply getitem_Ok in Hps. rewrite Hps. simpl.
    rewrite Ha, Hb. done. }
  assert (Hchange : attempt ↔ visit U V threshold minthreshold rnd serp st ≠ Ok st).
  { split.
    - intros Hat%Hpred Hfix.
      pose proof (visit_fixed_predicate _ _ _ _ _ _ _ _ _ _ Hfix Hps Ha Hb).
      congruence.
    - intros Hne. apply Hpred.
      destruct (merge_predicate threshold minthreshold a b); [done|].
      by destruct Hne. }
  split; [done|]. split; [done|]. split; [done|]. split.
  - intros st' Hv Hne.
    pose proof Hv as [->|Hm]%visit_Ok; [done|].
    destruct Hm as (ps0 & a0 & b0 & s & mn & _ & _ & _ & _ & Hs & Hmn & Hm).
    pose proof Hm as (ps1 & pn & Hps1 & Hpn & Hpx & Hmerges)%merge_Ok_pixels.
    apply merge_Ok_count in Hm as (Hcount & _).
    unfold alive in Hps. assert (ps1 = ps) as -> by congruence.
    exists s, mn, pn. done.
  - intros Hat%Hpred Hinv s Hs. rewrite Heq, Hat.
    apply get_set_Ok in Hs as Hget. rewrite Hget. simpl. split.
    + intros ->. by rewrite elements_empty, choice_nil.
    + intros Hne.
      destruct (choice_nonempty (randbelow rnd (merges st)) (elements s)) as [mn Hmn].
      { intros Hnil. apply Hne. apply elements_empty_inv in Hnil.
        by apply leibniz_equiv. }
      rewrite Hmn. simpl. apply choice_Ok, elem_of_elements in Hmn.
      destruct (merge_merged st serp mn ps s Hinv Hps Hs Hmn)
        as (pn & t & st' & Hm & _).
      exists st'. split; [done|]. intros ->.
      apply merge_Ok_count in Hm as (_ & Hmerges & _). lia.
Qed.

Lemma visit_merge_predicate_witness :
  let U := [1; 1]%Q in
  let rnd := fixed_draws [0; 1] in
  let st := initial_state false 1 2 in
  let attempt := ((1 < 10 ∧ 1 < 10) ∨ 1 < 1 ∨ 1 < 1)%Q in
  (merge_predicate 10 1 1 1 = true ↔ attempt)
  ∧ visit U U 10 1 rnd 0 st =
    (if merge_predicate 10 1 1 1 then
       let* s := get_set (neighs st) 0 in
       let* min_neigh := choice (randbelow rnd (merges st)) (elements s) in
       merge 0 min_neigh st
     else Ok st)
  ∧ (attempt ↔ visit U U 10 1 rnd 0 st ≠ Ok st)
  ∧ (∀ st', visit U U 10 1 rnd 0 st = Ok st' → st' ≠ st →
       ∃ s mn pn,
         neighs st !! 0 = Some (Some s) ∧ mn ∈ s ∧ alive st mn pn
         ∧ pixels st' = <[mn := None]> (<[0 := Some ([0] ++ pn)]> (pixels st))
         ∧ merges st' = S (merges st)
         ∧ S (count_existent (pixels st')) = count_existent (pixels st))
  ∧ (attempt → graph_inv st →
     ∀ s, neighs st !! 0 = Some (Some s) →
       (s = ∅ → visit U U 10 1 rnd 0 st = Raise IndexError_choice)
       ∧ (s ≠ ∅ → ∃ st', visit U U 10 1 rnd 0 st = Ok st' ∧ st' ≠ st)).
Proof.
  apply (visit_merge_predicate [1; 1]%Q [1; 1]%Q 10 1 (fixed_draws [0; 1]) 0
           (initial_state false 1 2) [0] 1 1); reflexivity.
Defined.

(** C5. When the loop of a trial is left, every existing region with
    sums [(a, b)] satisfies [(a >= threshold or b >= threshold) and
    a >= minthreshold and b >= minthreshold], or it has no neighbour. *)
Theorem converged_threshold_or_isolated (U V : list Q) (threshold minthreshold : Q)
    (rnd : draws) (triangular : bool) (size0 size1 : nat) (fuel : nat)
    (st : serpentines) (k : nat) (ps : list nat) (s : gset nat) (a b : Q) :
  (∀ i, permutation rnd i ≡ₚ range (initial_start triangular size0 size1)) →
  merger U V threshold minthreshold rnd (initial_start triangular size0 size1)
         fuel 0 0 1 (initial_state triangular size0 size1) = Some (Ok st) →
  alive st k ps →
  neighs st !! k = Some (Some s) →
  region_sum U ps = Ok a →
  region_sum V ps = Ok b →
  ((threshold <= a ∨ threshold <= b) ∧ minthreshold <= a ∧ minthreshold <= b)%Q
  ∨ s = ∅.
Proof.
  intros Hperm H Hps Hs Ha Hb.
  destruct (merger_converged U V threshold minthreshold rnd triangular size0 size1
              fuel st k ps s a b) as [Hpred|Hempty]; try done.
  - left. by apply merge_predicate_false.
  - by right.
Qed.

Lemma converged_threshold_or_isolated_witness :
  ((10 <= 100 ∨ 10 <= 100) ∧ 1 <= 100 ∧ 1 <= 100)%Q
  ∨ ({[1; 2]} : gset nat) = ∅.
Proof.
  apply (converged_threshold_or_isolated
           [100; 100; 100; 100]%Q [100; 100; 100; 100]%Q 10 1
           (fixed_draws [0; 1; 2; 3]) false 2 2 6
           (initial_state false 2 2) 0 [0] {[1; 2]} 100 100).
  - intros i. reflexivity.
  - vm_compute. reflexivity.
  - reflexivity.
  - reflexivity.
  - reflexivity.
  - reflexivity.
Defined.

(** C6, as the code has it.  When a trial returns, the smoothed
    matrices have the mass of the inputs in non-triangular mode; in
    triangular mode the mass over the positions with [row >= col] is
    kept (the mirrored upper triangle is not part of the binning). *)
Theorem mass_conservation (A B : ndarray Q) (threshold minthreshold : Q)
    (triangular : bool) (rnd : draws) (Amod Bmod : ndarray Q)
    (D : ndarray (ieee R)) :
  wf_ndarray A → wf_ndarray B →
  serpentin_iteration A B threshold minthreshold triangular rnd
    = Some (Ok (Amod, Bmod, D)) →
  if triangular then
    ∃ n, shape A = [n; n]
         ∧ (lower_sum n Amod == lower_sum n A)%Q
         ∧ (lower_sum n Bmod == lower_sum n B)%Q
  else
    (Qsum (data Amod) == Qsum (data A))%Q
    ∧ (Qsum (data Bmod) == Qsum (data B))%Q.
Proof.
  intros HwA HwB H.
  apply serpentin_iteration_Ok in H
    as (size0 & size1 & st & U' & V' & Hval & Hm & Hfill & Hout).
  apply validate_Ok in Hval as (HA & HB & _ & Hsq).
  pose proof (merger_regions _ _ _ _ _ _ _ _ _ _ Hm) as Hpix.
  apply mean_fill_sum_at with (universe := pixel_universe triangular size0 size1)
    in Hfill as (HU & HV & HlU & HlV);
    [|apply NoDup_pixel_universe | done].
  simpl in HU, HV, HlU, HlV.
  destruct triangular.
  - specialize (Hsq eq_refl) as <-. exists size0. split; [done|].
    injection Hout as -> -> _.
    rewrite !lower_sum_symmetrize, !lower_sum_reshape, HU, HV.
    rewrite HA in HB. by rewrite !lower_sum_shape.
  - injection Hout as -> -> _. simpl.
    unfold wf_ndarray in HwA, HwB. rewrite HB, HA in HwB. rewrite HA in HwA.
    simpl in HwA, HwB. rewrite Nat.mul_1_r in HwA, HwB.
    rewrite pixel_universe_full in HU, HV.
    rewrite !Qsum_sum_at, HlU, HlV, HwA, HwB. done.
Qed.

Lemma mass_conservation_witness :
  let A := constant_matrix 2 2 100 in
  let out := outputs false 2 2 (data A) (data A) in
  (Qsum (data out.1.1) == Qsum (data A))%Q
  ∧ (Qsum (data out.1.2) == Qsum (data A))%Q.
Proof.
  intros A out.
  apply (mass_conservation A A 10 1 false (fixed_draws [0; 1; 2; 3])
           out.1.1 out.1.2 out.2); [reflexivity | reflexivity |].
  unfold serpentin_iteration.
  replace (validate A A 10 1 false) with (Ok (A := nat * nat) (2, 2))
    by (vm_compute; reflexivity).
  cbv beta iota zeta.
  replace (merger (data A) (data A) 10 1 (fixed_draws [0; 1; 2; 3])
             (initial_start false 2 2) (initial_start false 2 2 + 2) 0 0 1
             (initial_state false 2 2))
    with (Some (Ok (initial_state false 2 2))) by (vm_compute; reflexivity).
  replace (print_iteration (initial_start false 2 2)) with (Ok ())
    by (vm_compute; reflexivity).
  replace (mean_fill (existent (pixels (initial_state false 2 2))) (data A, data A))
    with (Ok (data A, data A)) by (vm_compute; reflexivity).
  reflexivity.
Defined.

(** C6 as stated fails in triangular mode: on the symmetric pair
    [A = B = [[6, 1], [1, 5]]] with threshold 10 the three cells of the
    lower triangle end in one region of mean 4, every entry of [Amod]
    is 4, and [sum(Amod) = 16] while [sum(A) = 13]. *)
Lemma triangular_mass_not_conserved :
  let A := NdArray [2; 2] [6; 1; 1; 5]%Q in
  ∃ Amod Bmod D,
    serpentin_iteration A A 10 1 true (fixed_draws [0; 1; 2])
      = Some (Ok (Amod, Bmod, D))
    ∧ (Qsum (data Amod) == 16)%Q ∧ (Qsum (data A) == 13)%Q
    ∧ ¬ (Qsum (data Amod) == Qsum (data A))%Q.
Proof.
  intros A.
  set (W := [12 # 3; 1; 12 # 3; 12 # 3]%Q).
  exists (outputs true 2 2 W W).1.1, (outputs true 2 2 W W).1.2, (outputs true 2 2 W W).2.
  split.
  - unfold serpentin_iteration.
    replace (validate A A 10 1 true) with (Ok (A := nat * nat) (2, 2))
      by (vm_compute; reflexivity).
    cbv beta iota zeta.
    replace (merger (data A) (data A) 10 1 (fixed_draws [0; 1; 2])
               (initial_start true 2 2) (initial_start true 2 2 + 2) 0 0 1
               (initial_state true 2 2))
      with (Some (Ok {| pixels := [None; None; Some [3; 0; 2]];
                        neighs := [None; None; Some ∅];
                        merges := 2 |})) by (vm_compute; reflexivity).
    replace (print_iteration (initial_start true 2 2)) with (Ok ())
      by (vm_compute; reflexivity).
    replace (mean_fill (existent (pixels _)) (data A, data A)) with (Ok (W, W))
      by (vm_compute; reflexivity).
    reflexivity.
  - assert (H16 : (Qsum (data (outputs true 2 2 W W).1.1) == 16)%Q)
      by (vm_compute; reflexivity).
    assert (H13 : (Qsum (data A) == 13)%Q) by (vm_compute; reflexivity).
    split; [done|]. split; [done|]. rewrite H16, H13. by intros H.
Qed.

(** C7. In triangular mode the returned [D] is [log2(Bmod / Amod)] at
    the positions with [row >= col] and zero at the positions with
    [row < col]. *)
Theorem triangular_log_ratio (A B : ndarray Q) (threshold minthreshold : Q)
    (rnd : draws) (Amod Bmod : ndarray Q) (D : ndarray (ieee R)) :
  serpentin_iteration A B threshold minthreshold true rnd
    = Some (Ok (Amod, Bmod, D)) →
  ∃ n, shape A = [n; n] ∧ shape D = [n; n]
       ∧ ∀ row col, row < n → col < n →
           item (Fin 0%R) D row col =
           if decide (col ≤ row)
           then log2 (fdiv (item 0%Q Bmod row col) (item 0%Q Amod row col))
           else Fin 0%R.
Proof.
  intros H.
  apply serpentin_iteration_Ok in H
    as (size0 & size1 & st & U' & V' & Hval & _ & _ & Hout).
  apply validate_Ok in Hval as (HA & _ & _ & Hsq).
  specialize (Hsq eq_refl) as <-. exists size0. split; [done|].
  assert (Amod = (outputs true size0 size0 U' V').1.1) as -> by by rewrite <-Hout.
  assert (Bmod = (outputs true size0 size0 U' V').1.2) as -> by by rewrite <-Hout.
  assert (D = (outputs true size0 size0 U' V').2) as -> by by rewrite <-Hout.
  split.
  - unfold outputs, log_ratio_triangular. cbn [snd].
    by rewrite shape_symmetrize.
  - intros row col. apply outputs_triangular_log_ratio.
Qed.

Lemma triangular_log_ratio_witness :
  let A := constant_matrix 2 2 100 in
  let out := outputs true 2 2 (data A) (data A) in
  ∃ n, shape A = [n; n] ∧ shape out.2 = [n; n]
       ∧ ∀ row col, row < n → col < n →
           item (Fin 0%R) out.2 row col =
           if decide (col ≤ row)
           then log2 (fdiv (item 0%Q out.1.2 row col) (item 0%Q out.1.1 row col))
           else Fin 0%R.
Proof.
  intros A out.
  apply (triangular_log_ratio A A 10 1 (fixed_draws [0; 1; 2])
           out.1.1 out.1.2 out.2).
  unfold serpentin_iteration.
  replace (validate A A 10 1 true) with (Ok (A := nat * nat) (2, 2))
    by (vm_compute; reflexivity).
  cbv beta iota zeta.
  replace (merger (data A) (data A) 10 1 (fixed_draws [0; 1; 2])
             (initial_start true 2 2) (initial_start true 2 2 + 2) 0 0 1
             (initial_state true 2 2))
    with (Some (Ok (initial_state true 2 2))) by (vm_compute; reflexivity).
  replace (print_iteration (initial_start true 2 2)) with (Ok ())
    by (vm_compute; reflexivity).
  replace (mean_fill (existent (pixels (initial_state true 2 2))) (data A, data A))
    with (Ok (data A, data A)) by (vm_compute; reflexivity).
  reflexivity.
Defined.

(** C8, as the code has it.  [serpentin_binning] raises before any
    trial exactly the errors of the validation of the shapes and of
    [minthreshold < threshold].  It has no check of [iterations] or of
    [parallel]: once the validation has passed, an exception can only
    come out of a trial; with [iterations <= 0] no trial is run and the
    zero accumulators divided by [iterations] are returned; with
    [parallel <= 1], also when it is zero or negative, the trials are
    run one after the other. *)
Theorem binning_validation (A B : ndarray Q) (threshold minthreshold : Q)
    (triangular : bool) (rnds : nat → draws) (iterations parallel : Z) :
  (∀ e, validate A B threshold minthreshold triangular = Raise e →
        serpentin_binning A B threshold minthreshold triangular rnds
                          iterations parallel = Some (Raise e))
  ∧ (∀ size, validate A B threshold minthreshold triangular = Ok size →
       (∀ e, serpentin_binning A B threshold minthreshold triangular rnds
                               iterations parallel = Some (Raise e) →
             ∃ x, (Z.of_nat x < iterations)%Z
                  ∧ serpentin_iteration A B threshold minthreshold triangular
                                        (rnds x) = Some (Raise e))
       ∧ ((iterations ≤ 0)%Z →
          serpentin_binning A B threshold minthreshold triangular rnds
                            iterations parallel
          = Some (Ok (average (zero_sums A) iterations)))
       ∧ ((parallel ≤ 1)%Z →
          serpentin_binning A B threshold minthreshold triangular rnds
                            iterations parallel
          = match sequential A B threshold minthreshold triangular rnds
                             (range (Z.to_nat iterations)) (zero_sums A) with
            | None => None
            | Some (Raise e) => Some (Raise e)
            | Some (Ok s) => Some (Ok (average s iterations))
            end)).
Proof.
  split.
  - intros e Hval. unfold serpentin_binning. by rewrite Hval.
  - intros size Hval. split; [|split].
    + intros e. by apply binning_Raise with (size := size).
    + by apply binning_no_iterations with (size := size).
    + by apply binning_sequential with (size := size).
Qed.

(** C8 as stated fails: with [iterations = 0], and with
    [parallel = 0], the driver returns and raises nothing. *)
Lemma binning_accepts_nonpositive_parameters :
  let A := constant_matrix 1 1 100 in
  let rnds := λ _ : nat, fixed_draws [0] in
  (∃ r, serpentin_binning A A 10 1 false rnds 0 16 = Some (Ok r))
  ∧ (∃ r, serpentin_binning A A 10 1 false rnds (-3) 16 = Some (Ok r))
  ∧ (∃ r, serpentin_binning A A 10 1 false rnds 1 0 = Some (Ok r)).
Proof.
  intros A rnds.
  assert (Hval : validate A A 10 1 false = Ok (1, 1)) by (vm_compute; reflexivity).
  split; [|split].
  - eexists. by apply binning_no_iterations with (size := (1, 1)).
  - eexists. by apply binning_no_iterations with (size := (1, 1)).
  - assert (Htrial : ∃ out, serpentin_iteration A A 10 1 false (rnds 0)
                            = Some (Ok out)).
    { eexists. unfold serpentin_iteration. rewrite Hval. cbv beta iota zeta.
      replace (merger (data A) (data A) 10 1 (rnds 0)
                 (initial_start false 1 1) (initial_start false 1 1 + 2) 0 0 1
                 (initial_state false 1 1))
        with (Some (Ok (initial_state false 1 1))) by (vm_compute; reflexivity).
      replace (print_iteration (initial_start false 1 1)) with (Ok ())
        by (vm_compute; reflexivity).
      replace (mean_fill (existent (pixels (initial_state false 1 1)))
                 (data A, data A))
        with (Ok (data A, data A)) by (vm_compute; reflexivity).
      reflexivity. }
    destruct Htrial as [out Hout].
    eexists. rewrite binning_sequential with (size := (1, 1)) by done.
    change (range (Z.to_nat 1)) with [0]. cbn [sequential].
    rewrite Hout. reflexivity.
Qed.

(** C9. For [A = B =] the 4 x 4 matrix of ones, threshold 10, minimal
    threshold 1, non-triangular mode, and any draws, the loop ends with
    one region that holds the sixteen pixels; the trial returns [Amod]
    and [Bmod] with every entry equal to 1 and [D] with every entry 0. *)
Theorem all_ones_converges (rnd : draws) :
  (∀ i, permutation rnd i ≡ₚ range 16) →
  let A := constant_matrix 4 4 1 in
  ∃ st ps Amod Bmod,
    merger (data A) (data A) 10 1 rnd 16 18 0 0 1 (initial_state false 4 4)
      = Some (Ok st)
    ∧ existent (pixels st) = [ps] ∧ ps ≡ₚ seq 0 16
    ∧ serpentin_iteration A A 10 1 false rnd
      = Some (Ok (Amod, Bmod, NdArray [4; 4] (replicate 16 (Fin 0%R))))
    ∧ shape Amod = [4; 4] ∧ length (data Amod) = 16
    ∧ Forall (λ x, (x == 1)%Q) (data Amod)
    ∧ shape Bmod = [4; 4] ∧ length (data Bmod) = 16
    ∧ Forall (λ x, (x == 1)%Q) (data Bmod).
Proof.
  intros Hperm A.
  change (data A) with ones16.
  destruct (ones_merger_returns rnd Hperm) as [st Hm].
  destruct (ones_single_region rnd Hperm st Hm) as (ps & Hex & Hps).
  destruct (ones_fill ps Hps) as (m & Hfill & Hm1).
  exists st, ps, (NdArray [4; 4] (replicate 16 m)), (NdArray [4; 4] (replicate 16 m)).
  split; [done|]. split; [done|]. split; [done|].
  assert (Hall : Forall (λ x, (x == 1)%Q) (replicate 16 m)).
  { apply Forall_forall. intros x Hx. by apply elem_of_replicate in Hx as [-> _]. }
  split; [|cbn [shape data]; by rewrite length_replicate].
  unfold serpentin_iteration.
  replace (validate A A 10 1 false) with (Ok (A := nat * nat) (4, 4))
    by (vm_compute; reflexivity).
  cbv beta iota zeta.
  change (data A) with ones16.
  change (initial_start false 4 4 + 2) with 18.
  change (initial_start false 4 4) with 16.
  rewrite Hm, Hex.
  replace (print_iteration 16) with (Ok ()) by reflexivity.
  unfold mean_fill. cbn [for_each bind fst snd]. rewrite Hfill.
  cbn [bind fst snd]. do 2 f_equal.
  unfold outputs, log_ratio, reshape. cbn [shape data]. do 2 f_equal.
  rewrite zip_with_replicate. f_equal.
  rewrite <-log2_one. apply log2_fdiv_proper; [rewrite Hm1; ring | done].
Qed.

Lemma all_ones_converges_witness :
  let A := constant_matrix 4 4 1 in
  ∃ st ps Amod Bmod,
    merger (data A) (data A) 10 1 (fixed_draws (range 16)) 16 18 0 0 1
           (initial_state false 4 4) = Some (Ok st)
    ∧ existent (pixels st) = [ps] ∧ ps ≡ₚ seq 0 16
    ∧ serpentin_iteration A A 10 1 false (fixed_draws (range 16))
      = Some (Ok (Amod, Bmod, NdArray [4; 4] (replicate 16 (Fin 0%R))))
    ∧ shape Amod = [4; 4] ∧ length (data Amod) = 16
    ∧ Forall (λ x, (x == 1)%Q) (data Amod)
    ∧ shape Bmod = [4; 4] ∧ length (data Bmod) = 16
    ∧ Forall (λ x, (x == 1)%Q) (data Bmod).
Proof.
  apply (all_ones_converges (fixed_draws (range 16))).
  intros i. reflexivity.
Defined.

(** C10. In triangular mode the entries above the diagonal of the
    inputs do not matter: two input pairs of one square shape that
    agree wherever [row >= col] give the same result (the same triple
    or the same exception) for the same draws. *)
Theorem triangular_upper_irrelevant (n : nat) (A B A' B' : ndarray Q)
    (threshold minthreshold : Q) (rnd : draws) :
  shape A = [n; n] → shape B = [n; n] →
  shape A' = [n; n] → shape B' = [n; n] →
  (∀ row col, col ≤ row → row < n →
     data A' !! (row * n + col) = data A !! (row * n + col)
     ∧ data B' !! (row * n + col) = data B !! (row * n + col)) →
  serpentin_iteration A' B' threshold minthreshold true rnd =
  serpentin_iteration A B threshold minthreshold true rnd.
Proof.
  intros HA HB HA' HB' Hag.
  assert (HU : agree_on (pixel_universe true n n) (data A) (data A')).
  { intros p (row & col & [? ?] & ->)%elem_of_pixel_universe. by apply Hag. }
  assert (HV : agree_on (pixel_universe true n n) (data B) (data B')).
  { intros p (row & col & [? ?] & ->)%elem_of_pixel_universe. by apply Hag. }
  unfold serpentin_iteration.
  assert (Hval : validate A' B' threshold minthreshold true =
                 validate A B threshold minthreshold true).
  { unfold validate. by rewrite HA, HB, HA', HB'. }
  rewrite Hval.
  destruct (validate A B threshold minthreshold true) as [[size0 size1]|e] eqn:Hv;
    [|done].
  apply validate_Ok in Hv as (Hs & _ & _ & Hsq).
  specialize (Hsq eq_refl) as <-.
  assert (size0 = n) as -> by congruence.
  rewrite (merger_agree (data A) (data B) (data A') (data B') threshold
             minthreshold rnd true n n HU HV)
    by apply initial_trial_inv.
  destruct (merger (data A) (data B) _ _ _ _ _ _ _ _ _) as [[st|e]|] eqn:Hm;
    [|done..].
  f_equal. destruct (print_iteration (initial_start true n n)); [|done]. simpl.
  destruct (mean_fill_agree (pixel_universe true n n) (existent (pixels st))
              (data A) (data B) (data A') (data B') HU HV)
    as [(e & -> & ->)|(U1 & V1 & U1' & V1' & -> & -> & HU1 & HV1)]; [|done|].
  { intros ps Hps. eapply merger_regions; eauto. }
  simpl. f_equal. by apply outputs_triangular_agree.
Qed.

Lemma triangular_upper_irrelevant_witness :
  serpentin_iteration (NdArray [2; 2] [6; 9; 1; 5]%Q) (NdArray [2; 2] [6; 7; 1; 5]%Q)
                      10 1 true (fixed_draws [0; 1; 2]) =
  serpentin_iteration (NdArray [2; 2] [6; 1; 1; 5]%Q) (NdArray [2; 2] [6; 1; 1; 5]%Q)
                      10 1 true (fixed_draws [0; 1; 2]).
Proof.
  apply (triangular_upper_irrelevant 2); try reflexivity.
  intros row col Hcol Hrow.
  destruct row as [|[|row]]; [| |lia]; destruct col as [|[|col]]; try lia;
    split; reflexivity.
Defined.

(** * Further properties *)

(** X1. After a passed validation, on well-formed arrays and with
    visiting orders that are permutations of the region indices, a trial
    raises only two exceptions: [ZeroDivisionError], when the matrices
    have no entry, and the [IndexError] of [random.choice], when a visit
    finds a region that satisfies the merge predicate and has no
    neighbour.  No index is ever out of range, no [None] is used as a
    region, and [set.remove] never misses its element. *)
Theorem trial_exceptions (A B : ndarray Q) (threshold minthreshold : Q)
    (triangular : bool) (rnd : draws) (size0 size1 : nat) (e : exn) :
  wf_ndarray A → wf_ndarray B →
  validate A B threshold minthreshold triangular = Ok (size0, size1) →
  (∀ i, permutation rnd i ≡ₚ range (initial_start triangular size0 size1)) →
  serpentin_iteration A B threshold minthreshold triangular rnd = Some (Raise e) →
  (e = ZeroDivisionError ∧ size0 * size1 = 0)
  ∨ (e = IndexError_choice ∧ 0 < size0 * size1
     ∧ ∃ st serp,
         reachable (data A) (data B) threshold minthreshold rnd
                   triangular size0 size1 st
         ∧ serp < initial_start triangular size0 size1
         ∧ stuck (data A) (data B) threshold minthreshold st serp).
Proof.
  apply serpentin_iteration_Raise.
Qed.

Lemma trial_exceptions_witness :
  (IndexError_choice = ZeroDivisionError ∧ 1 * 1 = 0)
  ∨ (IndexError_choice = IndexError_choice ∧ 0 < 1 * 1
     ∧ ∃ st serp,
         reachable (data (constant_matrix 1 1 1)) (data (constant_matrix 1 1 1))
                   10 1 (fixed_draws [0]) false 1 1 st
         ∧ serp < initial_start false 1 1
         ∧ stuck (data (constant_matrix 1 1 1)) (data (constant_matrix 1 1 1))
                 10 1 st serp).
Proof.
  apply (trial_exceptions (constant_matrix 1 1 1) (constant_matrix 1 1 1) 10 1
           false (fixed_draws [0]) 1 1 IndexError_choice);
    [reflexivity | reflexivity | vm_compute; reflexivity
    | intros i; reflexivity | vm_compute; reflexivity].
Defined.

(** X2. A pair of matrices without entries passes the validation when
    the shapes agree, and the trial then raises [ZeroDivisionError] in
    the first progress line, whatever the draws are. *)
Theorem empty_matrix_raises (A B : ndarray Q) (threshold minthreshold : Q)
    (triangular : bool) (rnd : draws) (size0 size1 : nat) :
  validate A B threshold minthreshold triangular = Ok (size0, size1) →
  size0 * size1 = 0 →
  serpentin_iteration A B threshold minthreshold triangular rnd
  = Some (Raise ZeroDivisionError).
Proof.
  intros Hval H0. pose proof Hval as (_ & _ & _ & Hsq)%validate_Ok.
  apply (initial_start_zero triangular size0 size1 Hsq) in H0.
  unfold serpentin_iteration. rewrite Hval, H0. reflexivity.
Qed.

Lemma empty_matrix_raises_witness :
  serpentin_iteration (NdArray [0; 3] []) (NdArray [0; 3] []) 10 1 false
                      (fixed_draws [])
  = Some (Raise ZeroDivisionError).
Proof.
  apply (empty_matrix_raises _ _ _ _ _ _ 0 3); [vm_compute; reflexivity | lia].
Defined.

(** X3. In every state of a trial, in both modes, a region has no
    neighbour exactly when it holds every pixel of the universe, which
    is exactly when it is the only region left: as long as two regions
    exist, each of them has a neighbour to merge with. *)
Theorem isolated_iff_whole (U V : list Q) (threshold minthreshold : Q)
    (rnd : draws) (triangular : bool) (size0 size1 : nat) (st : serpentines)
    (k : nat) (ps : list nat) (s : gset nat) :
  reachable U V threshold minthreshold rnd triangular size0 size1 st →
  alive st k ps →
  neighs st !! k = Some (Some s) →
  (s = ∅ ↔ ps ≡ₚ pixel_universe triangular size0 size1)
  ∧ (s = ∅ ↔ count_existent (pixels st) = 1).
Proof.
  intros Hr Hk Hs.
  pose proof (reachable_trial_inv _ _ _ _ _ _ _ _ _ Hr) as Hinv.
  pose proof (reachable_universe_adj_complete _ _ _ _ _ _ _ _ _ Hr) as Hadj.
  assert (H1 : s = ∅ → ps ≡ₚ pixel_universe triangular size0 size1).
  { intros ->.
    destruct (decide (ps ≡ₚ pixel_universe triangular size0 size1)) as [|Hproper];
      [done|].
    destruct (region_has_neighbour triangular size0 size1 st k ps Hinv Hadj Hk Hproper)
      as (s' & j & Hs' & Hj).
    rewrite Hs in Hs'. injection Hs' as <-. set_solver. }
  assert (H2 : ps ≡ₚ pixel_universe triangular size0 size1 →
               s = ∅ ∧ count_existent (pixels st) = 1).
  { intros Hall.
    destruct (whole_region_alone triangular size0 size1 st k ps Hinv
                (proj1 Hadj) Hk Hall) as [Hs' Honly].
    split; [congruence|]. by apply (count_existent_one _ k ps Hk). }
  assert (H3 : count_existent (pixels st) = 1 →
               ps ≡ₚ pixel_universe triangular size0 size1).
  { intros Hc. apply (only_region_whole triangular size0 size1 st k ps Hinv Hk).
    by apply (count_existent_one _ k ps Hk). }
  split; split; intros H; try (by apply H1); by apply H2; auto.
Qed.

Lemma isolated_iff_whole_witness :
  ((∅ : gset nat) = ∅ ↔ [0; 1] ≡ₚ pixel_universe false 1 2)
  ∧ ((∅ : gset nat) = ∅ ↔
     count_existent (pixels {| pixels := [Some [0; 1]; None];
                               neighs := [Some ∅; None];
                               merges := 1 |}) = 1).
Proof.
  apply (isolated_iff_whole [1; 1]%Q [1; 1]%Q 10 1 (fixed_draws [0; 1]) false 1 2
           {| pixels := [Some [0; 1]; None]; neighs := [Some ∅; None]; merges := 1 |}
           0 [0; 1] ∅).
  - eapply reachable_visit with (serp := 0); [apply reachable_initial|].
    vm_compute. reflexivity.
  - reflexivity.
  - reflexivity.
Defined.

(** X4. In both modes and for every shape with at least one entry: when
    the sums of the two matrices over all binned pixels do not satisfy
    the merge predicate, the trial returns a triple for every sequence
    of draws.  The [IndexError] of C1 needs matrices whose totals are
    below the thresholds.  The entries are integers whose absolute
    values add up to at most [2 ^ 11] over the binned pixels: the sums
    that the code computes in the number type of the matrices, integer
    or floating point, are then the exact sums ([exact_sums_region]). *)
Theorem trial_returns_when_totals_fail (A B : ndarray Q) (threshold minthreshold : Q)
    (triangular : bool) (rnd : draws) (size0 size1 : nat) :
  wf_ndarray A → wf_ndarray B →
  validate A B threshold minthreshold triangular = Ok (size0, size1) →
  0 < size0 * size1 →
  (∀ i, permutation rnd i ≡ₚ range (initial_start triangular size0 size1)) →
  exact_sums (data A) (pixel_universe triangular size0 size1) = true →
  exact_sums (data B) (pixel_universe triangular size0 size1) = true →
  merge_predicate threshold minthreshold
    (sum_at (data A) (pixel_universe triangular size0 size1))
    (sum_at (data B) (pixel_universe triangular size0 size1)) = false →
  ∃ out, serpentin_iteration A B threshold minthreshold triangular rnd
         = Some (Ok out).
Proof.
  intros HA HB Hval Hpos Hperm _ _ Htot.
  destruct (serpentin_iteration_total A B threshold minthreshold triangular rnd)
    as [[out|e] Hrun]; [eauto|].
  destruct (serpentin_iteration_Raise A B _ _ _ _ _ _ e HA HB Hval Hperm Hrun)
    as [[_ H0]|(_ & _ & st & serp & Hr & _ & Hst)]; [lia|].
  apply (stuck_total _ _ _ _ _ _ _ _ _ _ Hr) in Hst. congruence.
Qed.

Lemma trial_returns_when_totals_fail_witness :
  ∃ out, serpentin_iteration (constant_matrix 2 2 100) (constant_matrix 2 2 100)
                             10 1 true (fixed_draws [0; 1; 2])
         = Some (Ok out).
Proof.
  apply (trial_returns_when_totals_fail _ _ _ _ _ _ 2 2);
    [reflexivity | reflexivity | vm_compute; reflexivity | lia
    | intros i; reflexivity | vm_compute; reflexivity | vm_compute; reflexivity
    | vm_compute; reflexivity].
Defined.

(** X5. The invariant of the region graph holds in every state of a
    trial and in the state with which the loop ends: [pixels] and
    [neighs] keep one slot per initial region, a slot is [None] in one
    list exactly when it is [None] in the other, no region is its own
    neighbour, every neighbour of a region exists and has the region
    among its own neighbours, and the merges done so far plus the
    regions that exist add up to the initial number of regions. *)
Theorem graph_invariant (U V : list Q) (threshold minthreshold : Q)
    (rnd : draws) (triangular : bool) (size0 size1 : nat) (st : serpentines) :
  reachable U V threshold minthreshold rnd triangular size0 size1 st
  ∨ (∃ fuel,
       merger U V threshold minthreshold rnd
              (initial_start triangular size0 size1) fuel 0 0 1
              (initial_state triangular size0 size1) = Some (Ok st)) →
  length (pixels st) = initial_start triangular size0 size1
  ∧ length (neighs st) = initial_start triangular size0 size1
  ∧ (∀ k, pixels st !! k = Some None ↔ neighs st !! k = Some None)
  ∧ (∀ k s j, neighs st !! k = Some (Some s) → j ∈ s →
       j ≠ k ∧ (∃ pj, alive st j pj)
       ∧ ∃ t, neighs st !! j = Some (Some t) ∧ k ∈ t)
  ∧ merges st + count_existent (pixels st) = initial_start triangular size0 size1.
Proof.
  intros H.
  assert (Hr : reachable U V threshold minthreshold rnd triangular size0 size1 st).
  { destruct H as [H|[fuel H]]; [done|].
    eapply merger_reachable; [|done]. constructor. }
  apply reachable_trial_inv in Hr as [Hg _ Hlen Hm].
  split; [done|]. split; [by rewrite (inv_length st Hg)|].
  split; [apply (inv_exists st Hg)|]. split; [|done].
  intros k s j Hs Hj.
  destruct (inv_neigh st Hg k s j Hs Hj) as (Hne & t & Ht & Hk).
  split; [done|]. split; [by eapply graph_inv_pixels | eauto].
Qed.

Lemma graph_invariant_witness :
  let st := {| pixels := [Some [0; 2]; Some [1]; None; Some [3]];
               neighs := [Some {[1; 3]}; Some {[0; 3]}; None; Some {[0; 1]}];
               merges := 1 |} in
  length (pixels st) = initial_start false 2 2
  ∧ length (neighs st) = initial_start false 2 2
  ∧ (∀ k, pixels st !! k = Some None ↔ neighs st !! k = Some None)
  ∧ (∀ k s j, neighs st !! k = Some (Some s) → j ∈ s →
       j ≠ k ∧ (∃ pj, alive st j pj)
       ∧ ∃ t, neighs st !! j = Some (Some t) ∧ k ∈ t)
  ∧ merges st + count_existent (pixels st) = initial_start false 2 2.
Proof.
  apply (graph_invariant [1; 1; 1; 1]%Q [1; 1; 1; 1]%Q 10 1
           (fixed_draws [0; 1; 2; 3]) false 2 2).
  left. eapply reachable_visit with (serp := 0); [apply reachable_initial|].
  vm_compute. reflexivity.
Defined.

(** X6. In every state of a trial, in both modes, the neighbour sets
    are the adjacency of the regions: a region [k'] is in the
    neighbour set of another region [k] exactly when some pixel of [k]
    is next to some pixel of [k'] in the matrix (in the lower triangle,
    in triangular mode). *)
Theorem neighbours_iff_touching (U V : list Q) (threshold minthreshold : Q)
    (rnd : draws) (triangular : bool) (size0 size1 : nat) (st : serpentines)
    (k k' : nat) (ps ps' : list nat) (s : gset nat) :
  reachable U V threshold minthreshold rnd triangular size0 size1 st →
  alive st k ps → alive st k' ps' → k ≠ k' →
  neighs st !! k = Some (Some s) →
  k' ∈ s ↔ ∃ p q, p ∈ ps ∧ q ∈ ps' ∧ universe_adj triangular size0 size1 p q.
Proof.
  intros Hr Hk Hk' Hne Hs. split.
  - intros Hin.
    destruct (reachable_universe_adj_sound _ _ _ _ _ _ _ _ _ Hr k s k' Hs Hin)
      as (ps0 & ps0' & p & q & Hk0 & Hk0' & Hp & Hq & Hpq).
    unfold alive in *.
    assert (ps0 = ps) as -> by congruence.
    assert (ps0' = ps') as -> by congruence.
    eauto.
  - intros (p & q & Hp & Hq & Hpq).
    destruct (reachable_universe_adj_complete _ _ _ _ _ _ _ _ _ Hr) as [_ Hadj].
    destruct (Hadj k k' ps ps' p q Hk Hk' Hne Hp Hq Hpq) as (s0 & Hs0 & Hin).
    congruence.
Qed.

Lemma neighbours_iff_touching_witness :
  3 ∈ ({[1; 3]} : gset nat) ↔
  ∃ p q, p ∈ [0; 2] ∧ q ∈ [3] ∧ universe_adj false 2 2 p q.
Proof.
  apply (neighbours_iff_touching [1; 1; 1; 1]%Q [1; 1; 1; 1]%Q 10 1
           (fixed_draws [0; 1; 2; 3]) false 2 2
           {| pixels := [Some [0; 2]; Some [1]; None; Some [3]];
              neighs := [Some {[1; 3]}; Some {[0; 3]}; None; Some {[0; 1]}];
              merges := 1 |} 0 3).
  - eapply reachable_visit with (serp := 0); [apply reachable_initial|].
    vm_compute. reflexivity.
  - reflexivity.
  - reflexivity.
  - lia.
  - reflexivity.
Defined.

(** X7. Every region of every state of a trial is a non-empty,
    connected set of pixels: any two of its pixels are joined by a path
    of adjacent pixels that stays inside the region. *)
Theorem regions_connected (U V : list Q) (threshold minthreshold : Q)
    (rnd : draws) (triangular : bool) (size0 size1 : nat) (st : serpentines)
    (k : nat) (ps : list nat) :
  reachable U V threshold minthreshold rnd triangular size0 size1 st →
  alive st k ps →
  ps ≠ [] ∧ connected (universe_adj triangular size0 size1) ps.
Proof.
  intros Hr Hk. split.
  - destruct (reachable_universe_adj_complete _ _ _ _ _ _ _ _ _ Hr) as [Hne _].
    by eapply Hne.
  - by eapply reachable_connected.
Qed.

Lemma regions_connected_witness :
  [0; 2] ≠ [] ∧ connected (universe_adj false 2 2) [0; 2].
Proof.
  apply (regions_connected [1; 1; 1; 1]%Q [1; 1; 1; 1]%Q 10 1
           (fixed_draws [0; 1; 2; 3]) false 2 2
           {| pixels := [Some [0; 2]; Some [1]; None; Some [3]];
              neighs := [Some {[1; 3]}; Some {[0; 3]}; None; Some {[0; 1]}];
              merges := 1 |} 0).
  - eapply reachable_visit with (serp := 0); [apply reachable_initial|].
    vm_compute. reflexivity.
  - reflexivity.
Defined.



(** X9. In triangular mode the smoothed matrices are square, of the
    shape of the inputs, and symmetric. *)
Theorem triangular_outputs_symmetric (A B : ndarray Q) (threshold minthreshold : Q)
    (rnd : draws) (Amod Bmod : ndarray Q) (D : ndarray (ieee R)) :
  serpentin_iteration A B threshold minthreshold true rnd
    = Some (Ok (Amod, Bmod, D)) →
  ∃ n, shape A = [n; n]
       ∧ shape Amod = [n; n] ∧ length (data Amod) = n * n
       ∧ shape Bmod = [n; n] ∧ length (data Bmod) = n * n
       ∧ ∀ i j, i < n → j < n →
           (item 0 Amod i j == item 0 Amod j i)%Q
           ∧ (item 0 Bmod i j == item 0 Bmod j i)%Q.
Proof.
  intros (size0 & size1 & st & U' & V' & Hval & _ & _ & Hout)%serpentin_iteration_Ok.
  apply validate_Ok in Hval as (HA & _ & _ & Hsq).
  specialize (Hsq eq_refl) as <-. exists size0. split; [done|].
  unfold outputs in Hout. injection Hout as -> -> _.
  rewrite !shape_symmetrize, !length_symmetrize. repeat split; try done.
  all: rewrite !item_symmetrize by done.
  all: destruct (decide (j ≤ i)), (decide (i ≤ j)); try done; try lia.
  all: by assert (i = j) as -> by lia.
Qed.

Lemma triangular_outputs_symmetric_witness :
  let A := constant_matrix 2 2 100 in
  let out := outputs true 2 2 (data A) (data A) in
  ∃ n, shape A = [n; n]
       ∧ shape out.1.1 = [n; n] ∧ length (data out.1.1) = n * n
       ∧ shape out.1.2 = [n; n] ∧ length (data out.1.2) = n * n
       ∧ ∀ i j, i < n → j < n →
           (item 0 out.1.1 i j == item 0 out.1.1 j i)%Q
           ∧ (item 0 out.1.2 i j == item 0 out.1.2 j i)%Q.
Proof.
  intros A out.
  apply (triangular_outputs_symmetric A A 10 1 (fixed_draws [0; 1; 2])
           out.1.1 out.1.2 out.2).
  unfold serpentin_iteration.
  replace (validate A A 10 1 true) with (Ok (A := nat * nat) (2, 2))
    by (vm_compute; reflexivity).
  cbv beta iota zeta.
  replace (merger (data A) (data A) 10 1 (fixed_draws [0; 1; 2])
             (initial_start true 2 2) (initial_start true 2 2 + 2) 0 0 1
             (initial_state true 2 2))
    with (Some (Ok (initial_state true 2 2))) by (vm_compute; reflexivity).
  replace (print_iteration (initial_start true 2 2)) with (Ok ())
    by (vm_compute; reflexivity).
  replace (mean_fill (existent (pixels (initial_state true 2 2))) (data A, data A))
    with (Ok (data A, data A)) by (vm_compute; reflexivity).
  reflexivity.
Defined.

(** X10. Matrices that need no binning come back unchanged: when no
    pixel of the universe satisfies the merge predicate, no region is
    merged, the loop ends with the initial graph, and every binned entry
    of [Amod] and [Bmod] equals the entry of [A] and [B], for all
    draws.  The entries are integers of absolute value at most
    [2 ^ 24], which the cast to [float32] before the means are written
    keeps as they are ([float32_integer_spec]). *)
Theorem dense_input_unchanged (A B : ndarray Q) (threshold minthreshold : Q)
    (triangular : bool) (rnd : draws) (size0 size1 : nat) :
  wf_ndarray A → wf_ndarray B →
  validate A B threshold minthreshold triangular = Ok (size0, size1) →
  0 < size0 * size1 →
  (∀ i, permutation rnd i ≡ₚ range (initial_start triangular size0 size1)) →
  (∀ row col, in_universe triangular size0 size1 row col →
     float32_integer (item 0%Q A row col) = true
     ∧ float32_integer (item 0%Q B row col) = true) →
  (∀ row col, in_universe triangular size0 size1 row col →
     merge_predicate threshold minthreshold
       (item 0%Q A row col) (item 0%Q B row col) = false) →
  merger (data A) (data B) threshold minthreshold rnd
         (initial_start triangular size0 size1)
         (initial_start triangular size0 size1 + 2) 0 0 1
         (initial_state triangular size0 size1)
    = Some (Ok (initial_state triangular size0 size1))
  ∧ ∃ Amod Bmod D,
      serpentin_iteration A B threshold minthreshold triangular rnd
        = Some (Ok (Amod, Bmod, D))
      ∧ ∀ row col, in_universe triangular size0 size1 row col →
          (item 0 Amod row col == item 0 A row col)%Q
          ∧ (item 0 Bmod row col == item 0 B row col)%Q.
Proof.
  intros HA HB Hval Hpos Hperm _ Hdense.
  destruct (validated_in_range A B _ _ _ _ _ HA HB Hval) as (HlA & HlB & Hsq & Hin).
  pose proof Hval as (HsA & HsB & _ & _)%validate_Ok.
  assert (Hitem : ∀ row col, in_universe triangular size0 size1 row col →
            item 0%Q A row col
              = default 0%Q (data A !! pixel_id triangular size0 size1 row col)
            ∧ item 0%Q B row col
              = default 0%Q (data B !! pixel_id triangular size0 size1 row col)).
  { intros row col _. unfold item, pixel_id. rewrite HsB, HsA.
    destruct triangular; [by rewrite Hsq|done]. }
  assert (Hstart : 0 < initial_start triangular size0 size1).
  { pose proof (initial_start_zero triangular size0 size1 Hsq). lia. }
  assert (Hm : merger (data A) (data B) threshold minthreshold rnd
                 (initial_start triangular size0 size1)
                 (initial_start triangular size0 size1 + 2) 0 0 1
                 (initial_state triangular size0 size1)
               = Some (Ok (initial_state triangular size0 size1))).
  { apply dense_merger; try done; try lia; try (by intros; apply Hin).
    intros p (row & col & Hrc & ->)%elem_of_pixel_universe.
    destruct (Hitem row col Hrc) as [<- <-]. by apply Hdense. }
  split; [done|].
  destruct (serpentin_iteration_total A B threshold minthreshold triangular rnd)
    as [[[[Amod Bmod] D]|e] Hrun].
  2:{ exfalso. unfold serpentin_iteration in Hrun. rewrite Hval, Hm in Hrun.
      unfold print_iteration in Hrun. rewrite decide_False in Hrun by lia.
      cbv beta iota delta [bind] in Hrun.
      destruct (mean_fill_in_range
                  (existent (pixels (initial_state triangular size0 size1)))
                  (data A, data B)) as [UV HUV].
      - intros ps p (k & Hk)%elem_of_existent Hp. simpl. apply Hin.
        apply (reachable_in_range (data A) (data B) threshold minthreshold rnd
                 triangular size0 size1 _ k ps p
                 (reachable_initial _ _ _ _ _ _ _ _) Hk Hp).
      - by rewrite HUV in Hrun. }
  exists Amod, Bmod, D. split; [done|].
  destruct (trial_region_means _ _ _ _ _ _ _ _ _ Hrun)
    as (s0 & s1 & st & Hval' & Hm' & Hmeans).
  rewrite Hval in Hval'. injection Hval' as <- <-.
  rewrite Hm in Hm'. injection Hm' as <-.
  intros row col Hrc.
  assert (Hp : pixel_id triangular size0 size1 row col
               ∈ pixel_universe triangular size0 size1).
  { apply elem_of_pixel_universe. eauto. }
  apply list_elem_of_lookup in Hp as [k Hk].
  destruct (Hmeans k [pixel_id triangular size0 size1 row col] row col)
    as (HAm & HBm & _); [apply initial_alive; eauto | done | apply list_elem_of_here|].
  destruct (Hitem row col Hrc) as [-> ->].
  split.
  - rewrite HAm. apply region_mean_singleton.
  - rewrite HBm. apply region_mean_singleton.
Qed.

Lemma dense_input_unchanged_witness :
  let A := constant_matrix 2 2 100 in
  merger (data A) (data A) 10 1 (fixed_draws [0; 1; 2; 3])
         (initial_start false 2 2) (initial_start false 2 2 + 2) 0 0 1
         (initial_state false 2 2)
    = Some (Ok (initial_state false 2 2))
  ∧ ∃ Amod Bmod D,
      serpentin_iteration A A 10 1 false (fixed_draws [0; 1; 2; 3])
        = Some (Ok (Amod, Bmod, D))
      ∧ ∀ row col, in_universe false 2 2 row col →
          (item 0 Amod row col == item 0 A row col)%Q
          ∧ (item 0 Bmod row col == item 0 A row col)%Q.
Proof.
  intros A.
  apply (dense_input_unchanged A A 10 1 false (fixed_draws [0; 1; 2; 3]) 2 2);
    [reflexivity | reflexivity | vm_compute; reflexivity | lia
    | intros i; reflexivity | |].
  - intros row col [Hrow Hcol].
    destruct row as [|[|row]]; [| |lia]; (destruct col as [|[|col]]; [| |lia]);
      split; vm_compute; reflexivity.
  - intros row col [Hrow Hcol].
    destruct row as [|[|row]]; [| |lia]; (destruct col as [|[|col]]; [| |lia]);
      vm_compute; reflexivity.
Defined.

(** X11. With the same draws for each trial, the result of
    [serpentin_binning] does not depend on [parallel]: the branch that
    collects the results of [Pool.map] and adds them afterwards, and the
    sequential loop, return the same triple or raise the same
    exception. *)
Theorem binning_parallel_irrelevant (A B : ndarray Q) (threshold minthreshold : Q)
    (triangular : bool) (rnds : nat → draws) (iterations parallel parallel' : Z) :
  serpentin_binning A B threshold minthreshold triangular rnds iterations parallel
  = serpentin_binning A B threshold minthreshold triangular rnds iterations parallel'.
Proof.
  destruct (validate A B threshold minthreshold triangular) as [size|e] eqn:Hval.
  - by rewrite !(binning_as_sequential _ _ _ _ _ _ _ _ size Hval).
  - unfold serpentin_binning. by rewrite Hval.
Qed.

(** X12. When every trial of a run with [iterations > 0] returns, the
    driver returns matrices of the shape of the inputs whose entries
    are the sums of the entries of the trial results divided by
    [iterations]. *)
Theorem binning_average (A B : ndarray Q) (threshold minthreshold : Q)
    (triangular : bool) (rnds : nat → draws) (iterations parallel : Z)
    (size0 size1 : nat) (outs : nat → trial_output) :
  wf_ndarray A → wf_ndarray B →
  validate A B threshold minthreshold triangular = Ok (size0, size1) →
  (0 < iterations)%Z →
  (∀ x, (Z.of_nat x < iterations)%Z →
     serpentin_iteration A B threshold minthreshold triangular (rnds x)
     = Some (Ok (outs x))) →
  ∃ rA rB rK,
    serpentin_binning A B threshold minthreshold triangular rnds iterations parallel
      = Some (Ok (rA, rB, rK))
    ∧ shape rA = [size0; size1] ∧ shape rB = [size0; size1]
    ∧ ∀ p, p < size0 * size1 →
        ∃ qa qb,
          data rA !! p = Some (Fin qa) ∧ data rB !! p = Some (Fin qb)
          ∧ (qa == trial_sum (λ r, r.1.1)
                     (map outs (range (Z.to_nat iterations))) p
                   / inject_Z iterations)%Q
          ∧ (qb == trial_sum (λ r, r.1.2)
                     (map outs (range (Z.to_nat iterations))) p
                   / inject_Z iterations)%Q.
Proof.
  intros HA HB Hval Hpos Hall.
  destruct (validated_in_range A B _ _ _ _ _ HA HB Hval) as (HlA & HlB & _ & _).
  pose proof Hval as (HsA & _)%validate_Ok.
  rewrite (binning_as_sequential _ _ _ _ _ _ _ _ _ Hval).
  rewrite (sequential_all_Ok _ _ _ _ _ _ _ outs).
  2:{ intros x Hx%elem_of_seq. apply Hall. lia. }
  set (res := map outs (range (Z.to_nat iterations))).
  assert (Hres : ∀ r, r ∈ res →
            length (data r.1.1) = size0 * size1
            ∧ length (data r.1.2) = size0 * size1).
  { intros r (x & -> & Hx%elem_of_seq)%list_elem_of_fmap.
    destruct (outs x) as [[At Bt] Kt] eqn:Hout.
    destruct (trial_output_sizes A B threshold minthreshold triangular (rnds x)
                size0 size1 At Bt Kt HA HB Hval) as ((_ & ?) & (_ & ?) & _); [|done].
    rewrite <-Hout. apply Hall. lia. }
  assert (Hnz : ¬ (inject_Z iterations == 0)%Q).
  { unfold Qeq. simpl. lia. }
  pose proof (foldl_accumulate_shape res (zero_sums A)) as [HshA HshB].
  pose proof (λ p, foldl_accumulate_lookup res (zero_sums A) (size0 * size1) p)
    as Hlook.
  destruct (foldl accumulate (zero_sums A) res) as [[sK sA] sB].
  simpl in HshA, HshB, Hlook.
  eexists _, _, _. split; [reflexivity|]. simpl.
  split; [congruence|]. split; [congruence|].
  intros p Hp.
  destruct (Hlook p) as (_ & _ & _ & _ & qa & qb & Hqa & Hqb & Hea & Heb);
    rewrite ?length_replicate; try done.
  rewrite lookup_replicate_2 in Hea, Heb by lia. simpl in Hea, Heb.
  exists (qa * 1 / inject_Z iterations)%Q, (qb * 1 / inject_Z iterations)%Q.
  rewrite !list_lookup_fmap, Hqa, Hqb. simpl.
  rewrite !fdiv_nonzero by done.
  repeat split; try done.
  - rewrite Hea. by field.
  - rewrite Heb. by field.
Qed.

Lemma binning_average_witness :
  let A := constant_matrix 1 1 100 in
  let rnds := λ _ : nat, fixed_draws [0] in
  let outs := λ _ : nat, outputs false 1 1 (data A) (data A) in
  ∃ rA rB rK,
    serpentin_binning A A 10 1 false rnds 2 16 = Some (Ok (rA, rB, rK))
    ∧ shape rA = [1; 1] ∧ shape rB = [1; 1]
    ∧ ∀ p, p < 1 * 1 →
        ∃ qa qb,
          data rA !! p = Some (Fin qa) ∧ data rB !! p = Some (Fin qb)
          ∧ (qa == trial_sum (λ r, r.1.1) (map outs (range (Z.to_nat 2))) p
                   / inject_Z 2)%Q
          ∧ (qb == trial_sum (λ r, r.1.2) (map outs (range (Z.to_nat 2))) p
                   / inject_Z 2)%Q.
Proof.
  intros A rnds outs.
  apply (binning_average A A 10 1 false rnds 2 16 1 1 outs);
    [reflexivity | reflexivity | vm_compute; reflexivity | lia|].
  intros x _. unfold serpentin_iteration.
  replace (validate A A 10 1 false) with (Ok (A := nat * nat) (1, 1))
    by (vm_compute; reflexivity).
  cbv beta iota zeta.
  replace (merger (data A) (data A) 10 1 (rnds x)
             (initial_start false 1 1) (initial_start false 1 1 + 2) 0 0 1
             (initial_state false 1 1))
    with (Some (Ok (initial_state false 1 1))) by (vm_compute; reflexivity).
  replace (print_iteration (initial_start false 1 1)) with (Ok ())
    by (vm_compute; reflexivity).
  replace (mean_fill (existent (pixels (initial_state false 1 1))) (data A, data A))
    with (Ok (data A, data A)) by (vm_compute; reflexivity).
  reflexivity.
Defined.

(** X13. When a trial returns, the three matrices have the shape of the
    inputs and one entry per entry of the inputs (for well-formed
    inputs), in both modes. *)
Theorem trial_output_shapes (A B : ndarray Q) (threshold minthreshold : Q)
    (triangular : bool) (rnd : draws) (size0 size1 : nat)
    (Amod Bmod : ndarray Q) (D : ndarray (ieee R)) :
  wf_ndarray A → wf_ndarray B →
  validate A B threshold minthreshold triangular = Ok (size0, size1) →
  serpentin_iteration A B threshold minthreshold triangular rnd
    = Some (Ok (Amod, Bmod, D)) →
  (shape Amod = shape A ∧ wf_ndarray Amod)
  ∧ (shape Bmod = shape A ∧ wf_ndarray Bmod)
  ∧ (shape D = shape A ∧ wf_ndarray D).
Proof.
  intros HA HB Hval Hrun.
  destruct (trial_output_sizes A B _ _ _ _ _ _ _ _ _ HA HB Hval Hrun)
    as ((HsA & HlA) & (HsB & HlB) & (HsD & HlD)).
  apply validate_Ok in Hval as (-> & _).
  unfold wf_ndarray. rewrite HsA, HsB, HsD, HlA, HlB, HlD. simpl.
  repeat split; lia.
Qed.

Lemma trial_output_shapes_witness :
  let A := constant_matrix 2 2 100 in
  let out := outputs true 2 2 (data A) (data A) in
  (shape out.1.1 = shape A ∧ wf_ndarray out.1.1)
  ∧ (shape out.1.2 = shape A ∧ wf_ndarray out.1.2)
  ∧ (shape out.2 = shape A ∧ wf_ndarray out.2).
Proof.
  intros A out.
  apply (trial_output_shapes A A 10 1 true (fixed_draws [0; 1; 2]) 2 2
           out.1.1 out.1.2 out.2);
    [reflexivity | reflexivity | vm_compute; reflexivity|].
  unfold serpentin_iteration.
  replace (validate A A 10 1 true) with (Ok (A := nat * nat) (2, 2))
    by (vm_compute; reflexivity).
  cbv beta iota zeta.
  replace (merger (data A) (data A) 10 1 (fixed_draws [0; 1; 2])
             (initial_start true 2 2) (initial_start true 2 2 + 2) 0 0 1
             (initial_state true 2 2))
    with (Some (Ok (initial_state true 2 2))) by (vm_compute; reflexivity).
  replace (print_iteration (initial_start true 2 2)) with (Ok ())
    by (vm_compute; reflexivity).
  replace (mean_fill (existent (pixels (initial_state true 2 2))) (data A, data A))
    with (Ok (data A, data A)) by (vm_compute; reflexivity).
  reflexivity.
Defined.

(** X14. The validation raises one [ValueError] and nothing else.  The
    shapes are checked first: when they are not accepted (equal, of two
    dimensions, and square in triangular mode) the error is the one of
    the shapes, whatever the thresholds are; with accepted shapes the
    error is the one of the thresholds exactly when [minthreshold <
    threshold] fails.  A trial raises this error for all draws. *)
Theorem validation_errors (A B : ndarray Q) (threshold minthreshold : Q)
    (triangular : bool) (e : exn) :
  (validate A B threshold minthreshold triangular = Raise e ↔
     (¬ shapes_accepted triangular (shape A) (shape B)
      ∧ e = if triangular then ValueError_square else ValueError_shape)
     ∨ (shapes_accepted triangular (shape A) (shape B)
        ∧ (threshold <= minthreshold)%Q ∧ e = ValueError_threshold))
  ∧ (validate A B threshold minthreshold triangular = Raise e →
     ∀ rnd, serpentin_iteration A B threshold minthreshold triangular rnd
            = Some (Raise e)).
Proof.
  split.
  - unfold validate.
    destruct (decide (shapes_accepted triangular (shape A) (shape B))) as [Hok|Hno].
    + destruct (check_shape_accepted _ _ _ Hok) as (h & w & _ & ->). simpl.
      unfold check_threshold.
      destruct (Qltb minthreshold threshold) eqn:Hlt; simpl.
      * split; [done|]. intros [[? _]|(_ & Hle & _)]; [done|].
        apply Qltb_true in Hlt. Lqa.lra.
      * apply Qltb_false in Hlt. split.
        -- intros [= <-]. by right.
        -- intros [[? _]|(_ & _ & ->)]; done.
    + rewrite (check_shape_rejected _ _ _ Hno). simpl. split.
      * intros [= <-]. by left.
      * intros [[_ ->]|[? _]]; done.
  - intros Hval rnd. unfold serpentin_iteration. by rewrite Hval.
Qed.



(** X16. [fromupdiag] on a well-formed file (a header with a label and
    [n] names, then at most [n] lines, line [i] holding a label and the
    [n - i] numbers of row [i] from the diagonal on) returns an
    [n x n] matrix that is symmetric: the entries [(i, j)] and [(j, i)]
    with [i <= j] both hold the number of column [j] of line [i], and
    the rows of missing lines are zero. *)
Theorem fromupdiag_symmetric (label : field) (names : list field)
    (lines : list (list field)) :
  upper_triangle_file (length names) lines →
  ∃ M, fromupdiag (label :: names) lines = inr M
       ∧ shape M = [length names; length names]
       ∧ length (data M) = length names * length names
       ∧ ∀ i j, i ≤ j → j < length names →
           (item 0 M i j == file_entry lines i j)%Q
           ∧ (item 0 M j i == file_entry lines i j)%Q
           ∧ (length lines ≤ i → (item 0 M i j == 0)%Q).
Proof.
  intros Hfile.
  destruct (fromupdiag_upper label names lines Hfile) as (M & HM & Hs & Hl & Hget).
  exists M. repeat split; try done; try (by apply Hget).
  intros Hi. destruct (Hget i j) as [-> _]; [done..|].
  by rewrite file_entry_outside.
Qed.

Lemma fromupdiag_symmetric_witness :
  let lines := [[Text; Number 1; Number 2]; [Text; Number 3]] in
  ∃ M, fromupdiag [Text; Text; Text] lines = inr M
       ∧ shape M = [2; 2]
       ∧ length (data M) = 2 * 2
       ∧ ∀ i j, i ≤ j → j < 2 →
           (item 0 M i j == file_entry lines i j)%Q
           ∧ (item 0 M j i == file_entry lines i j)%Q
           ∧ (length lines ≤ i → (item 0 M i j == 0)%Q).
Proof.
  intros lines.
  apply (fromupdiag_symmetric Text [Text; Text] lines).
  split; [simpl; lia|].
  intros i line Hi. destruct i as [|[|i]]; simpl in Hi; [| |done].
  - injection Hi as <-. by exists Text, [1; 2]%Q.
  - injection Hi as <-. by exists Text, [3]%Q.
Defined.

(** X17. The exceptions of [fromupdiag].  An empty first line raises
    [IndexError] ([pop] from an empty list).  After well-formed lines,
    the next line raises [IndexError] when it is blank, [IndexError]
    when the matrix has no row left for it (the file has more lines
    than columns), and [ValueError] when one of its fields is no
    number, or when the number of its values is neither the length of
    the rest of the row nor one. *)
Theorem fromupdiag_errors (label : field) (names : list field)
    (good rest : list (list field)) :
  (∀ lines, fromupdiag [] lines = inl IndexError_pop)
  ∧ (upper_triangle_file (length names) good →
     fromupdiag (label :: names) (good ++ [] :: rest) = inl IndexError_pop
     ∧ ∀ l data,
         (length names ≤ length good →
          fromupdiag (label :: names) (good ++ (l :: data) :: rest)
          = inl IndexError_row)
         ∧ (length good < length names → numbers data = None →
            fromupdiag (label :: names) (good ++ (l :: data) :: rest)
            = inl ValueError_assign)
         ∧ (length good < length names →
            length data ≠ length names - length good → length data ≠ 1 →
            fromupdiag (label :: names) (good ++ (l :: data) :: rest)
            = inl ValueError_assign)).
Proof.
  split; [done|]. intros [Hlen Hlines]. set (n := length names) in *.
  destruct (read_rows_upper n 0 (replicate (n * n) 0%Q) good)
    as (res & Hread & Hres & _).
  { by rewrite length_replicate. }
  { done. }
  { intros k line Hk. destruct (Hlines k line Hk) as (l & vs & -> & Hvs). eauto. }
  assert (Hnext : ∀ bad,
            fromupdiag (label :: names) (good ++ bad :: rest) =
            match read_rows n (length good) res (bad :: rest) with
            | inl e => inl e
            | inr res' => inr (mirror (NdArray [n; n] res'))
            end).
  { intros bad. unfold fromupdiag. fold n. by rewrite read_rows_app, Hread. }
  split; [by rewrite Hnext|].
  intros l data. rewrite !Hnext. simpl. unfold assign_row.
  repeat split.
  - intros Hfull. by rewrite decide_True.
  - intros Hroom Hdata. rewrite decide_False by lia. by rewrite Hdata.
  - intros Hroom Hd H1. rewrite decide_False by lia.
    destruct (numbers data) as [vs|] eqn:Hdata; [|done].
    apply numbers_Some in Hdata. subst data. rewrite length_map in Hd, H1.
    rewrite decide_False by done.
    by destruct vs as [|v [|w vs]].
Qed.

Lemma fromupdiag_errors_witness :
  (∀ lines, fromupdiag [] lines = inl IndexError_pop)
  ∧ (fromupdiag [Text; Text] ([[Text; Number 1]] ++ [] :: []) = inl IndexError_pop
     ∧ ∀ l data,
         (length [Text] ≤ length [[Text; Number 1]] →
          fromupdiag [Text; Text] ([[Text; Number 1]] ++ (l :: data) :: [])
          = inl IndexError_row)
         ∧ (length [[Text; Number 1]] < length [Text] → numbers data = None →
            fromupdiag [Text; Text] ([[Text; Number 1]] ++ (l :: data) :: [])
            = inl ValueError_assign)
         ∧ (length [[Text; Number 1]] < length [Text] →
            length data ≠ length [Text] - length [[Text; Number 1]] →
            length data ≠ 1 →
            fromupdiag [Text; Text] ([[Text; Number 1]] ++ (l :: data) :: [])
            = inl ValueError_assign)).
Proof.
  destruct (fromupdiag_errors Text [Text] [[Text; Number 1]] []) as [Hpop Hrest].
  split; [exact Hpop|]. apply Hrest.
  split; [simpl; lia|].
  intros i line Hi. destruct i as [|i]; simpl in Hi; [|done].
  injection Hi as <-. by exists Text, [1]%Q.
Defined.

(** X18. A line with a single value is read as if the value were
    repeated over the rest of the row: the assignment to the slice
    broadcasts it, and no exception is raised. *)
Theorem fromupdiag_broadcast (label : field) (names : list field)
    (good rest : list (list field)) (l : field) (v : Q) :
  length good < length names →
  fromupdiag (label :: names) (good ++ [l; Number v] :: rest) =
  fromupdiag (label :: names)
    (good ++ (l :: map Number (replicate (length names - length good) v)) :: rest).
Proof.
  intros Hroom. unfold fromupdiag. rewrite !read_rows_app.
  destruct (read_rows _ 0 _ good) as [e|res]; [done|]. simpl.
  unfold assign_row. rewrite !decide_False by lia.
  rewrite numbers_map_Number. simpl. rewrite length_replicate.
  rewrite (decide_True (P := length names - length good = _)) by done.
  case_decide as H1; [|done]. by rewrite <-H1.
Qed.

Lemma fromupdiag_broadcast_witness :
  fromupdiag [Text; Text; Text] [[Text; Number 5]] =
  fromupdiag [Text; Text; Text] [[Text; Number 5; Number 5]].
Proof.
  apply (fromupdiag_broadcast Text [Text; Text] [] [] Text 5%Q). simpl. lia.
Defined.

(** X20. [fltmatr] with a boolean mask of the right length on a
    square matrix returns the square matrix of the rows and columns at
    which the mask is [True], in their order: entry [(a, b)] of the
    result is the entry of [X] at the [a]-th and the [b]-th selected
    position.  The result of a symmetric matrix is symmetric. *)
Theorem fltmatr_mask (M : ndarray Q) (m : list bool) (n : nat) :
  shape M = [n; n] → length (data M) = n * n → length m = n →
  let sel := mask_positions m 0 in
  (∀ i, i ∈ sel ↔ m !! i = Some true)
  ∧ ∃ Y, fltmatr M (Mask m) = Ok Y
         ∧ shape Y = [length sel; length sel]
         ∧ length (data Y) = length sel * length sel
         ∧ (∀ a b i j, sel !! a = Some i → sel !! b = Some j →
              item 0%Q Y a b = item 0%Q M i j)
         ∧ ((∀ i j, i < n → j < n → (item 0 M i j == item 0 M j i)%Q) →
            ∀ a b, a < length sel → b < length sel →
              (item 0 Y a b == item 0 Y b a)%Q).
Proof.
  intros Hs Hl Hm sel. split.
  { intros i. unfold sel. rewrite elem_of_mask_positions. split.
    - by intros (k & -> & Hk).
    - intros Hi. by exists i. }
  destruct (fltmatr M (Mask m)) as [Y|e] eqn:HY.
  2:{ exfalso. unfold fltmatr in HY. rewrite Hs in HY. simpl in HY.
      by rewrite decide_True in HY by done. }
  destruct (fltmatr_Ok M (Mask m) n n Y Hs Hl HY)
    as (rows & cols & Hrows & Hcols & HsY & HlY & Hget).
  simpl in Hrows, Hcols. rewrite decide_True in Hrows, Hcols by done.
  injection Hrows as <-. injection Hcols as <-. fold sel in HsY, HlY, Hget.
  exists Y. repeat split; try done.
  intros Hsym a b Ha Hb.
  destruct (lookup_lt_is_Some_2 sel a Ha) as [i Hi].
  destruct (lookup_lt_is_Some_2 sel b Hb) as [j Hj].
  rewrite (Hget a b i j Hi Hj), (Hget b a j i Hj Hi).
  assert (Hlt : ∀ k p, sel !! k = Some p → p < n).
  { intros k p Hk. apply list_elem_of_lookup_2, elem_of_mask_positions in Hk
      as (k' & -> & Hk'%lookup_lt_Some). lia. }
  apply Hsym; by eapply Hlt.
Qed.

Lemma fltmatr_mask_witness :
  let M := NdArray [2; 2] [1; 2; 2; 3]%Q in
  let sel := mask_positions [false; true] 0 in
  (∀ i, i ∈ sel ↔ [false; true] !! i = Some true)
  ∧ ∃ Y, fltmatr M (Mask [false; true]) = Ok Y
         ∧ shape Y = [length sel; length sel]
         ∧ length (data Y) = length sel * length sel
         ∧ (∀ a b i j, sel !! a = Some i → sel !! b = Some j →
              item 0%Q Y a b = item 0%Q M i j)
         ∧ ((∀ i j, i < 2 → j < 2 → (item 0 M i j == item 0 M j i)%Q) →
            ∀ a b, a < length sel → b < length sel →
              (item 0 Y a b == item 0 Y b a)%Q).
Proof.
  intros M.
  apply (fltmatr_mask M [false; true] 2); reflexivity.
Defined.

(** X21. [fltmatr] raises [IndexError] and nothing else, exactly when
    the index does not fit both axes: a mask whose length differs from
    the number of rows or of columns (so that a mask never filters a
    matrix that is not square), or an integer outside [-n, n) for one
    of the two axis lengths [n]. *)
Theorem fltmatr_raises_iff (M : ndarray Q) (flt : index) (h w : nat) :
  shape M = [h; w] →
  (∀ e, fltmatr M flt = Raise e → e = IndexError_bounds)
  ∧ (fltmatr M flt = Raise IndexError_bounds ↔
     match flt with
     | Mask m => length m ≠ h ∨ length m ≠ w
     | Take idx =>
         ∃ z, z ∈ idx
              ∧ ¬ ((- Z.of_nat h ≤ z < Z.of_nat h)%Z
                   ∧ (- Z.of_nat w ≤ z < Z.of_nat w)%Z)
     end).
Proof.
  intros Hs. unfold fltmatr. rewrite Hs. simpl.
  pose proof (positions_Ok_iff flt h) as Hh.
  pose proof (positions_Ok_iff flt w) as Hw.
  destruct (positions flt h) as [rows|e1] eqn:Hrows;
    destruct (positions flt w) as [cols|e2] eqn:Hcols; simpl.
  - split; [done|]. split; [done|].
    destruct flt as [m|idx].
    + intros [H|H]; exfalso; [apply H, Hh | apply H, Hw]; eauto.
    + intros (z & Hz & Hno). destruct Hno.
      split; [apply (proj1 Hh) | apply (proj1 Hw)]; eauto.
  - apply positions_Raise in Hcols as ->. split; [by intros e [= <-]|].
    split; [|done]. intros _. destruct flt as [m|idx].
    + right. intros Hm. by destruct (proj2 Hw Hm).
    + destruct (decide (Forall (λ z, (- Z.of_nat w ≤ z < Z.of_nat w)%Z) idx))
        as [Hall|Hnot].
      * rewrite Forall_forall in Hall. by destruct (proj2 Hw Hall).
      * apply not_Forall_Exists, Exists_exists in Hnot as (z & Hz & Hno);
          [|intros z; apply _].
        exists z. split; [done|]. simpl in Hno. intros [? ?]. by apply Hno.
  - apply positions_Raise in Hrows as ->. split; [by intros e [= <-]|].
    split; [|done]. intros _. destruct flt as [m|idx].
    + left. intros Hm. by destruct (proj2 Hh Hm).
    + destruct (decide (Forall (λ z, (- Z.of_nat h ≤ z < Z.of_nat h)%Z) idx))
        as [Hall|Hnot].
      * rewrite Forall_forall in Hall. by destruct (proj2 Hh Hall).
      * apply not_Forall_Exists, Exists_exists in Hnot as (z & Hz & Hno);
          [|intros z; apply _].
        exists z. split; [done|]. simpl in Hno. intros [? ?]. by apply Hno.
  - apply positions_Raise in Hrows as ->. split; [by intros e [= <-]|].
    split; [|done]. intros _. destruct flt as [m|idx].
    + left. intros Hm. by destruct (proj2 Hh Hm).
    + destruct (decide (Forall (λ z, (- Z.of_nat h ≤ z < Z.of_nat h)%Z) idx))
        as [Hall|Hnot].
      * rewrite Forall_forall in Hall. by destruct (proj2 Hh Hall).
      * apply not_Forall_Exists, Exists_exists in Hnot as (z & Hz & Hno);
          [|intros z; apply _].
        exists z. split; [done|]. simpl in Hno. intros [? ?]. by apply Hno.
Qed.

Lemma fltmatr_raises_iff_witness :
  (∀ e, fltmatr (NdArray [2; 3] [1; 2; 3; 4; 5; 6]%Q) (Mask [true; false]) = Raise e →
        e = IndexError_bounds)
  ∧ (fltmatr (NdArray [2; 3] [1; 2; 3; 4; 5; 6]%Q) (Mask [true; false])
     = Raise IndexError_bounds ↔
     length [true; false] ≠ 2 ∨ length [true; false] ≠ 3).
Proof.
  apply (fltmatr_raises_iff (NdArray [2; 3] [1; 2; 3; 4; 5; 6]%Q)
           (Mask [true; false]) 2 3).
  reflexivity.
Defined.

(** X22. [mad] of no data is [nan].  For data between [lo] and [hi] it
    is a number between 0 and [hi - lo], and the median lies between
    [lo] and [hi]; in particular [mad] is never negative, and it is 0
    when all values are equal. *)
Theorem mad_bounds (data : list Q) (lo hi : Q) :
  mad [] = NaN
  ∧ (data ≠ [] →
     (∀ x, x ∈ data → (lo <= x <= hi)%Q) →
     ∃ m d, median data = Fin m ∧ mad data = Fin d
            ∧ (lo <= m <= hi)%Q ∧ (0 <= d <= hi - lo)%Q).
Proof.
  split; [done|]. intros Hne Hb.
  destruct (median_Fin data Hne) as [m Hm].
  pose proof (median_bounds data lo hi m Hb Hm) as Hmb.
  destruct (median_Fin (map (λ x, Qabs (x - m)) data)) as [d Hd].
  { by destruct data. }
  exists m, d. unfold mad. rewrite Hm. split; [done|]. split; [done|].
  split; [done|].
  apply (median_bounds (map (λ x, Qabs (x - m)) data) 0 (hi - lo) d); [|done].
  intros y (x & -> & Hx)%list_elem_of_fmap. split; [apply Qabs_nonneg|].
  apply Qabs_Qle_condition. specialize (Hb x Hx). split; Lqa.lra.
Qed.

Lemma mad_bounds_witness :
  mad [] = NaN
  ∧ ∃ m d, median [3; 1; 2]%Q = Fin m ∧ mad [3; 1; 2]%Q = Fin d
           ∧ (1 <= m <= 3)%Q ∧ (0 <= d <= 3 - 1)%Q.
Proof.
  destruct (mad_bounds [3; 1; 2]%Q 1 3) as [Hnil Hb].
  split; [exact Hnil|]. apply Hb; [done|].
  intros x Hx. repeat (apply elem_of_cons in Hx as [->|Hx]);
    [| | |by apply elem_of_nil in Hx]; split; unfold Qle; simpl; lia.
Defined.

(** X23. [mad] follows a change of scale and ignores a shift: for
    [a > 0], [mad(a * data + c) = a * mad(data)]. *)
Theorem mad_affine (data : list Q) (a c : Q) :
  (0 < a)%Q → data ≠ [] →
  ∃ d d', mad data = Fin d
          ∧ mad (map (λ x, a * x + c)%Q data) = Fin d'
          ∧ (d' == a * d)%Q.
Proof.
  intros Ha Hne.
  destruct (median_Fin data Hne) as [m Hm].
  destruct (median_map (λ x, a * x + c)%Q data m) as (m' & Hm' & Hmm); [..|done|].
  { intros x y. by apply Qle_bool_affine. }
  { intros x y. field. }
  set (dev := map (λ x, Qabs (x - m)) data).
  destruct (median_Fin dev) as [d Hd]; [by destruct data|].
  destruct (median_map (λ z, a * z + 0)%Q dev d) as (d1 & Hd1 & Hdd); [..|done|].
  { intros x y. by apply Qle_bool_affine. }
  { intros x y. field. }
  assert (Heq : Forall2 Qeq
                  (map (λ y, Qabs (y - m')) (map (λ x, a * x + c)%Q data))
                  (map (λ z, a * z + 0)%Q dev)).
  { unfold dev. rewrite !map_map. apply map_Forall2_Qeq. intros x.
    rewrite Hmm.
    assert (a * x + c - (a * m + c) == a * (x - m))%Q as -> by ring.
    rewrite Qabs_Qmult, (Qabs_pos a) by Lqa.lra. ring. }
  apply median_Qeq in Heq. rewrite Hd1 in Heq.
  unfold mad. rewrite Hm, Hm'. fold dev. rewrite Hd.
  destruct (median (map (λ y, Qabs (y - m')) _)) as [d'| | |]; try done.
  exists d, d'. repeat split. simpl in Heq. rewrite Heq, Hdd. ring.
Qed.

Lemma mad_affine_witness :
  ∃ d d', mad [3; 1; 2]%Q = Fin d
          ∧ mad (map (λ x, 2 * x + 5)%Q [3; 1; 2]%Q) = Fin d'
          ∧ (d' == 2 * d)%Q.
Proof.
  apply (mad_affine [3; 1; 2]%Q 2 5); [reflexivity | done].
Defined.

(** X24. No division or logarithm of a trial raises: every binned
    entry of [D] is [log2(Bmod / Amod)] with the conventions of floats.
    With [u] the entry of [Amod] and [v] the entry of [Bmod], it is a
    finite number when [u] and [v] are both positive or both negative,
    [-inf] when [v = 0] and [u] is not, [+inf] when [u = 0 < v], and
    [nan] when [u = 0 >= v] or when [u] and [v] have opposite signs. *)
Theorem log_ratio_entries (A B : ndarray Q) (threshold minthreshold : Q)
    (triangular : bool) (rnd : draws) (size0 size1 : nat)
    (Amod Bmod : ndarray Q) (D : ndarray (ieee R)) (row col : nat) :
  wf_ndarray A → wf_ndarray B →
  validate A B threshold minthreshold triangular = Ok (size0, size1) →
  serpentin_iteration A B threshold minthreshold triangular rnd
    = Some (Ok (Amod, Bmod, D)) →
  in_universe triangular size0 size1 row col →
  let u := item 0%Q Amod row col in
  let v := item 0%Q Bmod row col in
  let d := item (Fin 0%R) D row col in
  d = log2 (fdiv v u)
  ∧ ((0 < u ∧ 0 < v)%Q ∨ (u < 0 ∧ v < 0)%Q →
     d = Fin (ln (Q2R (v / u)) / ln 2)%R)
  ∧ (¬ (u == 0)%Q → (v == 0)%Q → d = NegInf)
  ∧ ((u == 0)%Q → (0 < v)%Q → d = PosInf)
  ∧ ((u == 0 ∧ v <= 0)%Q ∨ (0 < u ∧ v < 0)%Q ∨ (u < 0 ∧ 0 < v)%Q → d = NaN).
Proof.
  intros HA HB Hval Hrun Hrc u v d.
  assert (Hd : d = log2 (fdiv v u)).
  { unfold d, u, v.
    apply (trial_log_ratio A B threshold minthreshold triangular rnd size0 size1
             Amod Bmod D row col HA HB Hval Hrun Hrc). }
  split; [done|]. rewrite Hd. apply log2_fdiv_cases.
Qed.

Lemma log_ratio_entries_witness :
  let A := constant_matrix 2 2 100 in
  let out := outputs false 2 2 (data A) (data A) in
  let u := item 0%Q out.1.1 1 1 in
  let v := item 0%Q out.1.2 1 1 in
  let d := item (Fin 0%R) out.2 1 1 in
  d = log2 (fdiv v u)
  ∧ ((0 < u ∧ 0 < v)%Q ∨ (u < 0 ∧ v < 0)%Q →
     d = Fin (ln (Q2R (v / u)) / ln 2)%R)
  ∧ (¬ (u == 0)%Q → (v == 0)%Q → d = NegInf)
  ∧ ((u == 0)%Q → (0 < v)%Q → d = PosInf)
  ∧ ((u == 0 ∧ v <= 0)%Q ∨ (0 < u ∧ v < 0)%Q ∨ (u < 0 ∧ 0 < v)%Q → d = NaN).
Proof.
  intros A out.
  apply (log_ratio_entries A A 10 1 false (fixed_draws [0; 1; 2; 3]) 2 2
           out.1.1 out.1.2 out.2 1 1);
    [reflexivity | reflexivity | vm_compute; reflexivity | | split; simpl; lia].
  unfold serpentin_iteration.
  replace (validate A A 10 1 false) with (Ok (A := nat * nat) (2, 2))
    by (vm_compute; reflexivity).
  cbv beta iota zeta.
  replace (merger (data A) (data A) 10 1 (fixed_draws [0; 1; 2; 3])
             (initial_start false 2 2) (initial_start false 2 2 + 2) 0 0 1
             (initial_state false 2 2))
    with (Some (Ok (initial_state false 2 2))) by (vm_compute; reflexivity).
  replace (print_iteration (initial_start false 2 2)) with (Ok ())
    by (vm_compute; reflexivity).
  replace (mean_fill (existent (pixels (initial_state false 2 2))) (data A, data A))
    with (Ok (data A, data A)) by (vm_compute; reflexivity).
  reflexivity.
Defined.



(** X26. A mask that is [True] everywhere filters nothing: [fltmatr]
    returns a square matrix as it is. *)
Theorem fltmatr_all_true (M : ndarray Q) (n : nat) :
  shape M = [n; n] → length (data M) = n * n →
  fltmatr M (Mask (replicate n true)) = Ok M.
Proof.
  intros Hs Hl.
  destruct (fltmatr M (Mask (replicate n true))) as [Y|e] eqn:HY.
  2:{ exfalso. unfold fltmatr in HY. rewrite Hs in HY. simpl in HY.
      by rewrite decide_True in HY by apply length_replicate. }
  destruct (fltmatr_Ok M _ n n Y Hs Hl HY)
    as (rows & cols & Hrows & Hcols & HsY & HlY & Hget).
  simpl in Hrows, Hcols.
  rewrite decide_True in Hrows, Hcols by apply length_replicate.
  rewrite mask_positions_all in Hrows, Hcols.
  injection Hrows as <-. injection Hcols as <-.
  rewrite length_seq in HsY, HlY.
  f_equal. rewrite (wf_matrix_of Y n n HsY HlY), (wf_matrix_of M n n Hs Hl).
  apply matrix_of_ext. intros i j Hi Hj.
  apply Hget; by apply lookup_seq_lt.
Qed.

Lemma fltmatr_all_true_witness :
  fltmatr (NdArray [2; 2] [1; 2; 3; 4]%Q) (Mask (replicate 2 true))
  = Ok (NdArray [2; 2] [1; 2; 3; 4]%Q).
Proof.
  apply (fltmatr_all_true (NdArray [2; 2] [1; 2; 3; 4]%Q) 2); reflexivity.
Defined.
